(** * Click particle effect: a shallow embedding of [js/click-particles.js]
    (the throttled variant) and of its earlier variant without throttling.

    JavaScript numbers are IEEE 754 binary64 values: they are modelled by
    Rocq's primitive floats, whose operations are specified bit for bit by
    [SpecFloat].  The host (browser) is modelled by explicit state: the
    outputs of [Math.random], the animation-frame requests, the timer table
    behind [setTimeout]/[clearTimeout] and a clock in milliseconds. *)

From Stdlib Require Import Floats ZArith Lia String Ascii List Bool.
From stdpp Require Import gmap.
Import ListNotations.

Set Warnings "-inexact-float,-register-all".
Local Open Scope Z_scope.

(** ** Configuration ([const config = {...}]) *)

Module config.
Definition particleCount : nat := 30.
Definition particleSpeed : float := 5%float.
Definition particleSize : float := 3%float.
Definition colors : list string :=
  [ "#ff5e57"; "#f3a683"; "#778beb"; "#f8a5c2";
    "#4ecdc4"; "#45b7d1"; "#f9ca24"; "#6c5ce7";
    "#a29bfe"; "#fd79a8"; "#fdcb6e"; "#e17055" ]%string.
Definition duration : Z := 1000.
Definition gravity : float := 0.3%float.
Definition throttleDelay : Z := 100.
End config.

(** The settling delay passed to [debounce] at the [resize] listener. *)
Definition resizeDelay : Z := 250.

(** ** Particles *)

Record Particle := mkParticle {
  x : float;
  y : float;
  vx : float;
  vy : float;
  color : option string;   (* [None] is JavaScript's [undefined] *)
  size : float;
  life : float;
  decay : float
}.

(** Field assignments [this.f = v]. *)
Definition set_x (v : float) (p : Particle) : Particle :=
  mkParticle v (y p) (vx p) (vy p) (color p) (size p) (life p) (decay p).
Definition set_y (v : float) (p : Particle) : Particle :=
  mkParticle (x p) v (vx p) (vy p) (color p) (size p) (life p) (decay p).
Definition set_vy (v : float) (p : Particle) : Particle :=
  mkParticle (x p) (y p) (vx p) v (color p) (size p) (life p) (decay p).
Definition set_life (v : float) (p : Particle) : Particle :=
  mkParticle (x p) (y p) (vx p) (vy p) (color p) (size p) v (decay p).

(** [Particle.update]: four assignments in source order, then [this.life > 0].
    The result pairs the returned boolean with the mutated particle. *)
Definition update (p : Particle) : bool * Particle :=
  let p := set_x (x p + vx p)%float p in
  let p := set_y (y p + vy p)%float p in
  let p := set_vy (vy p + config.gravity)%float p in
  let p := set_life (life p - decay p)%float p in
  ((0 <? life p)%float, p).

(** [Math.floor] of a number, as an integer; [None] for NaN and the
    infinities.  A finite double is [m * 2^e]; shifting a negative integer
    right rounds towards minus infinity, as [Math.floor] does. *)
Definition Math_floor (f : float) : option Z :=
  match Prim2SF f with
  | S754_zero _ => Some 0
  | S754_finite s m e => Some (Z.shiftl (cond_Zopp s (Z.pos m)) e)
  | S754_infinity _ | S754_nan => None
  end.

(** [a.length], a number. *)
Definition array_length {A : Type} (a : list A) : float :=
  of_uint63 (Uint63.of_Z (Z.of_nat (length a))).

(** Array read [a[i]] for a computed number [i]: [undefined] outside the
    array. *)
Definition array_get {A : Type} (a : list A) (i : option Z) : option A :=
  match i with
  | Some k => if 0 <=? k then nth_error a (Z.to_nat k) else None
  | None => None
  end.

(** ** Engine state: the module-level variables and the host objects they
    talk to. *)

Record state := mkState {
  particles : list Particle;          (* [let particles = []] *)
  animationId : option positive;      (* [let animationId = null] *)
  frameRequests : list positive;      (* host: pending [requestAnimationFrame(animate)] *)
  nextFrameId : positive;             (* host: next handle it returns *)
  randomCalls : nat;                  (* host: number of [Math.random()] calls so far *)
  surface : list Particle             (* canvas: circles painted since the last clear *)
}.

Definition set_particles (ps : list Particle) (s : state) : state :=
  mkState ps (animationId s) (frameRequests s) (nextFrameId s) (randomCalls s) (surface s).
Definition set_animationId (a : option positive) (s : state) : state :=
  mkState (particles s) a (frameRequests s) (nextFrameId s) (randomCalls s) (surface s).
Definition set_surface (c : list Particle) (s : state) : state :=
  mkState (particles s) (animationId s) (frameRequests s) (nextFrameId s) (randomCalls s) c.

(** The state after the script has run once: no particle, no frame requested. *)
Definition initial : state := mkState [] None [] 1%positive 0%nat [].

(** A small state monad for the code that threads the host state. *)
Definition M (A : Type) : Type := state -> A * state.
Definition ret {A : Type} (a : A) : M A := fun s => (a, s).
Definition bind {A B : Type} (m : M A) (k : A -> M B) : M B :=
  fun s => let (a, s') := m s in k a s'.
Notation "'let*' v ':=' m 'in' k" := (bind m (fun v => k))
  (at level 10, v name, m at level 100, k at level 200).

(** [requestAnimationFrame(animate)]: a fresh non-zero handle, the request
    queued at the host. *)
Definition requestAnimationFrame : M positive :=
  fun s =>
    let id := nextFrameId s in
    (id, mkState (particles s) (animationId s) (frameRequests s ++ [id])
                 (Pos.succ id) (randomCalls s) (surface s)).

(** [ctx.clearRect(0, 0, canvas.width, canvas.height)]. *)
Definition clearRect (s : state) : state := set_surface [] s.

(** [Particle.draw]: one filled circle at the particle's current position,
    radius, colour and opacity (its life). *)
Definition draw (p : Particle) (s : state) : state :=
  set_surface (surface s ++ [p]) s.

Section Engine.

(** [random n] is what the [n]-th call of [Math.random()] returns. *)
Variable random : nat -> float.

Definition Math_random : M float :=
  fun s =>
    (random (randomCalls s),
     mkState (particles s) (animationId s) (frameRequests s) (nextFrameId s)
             (S (randomCalls s)) (surface s)).

(** [new Particle(x, y)]: five draws, in source order. *)
Definition new_Particle (x0 y0 : float) : M Particle :=
  let* r1 := Math_random in
  let* r2 := Math_random in
  let* r3 := Math_random in
  let* r4 := Math_random in
  let* r5 := Math_random in
  ret (mkParticle x0 y0
         ((r1 - 0.5) * config.particleSpeed * 2)%float
         ((r2 - 0.5) * config.particleSpeed * 2)%float
         (array_get config.colors
            (Math_floor (r3 * array_length config.colors)%float))
         (r4 * config.particleSize + 1)%float
         1.0%float
         (r5 * 0.02 + 0.01)%float).

(** [createParticles]: the loop body run [n] more times. *)
Fixpoint createParticles_loop (n : nat) (x0 y0 : float) (s : state) : state :=
  match n with
  | O => s
  | S n' =>
      let (p, s1) := new_Particle x0 y0 s in
      createParticles_loop n' x0 y0 (set_particles (particles s1 ++ [p]) s1)
  end.

Definition createParticles (x0 y0 : float) (s : state) : state :=
  createParticles_loop config.particleCount x0 y0 s.

End Engine.

(** The [for] loop of [animate]: [rest] are the particles still to visit,
    [alive] is [aliveParticles]. *)
Fixpoint animate_loop (rest alive : list Particle) (s : state)
  : list Particle * state :=
  match rest with
  | [] => (alive, s)
  | particle :: rest' =>
      let (ok, particle') := update particle in
      if ok then animate_loop rest' (alive ++ [particle']) (draw particle' s)
      else animate_loop rest' alive s
  end.

(** [animate], throttled variant. *)
Definition animate (s : state) : state :=
  if (length (particles s) =? 0)%nat then set_animationId None s
  else
    let s := clearRect s in
    let (aliveParticles, s) := animate_loop (particles s) [] s in
    let s := set_particles aliveParticles s in
    if (0 <? length (particles s))%nat then
      let (id, s) := requestAnimationFrame s in
      set_animationId (Some id) s
    else set_animationId None s.

(** [Array.prototype.filter] with the effectful callback of the earlier
    variant: update, draw when alive, keep when alive. *)
Fixpoint filter_update (ps : list Particle) (s : state)
  : list Particle * state :=
  match ps with
  | [] => ([], s)
  | particle :: rest =>
      let (alive, particle') := update particle in
      let s := if alive then draw particle' s else s in
      let (kept, s) := filter_update rest s in
      (if alive then particle' :: kept else kept, s)
  end.

(** [animate], earlier variant (no emptiness test before clearing). *)
Definition animate_base (s : state) : state :=
  let s := clearRect s in
  let (kept, s) := filter_update (particles s) s in
  let s := set_particles kept s in
  if (0 <? length (particles s))%nat then
    let (id, s) := requestAnimationFrame s in
    set_animationId (Some id) s
  else set_animationId None s.

(** ** The part of the DOM the exclusion check reads *)

(** An element: its namespace (HTML or foreign, such as SVG), local name,
    classes and parent element. *)
Inductive Element := mkElement {
  htmlNamespace : bool;
  localName : string;
  classList : list string;
  parentElement : option Element
}.

Definition ascii_upper (c : ascii) : ascii :=
  let n := nat_of_ascii c in
  if ((97 <=? n) && (n <=? 122))%nat then ascii_of_nat (n - 32) else c.
Definition ascii_lower (c : ascii) : ascii :=
  let n := nat_of_ascii c in
  if ((65 <=? n) && (n <=? 90))%nat then ascii_of_nat (n + 32) else c.
Fixpoint string_map (f : ascii -> ascii) (s : string) : string :=
  match s with
  | EmptyString => EmptyString
  | String c r => String (f c) (string_map f r)
  end.

(** [element.tagName]: the name in ASCII upper case for an HTML element of
    an HTML document, the name as it is otherwise. *)
Definition tagName (e : Element) : string :=
  if htmlNamespace e then string_map ascii_upper (localName e) else localName e.

(** The selectors the script uses: a type selector or one class. *)
Inductive selector := TypeSelector (name : string) | ClassSelector (cls : string).

Definition parse_selector (s : string) : selector :=
  match s with
  | String "."%char cls => ClassSelector cls
  | _ => TypeSelector s
  end.

(** [element.matches(sel)]: a type selector is compared with the local name,
    in lower case for an HTML element; a class selector looks the class up. *)
Definition matches (sel : string) (e : Element) : bool :=
  match parse_selector sel with
  | TypeSelector name =>
      String.eqb (if htmlNamespace e then string_map ascii_lower name else name)
                 (localName e)
  | ClassSelector cls => existsb (String.eqb cls) (classList e)
  end.

(** [element.closest(sel)]: the element itself or its nearest ancestor that
    matches, [None] (JavaScript's [null]) when there is none. *)
Fixpoint closest (sel : string) (e : Element) : option Element :=
  if matches sel e then Some e
  else match e with
       | mkElement _ _ _ (Some parent) => closest sel parent
       | mkElement _ _ _ None => None
       end.

(** The element itself and its ancestors, nearest first. *)
Fixpoint ancestors_or_self (e : Element) : list Element :=
  e :: match e with
       | mkElement _ _ _ (Some parent) => ancestors_or_self parent
       | mkElement _ _ _ None => []
       end.

(** What [event.target] can be: an element, or another event target such as
    the document, which has neither [tagName] nor [closest]. [None] stands
    for [null] and [undefined]. *)
Inductive EventTarget := TargetElement (e : Element) | TargetOther.

Definition target_tagName (t : EventTarget) : option string :=
  match t with TargetElement e => Some (tagName e) | TargetOther => None end.

Definition excludeSelectors : list string :=
  [ "CODE"; "PRE"; "BUTTON"; "A"; "INPUT"; "TEXTAREA"; "SELECT" ]%string.
Definition excludeContainers : list string :=
  [ "pre"; "code"; "button"; ".copy-btn"; "a" ]%string.

(** [excludeSelectors.includes(target.tagName)]. *)
Definition includes (l : list string) (v : option string) : bool :=
  match v with
  | Some name => existsb (String.eqb name) l
  | None => false
  end.

(** [target.closest && target.closest(selector)], as a truth value. *)
Definition closest_guarded (t : EventTarget) (sel : string) : bool :=
  match t with
  | TargetElement e => match closest sel e with Some _ => true | None => false end
  | TargetOther => false
  end.

(** The [for ... of excludeContainers] loop with its early [return false]. *)
Fixpoint containers_loop (t : EventTarget) (sels : list string) : bool :=
  match sels with
  | [] => true
  | sel :: rest => if closest_guarded t sel then false else containers_loop t rest
  end.

(** [shouldCreateParticles], throttled variant. *)
Definition shouldCreateParticles (target : option EventTarget) : bool :=
  match target with
  | None => false
  | Some t =>
      if includes excludeSelectors (target_tagName t) then false
      else containers_loop t excludeContainers
  end.

(** The exclusion test written inline in the listeners of the earlier
    variant: [Some true] when the listener returns early, [None] when the
    test throws a [TypeError] (property read on [null], or [closest] called
    on a target that has none). *)
Definition excluded_base (target : option EventTarget) : option bool :=
  match target with
  | None => None
  | Some TargetOther => None
  | Some (TargetElement e) =>
      Some (String.eqb (tagName e) "CODE"
            || String.eqb (tagName e) "PRE"
            || match closest "pre" e with Some _ => true | None => false end
            || match closest "button" e with Some _ => true | None => false end
            || match closest ".copy-btn" e with Some _ => true | None => false end)
  end.

Section Handlers.

Variable random : nat -> float.

(** [handleParticleCreation], throttled variant. *)
Definition handleParticleCreation (x0 y0 : float) (target : option EventTarget)
    (s : state) : state :=
  if negb (shouldCreateParticles target) then s
  else
    let s := createParticles random x0 y0 s in
    match animationId s with
    | None =>
        let (id, s) := requestAnimationFrame s in
        set_animationId (Some id) s
    | Some _ => s
    end.

(** The body of the listeners of the earlier variant, after the touch point
    is known; [None] when the exclusion test throws. *)
Definition handle_base (x0 y0 : float) (target : option EventTarget)
    (s : state) : option state :=
  match excluded_base target with
  | None => None
  | Some true => Some s
  | Some false =>
      let s := createParticles random x0 y0 s in
      Some match animationId s with
           | None =>
               let (id, s) := requestAnimationFrame s in
               set_animationId (Some id) s
           | Some _ => s
           end
  end.


Record Touch := mkTouch { touchX : float; touchY : float }.

Record TouchEvent := mkTouchEvent {
  touches : list Touch;
  touchTarget : option EventTarget
}.


(** The function wrapped by [throttle] at the [touchstart] listener. *)
Definition onTouchStart (e : TouchEvent) (s : state) : state :=
  match touches e with
  | touch :: _ => handleParticleCreation (touchX touch) (touchY touch) (touchTarget e) s
  | [] => s
  end.

End Handlers.

(** The [visibilitychange] listener: its body is comments only. *)
Definition onVisibilityChange (hidden : bool) (s : state) : state :=
  if hidden && match animationId s with Some _ => true | None => false end
  then s else s.

(** One step of the host's frame loop: the oldest requested frame is taken
    off the queue and [animate] runs; nothing happens when none is requested. *)
Definition frame (s : state) : state :=
  match frameRequests s with
  | [] => s
  | _ :: rest =>
      animate (mkState (particles s) (animationId s) rest (nextFrameId s)
                       (randomCalls s) (surface s))
  end.

(** What can happen to the engine: a spawn request reaching
    [handleParticleCreation], or an animation frame. *)
Inductive action :=
| Spawn (x0 y0 : float) (target : option EventTarget)
| Frame.

Definition act (random : nat -> float) (s : state) (a : action) : state :=
  match a with
  | Spawn x0 y0 target => handleParticleCreation random x0 y0 target s
  | Frame => frame s
  end.

Definition run (random : nat -> float) (l : list action) (s : state) : state :=
  fold_left (act random) l s.

(** ** Timers: [throttle] and [debounce]

    A wrapped listener together with the host state it lives in: the
    closure variable [timeout], the host's timer table and clock, and the
    page state [inner] that the wrapped function [func] acts on.  [calls]
    records the arguments of every application of [func], oldest first. *)

Section Wrappers.

Context {Args St : Type}.

(** The wrapped function, as a transformer of the page state. *)
Variable func : Args -> St -> St.
(** What the host does to the page state when it dispatches the event,
    before any listener runs (a resize changes the window's dimensions). *)
Variable arrive : Args -> St -> St.
(** The delay in milliseconds. *)
Variable wait : Z.

Record wrapper := mkWrapper {
  timeout : option positive;           (* [let timeout], [None] for undefined/null *)
  timers : gmap positive (Z * Args);   (* host: pending timers, due time and captured [args] *)
  nextTimerId : positive;              (* host: next handle [setTimeout] returns *)
  now : Z;                             (* host: clock, milliseconds *)
  calls : list Args;
  inner : St
}.

Definition set_timeout (h : option positive) (w : wrapper) : wrapper :=
  mkWrapper h (timers w) (nextTimerId w) (now w) (calls w) (inner w).

(** [setTimeout(callback, wait)]: the callback, which captured [a], is due
    [wait] milliseconds from now; a fresh non-zero handle is returned. *)
Definition setTimeout (a : Args) (w : wrapper) : positive * wrapper :=
  let id := nextTimerId w in
  (id, mkWrapper (timeout w) (<[id := (now w + wait, a)]> (timers w))
                 (Pos.succ id) (now w) (calls w) (inner w)).

(** [clearTimeout(h)]: nothing happens for [undefined] or a handle that is
    no longer pending. *)
Definition clearTimeout (h : option positive) (w : wrapper) : wrapper :=
  match h with
  | Some id => mkWrapper (timeout w) (delete id (timers w)) (nextTimerId w)
                         (now w) (calls w) (inner w)
  | None => w
  end.

(** [func.apply(this, args)]. *)
Definition apply_func (a : Args) (w : wrapper) : wrapper :=
  mkWrapper (timeout w) (timers w) (nextTimerId w) (now w)
            (calls w ++ [a]) (func a (inner w)).

(** The function returned by [throttle(func, wait)]. *)
Definition throttled (a : Args) (w : wrapper) : wrapper :=
  match timeout w with
  | None => let (id, w) := setTimeout a w in set_timeout (Some id) w
  | Some _ => w
  end.

(** The arrow function [throttle] hands to [setTimeout]. *)
Definition throttle_callback (a : Args) (w : wrapper) : wrapper :=
  apply_func a (set_timeout None w).

(** The function returned by [debounce(func, wait)]. *)
Definition debounced (a : Args) (w : wrapper) : wrapper :=
  let w := clearTimeout (timeout w) w in
  let (id, w) := setTimeout a w in
  set_timeout (Some id) w.

(** The arrow function [debounce] hands to [setTimeout]. *)
Definition debounce_callback (a : Args) (w : wrapper) : wrapper :=
  apply_func a w.

(** What the host can do: dispatch an event to the listener, run a timer
    that is due, or let time pass. *)
Inductive event :=
| Dispatch (a : Args)
| Timer (id : positive)
| Elapse (dt : Z).

Section Step.

Variable listener : Args -> wrapper -> wrapper.
Variable callback : Args -> wrapper -> wrapper.

(** One host step; [None] when the host cannot take it: a timer that is not
    pending or not yet due, or time running backwards. *)
Definition step (w : wrapper) (ev : event) : option wrapper :=
  match ev with
  | Dispatch a =>
      Some (listener a (mkWrapper (timeout w) (timers w) (nextTimerId w) (now w)
                                  (calls w) (arrive a (inner w))))
  | Timer id =>
      match timers w !! id with
      | Some (due, a) =>
          if due <=? now w then
            Some (callback a (mkWrapper (timeout w) (delete id (timers w))
                                        (nextTimerId w) (now w) (calls w) (inner w)))
          else None
      | None => None
      end
  | Elapse dt =>
      if 0 <=? dt then
        Some (mkWrapper (timeout w) (timers w) (nextTimerId w) (now w + dt)
                        (calls w) (inner w))
      else None
  end.

Fixpoint steps (w : wrapper) (tr : list event) : option wrapper :=
  match tr with
  | [] => Some w
  | ev :: tr' =>
      match step w ev with
      | Some w' => steps w' tr'
      | None => None
      end
  end.

End Step.

Definition throttle_steps := steps throttled throttle_callback.
Definition debounce_steps := steps debounced debounce_callback.

(** Every event of [tr] is dispatched before time [limit], the clock being
    at [t] when [tr] starts. *)
Fixpoint dispatched_before (limit : Z) (t : Z) (tr : list event) : Prop :=
  match tr with
  | [] => True
  | Dispatch _ :: tr' => t < limit /\ dispatched_before limit t tr'
  | Timer _ :: tr' => dispatched_before limit t tr'
  | Elapse dt :: tr' => dispatched_before limit (t + dt) tr'
  end.

(** The arguments of the events dispatched in [tr], in order. *)
Fixpoint dispatched (tr : list event) : list Args :=
  match tr with
  | [] => []
  | Dispatch a :: tr' => a :: dispatched tr'
  | _ :: tr' => dispatched tr'
  end.

(** The wrapper owns every pending timer of its table, through [timeout]. *)
Definition owns_timers (w : wrapper) : Prop :=
  forall id, is_Some (timers w !! id) -> timeout w = Some id.

End Wrappers.

Arguments wrapper : clear implicits.
Arguments event : clear implicits.

(** ** The render surface and the window *)

Record viewport := mkViewport {
  innerWidth : Z;      (* [window.innerWidth] *)
  innerHeight : Z;     (* [window.innerHeight] *)
  canvasWidth : Z;     (* [canvas.width] *)
  canvasHeight : Z     (* [canvas.height] *)
}.

(** [resizeCanvas]. *)
Definition resizeCanvas (v : viewport) : viewport :=
  mkViewport (innerWidth v) (innerHeight v) (innerWidth v) (innerHeight v).

(** A resize event: the window has taken these dimensions. *)
Record ResizeEvent := mkResizeEvent { newWidth : Z; newHeight : Z }.

Definition window_resized (e : ResizeEvent) (v : viewport) : viewport :=
  mkViewport (newWidth e) (newHeight e) (canvasWidth v) (canvasHeight v).

(** [window.addEventListener('resize', debounce(resizeCanvas, 250))]. *)
Definition resize_steps :=
  debounce_steps (fun (_ : ResizeEvent) => resizeCanvas) window_resized resizeDelay.


(** ** Definitions used to state the properties *)

(** The particles that survive a tick: those whose [update] returned [true],
    as [update] left them, in their order. *)
Definition survivors (ps : list Particle) : list Particle :=
  map (fun p => snd (update p)) (List.filter (fun p => fst (update p)) ps).

(** The exclusion set as the specification lists it (a link is an [a]
    element). *)
Definition spec_exclusion_set : list string :=
  [ "code"; "pre"; "button"; "a"; "input"; "textarea"; "select"; ".copy-btn" ]%string.

(** The element or one of its ancestors matches one of the selectors. *)
Definition within (sels : list string) (e : Element) : bool :=
  existsb (fun sel => existsb (matches sel) (ancestors_or_self e)) sels.

(** The element itself matches one of the selectors. *)
Definition is_one_of (sels : list string) (e : Element) : bool :=
  existsb (fun sel => matches sel e) sels.

(** Sample elements: a [select] holding an [option], a [button] holding a
    [span], a [pre] holding a [code], a plain paragraph. *)
Definition select_element : Element := mkElement true "select" [] None.
Definition option_element : Element := mkElement true "option" [] (Some select_element).
Definition button_element : Element := mkElement true "button" ["btn"%string] None.
Definition span_in_button : Element := mkElement true "span" [] (Some button_element).
Definition pre_element : Element := mkElement true "pre" [] None.
Definition code_in_pre : Element := mkElement true "code" [] (Some pre_element).
Definition paragraph : Element := mkElement true "p" [] None.

(** A sample outcome sequence for [Math.random]. *)
Definition half : nat -> float := fun _ => 0.5%float.

(** What the constructor fixes of a new particle, whatever is drawn. *)
Definition fresh_at (random : nat -> float) (x0 y0 : float) (p : Particle) : Prop :=
  x p = x0 /\ y p = y0 /\ life p = 1%float /\
  exists k, decay p = (random k * 0.02 + 0.01)%float.

(** [Math.random] returns numbers of the interval from 0 (included) to 1
    (excluded). *)
Definition unit_interval (random : nat -> float) : Prop :=
  forall n, (0 <=? random n)%float = true /\ (random n <? 1)%float = true.

(** What holds of every particle of the active set: its life is positive
    and at most 1, its decay rate at least 0.01. *)
Definition in_flight (p : Particle) : Prop :=
  (0 <? life p)%float = true /\ (life p <=? 1)%float = true /\
  (0.01 <=? decay p)%float = true.

(** The particle after [k] calls of [update]. *)
Definition updates (k : nat) (p : Particle) : Particle :=
  Nat.iter k (fun q => snd (update q)) p.

(** The life left after [k] updates at the smallest decay rate, 0.01. *)
Definition life_bound (k : nat) : float :=
  Nat.iter k (fun l => (l - 0.01)%float) 1%float.

(** The frame loop is idle (nothing requested, no particle) or running (one
    frame requested, some particle in flight). *)
Definition idle (s : state) : Prop :=
  animationId s = None /\ frameRequests s = [] /\ particles s = [].
Definition running (s : state) : Prop :=
  exists id, animationId s = Some id /\ frameRequests s = [id] /\ particles s <> [].

(** Every particle of the active set has at most the life left after [k]
    updates at the smallest decay rate. *)
Definition aged (k : nat) (s : state) : Prop :=
  Forall (fun p => (life p <=? life_bound k)%float = true /\
                   (0.01 <=? decay p)%float = true) (particles s).

(** ** Numbers: the value of a binary64 float as an integer

    Every finite binary64 value is an integer multiple of [2^-1074].
    [SFZ] gives that integer; the infinities are placed at [2^2098] in
    absolute value, above every finite value.  [round64] is rounding to
    nearest, ties to even, on these integers: what [SpecFloat]'s
    [binary_normalize] computes, written with division and remainder. *)

(** The smallest exponent of binary64. *)
Definition emin64 : Z := -1074.

(** [X / 2^n] rounded to the nearest integer, ties to even. *)
Definition rne_div (X n : Z) : Z :=
  let q := X / 2 ^ n in
  match 2 * (X mod 2 ^ n) ?= 2 ^ n with
  | Lt => q
  | Eq => if Z.even q then q else q + 1
  | Gt => q + 1
  end.

(** Rounding of a positive value: all but the leading 53 binary digits
    are rounded away; the result overflows to infinity at [2^2098]. *)
Definition round_pos (X : Z) : Z :=
  let n := Z.max 0 (Z.log2 X + 1 - 53) in
  Z.min (rne_div X n * 2 ^ n) (2 ^ 2098).

(** Rounding, symmetric in the sign. *)
Definition round64 (X : Z) : Z :=
  match X with
  | Z0 => 0
  | Zpos _ => round_pos X
  | Zneg p => - round_pos (Zpos p)
  end.

(** The value of a float in units of [2^-1074]. *)
Definition SFZ (f : spec_float) : Z :=
  match f with
  | S754_zero _ => 0
  | S754_finite s m e => cond_Zopp s (Zpos m * 2 ^ (e - emin64))
  | S754_infinity s => cond_Zopp s (2 ^ 2098)
  | S754_nan => 0
  end.

(** [mrs] is what [k] right shifts of the exact mantissa [m] leave: the
    quotient with the round and sticky bits of the remainder [rem]. *)
Definition shr_state (m k : Z) (mrs : shr_record) : Prop :=
  exists rem,
    m = shr_m mrs * 2 ^ k + rem /\ 0 <= rem < 2 ^ k /\ 0 <= shr_m mrs /\
    (shr_r mrs = true <-> 2 ^ k <= 2 * rem) /\
    (shr_s mrs = true <-> rem <> 0 /\ 2 * rem <> 2 ^ k).

(** Zero or a finite non-zero value. *)
Definition finiteSF (f : spec_float) : bool :=
  match f with
  | S754_zero _ | S754_finite _ _ _ => true
  | S754_infinity _ | S754_nan => false
  end.

(** The value of a primitive float. *)
Definition F2Z (v : float) : Z := SFZ (Prim2SF v).

(** A number that is neither NaN nor infinite. *)
Definition finite (v : float) : Prop := finiteSF (Prim2SF v) = true.

(** ** Invariants of the wrappers during a burst

    [w0] is the state in which the burst starts, [T] the end of its window,
    [B] the events of the burst. *)

Section WrapperInvariants.

Context {Args St : Type}.
Variable func : Args -> St -> St.

(** The timer with arguments [a] was pending when the burst started. *)
Definition pending_in (w0 : wrapper Args St) (a : Args) : Prop :=
  exists id due, timers w0 !! id = Some (due, a).

(** The page state after the applications [l] of [func]. *)
Definition applied (l : list Args) (s : St) : St :=
  fold_left (fun s a => func a s) l s.

(** Where a throttled listener can be during a burst: [old] are the
    applications of [func] for a timer that was pending at the start,
    [fresh] those for events of the burst. *)
Definition throttle_phase (w0 : wrapper Args St) (T : Z) (B : list Args)
    (old fresh : list Args) (w : wrapper Args St) : Prop :=
  (* nothing has happened to the timers yet *)
  (old = [] /\ fresh = [] /\ timers w = timers w0 /\ timeout w = timeout w0) \/
  (* no timer is pending *)
  (fresh = [] /\ timers w = empty /\ timeout w = None) \/
  (* the timer armed by an event of the burst is pending *)
  (fresh = [] /\ exists id due a,
      timers w = {[ id := (due, a) ]} /\ timeout w = Some id /\
      T <= due /\ In a B) \/
  (* that timer has run *)
  (length fresh = 1%nat /\ timers w = empty /\ timeout w = None /\ T <= now w).

Definition throttle_inv (w0 : wrapper Args St) (T : Z) (B : list Args)
    (w : wrapper Args St) : Prop :=
  owns_timers w /\ now w0 <= now w /\
  exists old fresh,
    calls w = calls w0 ++ old ++ fresh /\
    inner w = applied (old ++ fresh) (inner w0) /\
    Forall (pending_in w0) old /\ (length old <= 1)%nat /\
    Forall (fun a => In a B) fresh /\
    throttle_phase w0 T B old fresh w.

(** Where a debounced listener can be once the first event of the burst has
    been dispatched: [D] are the events dispatched so far, [a] the latest. *)
Definition debounce_inv (arrive : Args -> St -> St)
    (w0 : wrapper Args St) (T : Z) (D : list Args) (a : Args)
    (w : wrapper Args St) : Prop :=
  now w0 <= now w /\
  ((* the timer of the latest event is pending *)
   (calls w = calls w0 /\
    inner w = fold_left (fun s b => arrive b s) (D ++ [a]) (inner w0) /\
    exists id due,
      timers w = {[ id := (due, a) ]} /\ timeout w = Some id /\ T <= due) \/
   (* it has run *)
   (calls w = calls w0 ++ [a] /\
    inner w = func a (fold_left (fun s b => arrive b s) (D ++ [a]) (inner w0)) /\
    timers w = empty /\ T <= now w)).

End WrapperInvariants.

(** ** The earlier variant as a whole, and measures used below *)

(** One step of the host's frame loop for the earlier variant. *)
Definition frame_base (s : state) : state :=
  match frameRequests s with
  | [] => s
  | _ :: rest =>
      animate_base (mkState (particles s) (animationId s) rest (nextFrameId s)
                            (randomCalls s) (surface s))
  end.

(** An action on the engine of the earlier variant: a listener that throws
    leaves the module state as it was. *)
Definition act_base (random : nat -> float) (s : state) (a : action) : state :=
  match a with
  | Spawn x0 y0 target =>
      match handle_base random x0 y0 target s with
      | Some s' => s'
      | None => s
      end
  | Frame => frame_base s
  end.

Definition run_base (random : nat -> float) (l : list action) (s : state) : state :=
  fold_left (act_base random) l s.

(** The two variants treat the target of a spawn request alike: both spawn,
    or neither does (the earlier one by returning early or by throwing). *)
Definition same_verdict (a : action) : Prop :=
  match a with
  | Spawn _ _ target =>
      match excluded_base target with
      | Some rejected => shouldCreateParticles target = negb rejected
      | None => shouldCreateParticles target = false
      end
  | Frame => True
  end.

(** The number of spawn requests among the actions. *)
Fixpoint spawn_requests (l : list action) : nat :=
  match l with
  | [] => 0
  | Spawn _ _ _ :: l' => S (spawn_requests l')
  | Frame :: l' => spawn_requests l'
  end.

(** Every event of [tr] is dispatched before [deadline], which each
    dispatch moves to [wait] milliseconds after itself: no event comes
    [wait] milliseconds or more after the one before it.  The clock is at
    [t] when [tr] starts. *)
Fixpoint each_within {Args : Type} (wait deadline t : Z) (tr : list (event Args))
  : Prop :=
  match tr with
  | [] => True
  | Dispatch _ :: tr' => t < deadline /\ each_within wait (t + wait) t tr'
  | Timer _ :: tr' => each_within wait deadline t tr'
  | Elapse dt :: tr' => each_within wait deadline (t + dt) tr'
  end.

(** A sample wrapper state over numbers: nothing pending, clock at 0; the
    wrapped function adds its argument to the page state. *)
Definition sample_wrapper : wrapper Z Z := mkWrapper None empty 1%positive 0 [] 0.
Definition sample_func (a s : Z) : Z := a + s.
Definition sample_arrive (a s : Z) : Z := s.

(** A sample wrapper state with one timer pending, due at 100 and holding
    the argument 5; the clock is at 100. *)
Definition sample_pending : wrapper Z Z :=
  mkWrapper (Some 1%positive) {[ 1%positive := (100, 5) ]} 2%positive 100 [] 0.

(** Rounding of [M / 2^k], a value given in units of [2^-(1074+k)], to
    binary64: the value of the product of two floats is such a number, with
    [k = 1074]. *)
Definition round_pos_at (k M : Z) : Z :=
  let n := Z.max k (Z.log2 M + 1 - 53) in
  Z.min (rne_div M n * 2 ^ (n - k)) (2 ^ 2098).

Definition round64_at (k M : Z) : Z :=
  match M with
  | Z0 => 0
  | Zpos _ => round_pos_at k M
  | Zneg p => - round_pos_at k (Zpos p)
  end.

(** The largest number below 1, [1 - 2^-53]. *)
Definition below_one : float := 0x1.fffffffffffffp-1%float.

(** [v] lies between [lo] and [hi], ends included. *)
Definition between (lo v hi : float) : Prop :=
  (lo <=? v)%float = true /\ (v <=? hi)%float = true.

(** The ranges of what the constructor draws and [update] leaves alone:
    horizontal velocity, radius, decay rate and colour. *)
Definition in_range (p : Particle) : Prop :=
  (-5 <=? vx p)%float = true /\ (vx p <? 5)%float = true /\
  (1 <=? size p)%float = true /\ (size p <? 4)%float = true /\
  between 0.01 (decay p) 0.03 /\
  exists c, color p = Some c /\ In c config.colors.

(** A circle as [draw] paints it can be seen: its opacity (the life) is
    positive and at most 1, its radius lies between 1 and 4, its fill style
    is a colour of the palette. *)
Definition visible (p : Particle) : Prop :=
  (0 <? life p)%float = true /\ (life p <=? 1)%float = true /\
  (1 <=? size p)%float = true /\ (size p <? 4)%float = true /\
  exists c, color p = Some c /\ In c config.colors.

(** [p] is what [new Particle(x0, y0)] returns at some moment. *)
Definition built_at (random : nat -> float) (x0 y0 : float) (p : Particle) : Prop :=
  exists s, p = fst (new_Particle random x0 y0 s).

(** The life left after [k] updates at the largest decay rate, 0.03. *)
Definition life_floor (k : nat) : float :=
  Nat.iter k (fun l => (l - 0.03)%float) 1%float.

(** [document.addEventListener('touchstart', throttle(..., config.throttleDelay))]. *)
Definition touch_steps (random : nat -> float) :=
  throttle_steps (onTouchStart random) (fun _ s => s) config.throttleDelay.

(** The page once the script has run: [resizeCanvas()] has been called and
    the debounced [resize] listener is registered, no timer pending. *)
Definition resize_loaded (v : viewport) : wrapper ResizeEvent viewport :=
  mkWrapper None empty 1%positive 0 [] (resizeCanvas v).

(** The canvas has the dimensions of the window. *)
Definition in_sync (v : viewport) : Prop :=
  canvasWidth v = innerWidth v /\ canvasHeight v = innerHeight v.

(** * Properties *)

(** ** Binary64 arithmetic on integer values

    Digits *)
Lemma digits2_pos_size (m : positive) : digits2_pos m = Pos.size m.
Proof. induction m; cbn; congruence. Qed.

Lemma digits2_pos_log2 (m : positive) : Zpos (digits2_pos m) = Z.log2 (Zpos m) + 1.
Proof.
  rewrite digits2_pos_size. destruct m; cbn; try lia.
Qed.

Lemma digits2_bounds (m : positive) :
  2 ^ (Zpos (digits2_pos m) - 1) <= Zpos m < 2 ^ Zpos (digits2_pos m).
Proof.
  rewrite digits2_pos_log2.
  pose proof (Z.log2_spec (Zpos m) ltac:(lia)) as H.
  replace (Z.log2 (Z.pos m) + 1 - 1) with (Z.log2 (Zpos m)) by lia.
  replace (Z.log2 (Z.pos m) + 1) with (Z.succ (Z.log2 (Zpos m))) by lia. exact H.
Qed.

(** Shifting right *)

Lemma shr_1_state (m k : Z) (mrs : shr_record) :
  0 <= k -> shr_state m k mrs -> shr_state m (k + 1) (shr_1 mrs).
Proof.
  intros Hk (rem & Hm & Hrem & Hq & Hr & Hs).
  destruct mrs as [q r s]. cbn [shr_m shr_r shr_s] in *.
  assert (HP : 0 < 2 ^ k) by (apply Z.pow_pos_nonneg; lia).
  unfold shr_state. rewrite Z.pow_add_r, Z.pow_1_r by lia.
  set (P := 2 ^ k) in *. clearbody P.
  assert (Hrs : orb r s = true <-> rem <> 0).
  { rewrite orb_true_iff, Hr, Hs. lia. }
  destruct q as [|[p|p|]|p]; try lia; cbn [shr_1 shr_m shr_r shr_s].
  - exists rem. cbn. rewrite Hrs. repeat split; try lia; intros; try discriminate; lia.
  - exists (P + rem). cbn [shr_m shr_r shr_s]. rewrite Hrs.
    repeat split; try lia.
  - exists rem. cbn [shr_m shr_r shr_s]. rewrite Hrs.
    repeat split; try lia; intros; try discriminate; lia.
  - exists (P + rem). cbn [shr_m shr_r shr_s]. rewrite Hrs.
    repeat split; try lia.
Qed.

Lemma iter_pos_shr_state (p : positive) :
  forall m k mrs, 0 <= k -> shr_state m k mrs ->
    shr_state m (k + Zpos p) (SpecFloat.iter_pos shr_1 p mrs).
Proof.
  induction p as [p IH | p IH |]; intros m k mrs Hk H; cbn [SpecFloat.iter_pos].
  - replace (k + Zpos p~1) with (k + 1 + Zpos p + Zpos p) by lia.
    apply IH; [lia|]. apply IH; [lia|]. apply shr_1_state; assumption.
  - replace (k + Zpos p~0) with (k + Zpos p + Zpos p) by lia.
    apply IH; [lia|]. apply IH; assumption.
  - apply shr_1_state; assumption.
Qed.

Lemma shr_state_exact (m : Z) : 0 <= m -> shr_state m 0 (Build_shr_record m false false).
Proof.
  intros Hm. exists 0. cbn. repeat split; try lia; intros; try discriminate; lia.
Qed.

Lemma shr_state_round (m k : Z) (mrs : shr_record) :
  0 <= k -> shr_state m k mrs ->
  round_nearest_even (shr_m mrs) (loc_of_shr_record mrs) = rne_div m k.
Proof.
  intros Hk (rem & Hm & Hrem & Hq & Hr & Hs).
  assert (HP : 0 < 2 ^ k) by (apply Z.pow_pos_nonneg; lia).
  unfold rne_div.
  assert (Hdiv : m / 2 ^ k = shr_m mrs).
  { symmetry. apply (Z.div_unique m (2 ^ k) (shr_m mrs) rem); [lia|lia]. }
  assert (Hmod : m mod 2 ^ k = rem).
  { symmetry. apply (Z.mod_unique m (2 ^ k) (shr_m mrs) rem); [lia|lia]. }
  rewrite Hdiv, Hmod.
  destruct mrs as [q r s]. cbn [shr_m shr_r shr_s loc_of_shr_record] in *.
  destruct (Z.compare_spec (2 * rem) (2 ^ k)) as [Hc|Hc|Hc];
    destruct r, s; cbn [round_nearest_even]; try reflexivity;
    try (exfalso; intuition (try discriminate; lia)).
Qed.

Lemma fexp64 (e : Z) : fexp prec emax e = Z.max (e - 53) (-1074).
Proof. reflexivity. Qed.

Lemma shr_exact_state (m e n : Z) :
  0 <= m ->
  snd (shr (Build_shr_record m false false) e n) = e + Z.max 0 n /\
  shr_state m (Z.max 0 n) (fst (shr (Build_shr_record m false false) e n)).
Proof.
  intros Hm. destruct n as [|p|p]; cbn [shr fst snd].
  - rewrite Z.add_0_r. split; [reflexivity | apply shr_state_exact; exact Hm].
  - replace (Z.max 0 (Zpos p)) with (Zpos p) by lia. split; [reflexivity|].
    apply (iter_pos_shr_state p m 0); [lia | apply shr_state_exact; exact Hm].
  - replace (Z.max 0 (Zneg p)) with 0 by lia. rewrite Z.add_0_r.
    split; [reflexivity | apply shr_state_exact; exact Hm].
Qed.

Lemma shr_state_div (m k : Z) (mrs : shr_record) :
  0 <= k -> shr_state m k mrs -> shr_m mrs = m / 2 ^ k.
Proof.
  intros Hk (rem & Hm & Hrem & _).
  apply (Z.div_unique m (2 ^ k) (shr_m mrs) rem); lia.
Qed.

Lemma rne_div_0 (X : Z) : rne_div X 0 = X.
Proof.
  unfold rne_div. rewrite Z.pow_0_r, Z.div_1_r, Z.mod_1_r. reflexivity.
Qed.

Lemma rne_div_bounds (X n : Z) :
  0 <= n -> X / 2 ^ n <= rne_div X n <= X / 2 ^ n + 1.
Proof.
  intros Hn. unfold rne_div.
  destruct (2 * (X mod 2 ^ n) ?= 2 ^ n); [destruct (Z.even _)| |]; lia.
Qed.

Lemma rne_div_scale (m n k : Z) :
  0 <= n -> 0 <= k -> rne_div (m * 2 ^ k) (n + k) = rne_div m n.
Proof.
  intros Hn Hk. unfold rne_div.
  assert (HP : 0 < 2 ^ k) by (apply Z.pow_pos_nonneg; lia).
  assert (HQ : 0 < 2 ^ n) by (apply Z.pow_pos_nonneg; lia).
  rewrite Z.pow_add_r by lia.
  rewrite Z.div_mul_cancel_r by lia.
  rewrite Z.mul_mod_distr_r by lia.
  replace (2 * (m mod 2 ^ n * 2 ^ k)) with ((2 * (m mod 2 ^ n)) * 2 ^ k) by ring.
  set (a := 2 * (m mod 2 ^ n)). set (b := 2 ^ n) in *.
  destruct (Z.compare_spec a b) as [H|H|H];
    destruct (Z.compare_spec (a * 2 ^ k) (b * 2 ^ k)) as [H'|H'|H'];
    try reflexivity; exfalso; nia.
Qed.

Lemma pow2_pos (k : Z) : 0 <= k -> 0 < 2 ^ k.
Proof. intros. apply Z.pow_pos_nonneg; lia. Qed.

Lemma Zdigits2_log2 (q : Z) : 0 < q -> Zdigits2 q = Z.log2 q + 1.
Proof. destruct q as [|p|p]; try lia. intros _. apply digits2_pos_log2. Qed.

Lemma scaled_digits (mx : positive) (ex : Z) :
  -1074 <= ex ->
  Z.max 0 (Z.log2 (Zpos mx * 2 ^ (ex + 1074)) + 1 - 53)
    = fexp prec emax (Zpos (digits2_pos mx) + ex) + 1074.
Proof.
  intros He. rewrite Z.log2_mul_pow2 by lia.
  rewrite fexp64, digits2_pos_log2. lia.
Qed.

Lemma binary_round_aux_spec (sx : bool) (mx : positive) (ex : Z) :
  -1074 <= ex ->
  ex <= fexp prec emax (Zpos (digits2_pos mx) + ex) ->
  binary_round_aux prec emax sx (Zpos mx) ex loc_Exact <> S754_nan /\
  SFZ (binary_round_aux prec emax sx (Zpos mx) ex loc_Exact)
    = cond_Zopp sx (round_pos (Zpos mx * 2 ^ (ex + 1074))).
Proof.
  intros Hlo Hle.
  unfold round_pos. rewrite scaled_digits by exact Hlo.
  unfold binary_round_aux, shr_fexp. cbn [Zdigits2 shr_record_of_loc].
  pose proof (digits2_bounds mx) as Hd.
  pose proof (fexp64 (Zpos (digits2_pos mx) + ex)) as He0.
  set (d := Zpos (digits2_pos mx)) in *.
  set (e0 := fexp prec emax (d + ex)) in *.
  assert (Hdd : Zdigits2 (Zpos mx) = d) by reflexivity.
  assert (Hdpos : 0 < d) by (unfold d; lia).
  clearbody e0. clearbody d.
  replace (e0 + 1074) with ((e0 - ex) + (ex + 1074)) by lia.
  rewrite rne_div_scale by lia.
  destruct (shr_exact_state (Zpos mx) ex (e0 - ex) ltac:(lia)) as [He1 Hst1].
  destruct (shr (Build_shr_record (Zpos mx) false false) ex (e0 - ex)) as [mrs1 e1].
  cbn [fst snd] in He1, Hst1.
  replace (Z.max 0 (e0 - ex)) with (e0 - ex) in * by lia.
  assert (He1' : e1 = e0) by lia. clear He1. subst e1.
  rewrite (shr_state_round (Zpos mx) (e0 - ex) mrs1) by (lia || exact Hst1).
  pose proof (rne_div_bounds (Zpos mx) (e0 - ex) ltac:(lia)) as Hq'.
  set (q' := rne_div (Zpos mx) (e0 - ex)) in *.
  destruct (Z.eq_dec e0 (-1074)) as [Hsub | Hnorm].
  - (* subnormal: nothing is shifted out *)
    assert (ex = -1074) by lia. subst ex.
    assert (Hd53 : d <= 53) by lia. clear He0. subst e0.
    assert (Hq0 : q' = Zpos mx).
    { unfold q'. change (-1074 - -1074) with 0. apply rne_div_0. }
    clearbody q'. subst q'. clear Hq'.
    rewrite Hdd.
    assert (Hf : fexp prec emax (d + -1074) - -1074 = 0) by (rewrite fexp64; lia).
    rewrite Hf. cbn [shr shr_m].
    change (-1074 <=? emax - prec) with true. cbn iota.
    split; [discriminate|].
    cbn [SFZ]. unfold emin64. f_equal.
    change (2 ^ (-1074 - -1074)) with 1. change (2 ^ (0 + (-1074 + 1074))) with 1.
    rewrite Z.min_l; [reflexivity|].
    assert (Zpos mx < 2 ^ 53).
    { eapply Z.lt_le_trans; [apply Hd|]. apply Z.pow_le_mono_r; lia. }
    assert (2 ^ 53 <= 2 ^ 2098) by (apply Z.pow_le_mono_r; lia).
    lia.
  - (* normal *)
    assert (Hn1 : e0 - ex = d - 53) by lia.
    assert (Hq : 2 ^ 52 <= Zpos mx / 2 ^ (e0 - ex) < 2 ^ 53).
    { rewrite Hn1. assert (0 <= d - 53) by lia.
      pose proof (pow2_pos (d - 53) ltac:(lia)).
      split.
      - apply Z.div_le_lower_bound; [lia|].
        rewrite Z.mul_comm, <- Z.pow_add_r by lia.
        replace (52 + (d - 53)) with (d - 1) by lia. apply Hd.
      - apply Z.div_lt_upper_bound; [lia|].
        rewrite <- Z.pow_add_r by lia.
        replace (d - 53 + 53) with d by lia. apply Hd. }
    assert (Hq'r : 2 ^ 52 <= q' <= 2 ^ 53) by lia.
    assert (Hpos : 0 < q') by (pose proof (pow2_pos 52); lia).
    destruct (Z.eq_dec q' (2 ^ 53)) as [Htop | Hlow].
    + (* the mantissa overflowed to 2^53 *)
      rewrite Htop. change (Zdigits2 (2 ^ 53)) with 54.
      assert (Hf : fexp prec emax (54 + e0) - e0 = 1) by (rewrite fexp64; lia).
      rewrite Hf. change (2 ^ 53) with 9007199254740992.
      cbn [shr SpecFloat.iter_pos shr_1 shr_m].
      assert (Hval : 9007199254740992 * 2 ^ (e0 - ex + (ex + 1074))
                     = 2 ^ (e0 + 1127)).
      { change 9007199254740992 with (2 ^ 53). rewrite <- Z.pow_add_r by lia.
        f_equal. lia. }
      rewrite Hval.
      destruct (e0 + 1 <=? emax - prec) eqn:Hov.
      * split; [discriminate|]. apply Z.leb_le in Hov. unfold emax, prec in Hov.
        cbn [SFZ]. f_equal. unfold emin64.
        change 4503599627370496 with (2 ^ 52). rewrite <- Z.pow_add_r by lia.
        replace (52 + (e0 + 1 - -1074)) with (e0 + 1127) by lia.
        rewrite Z.min_l; [reflexivity|]. apply Z.pow_le_mono_r; lia.
      * split; [discriminate|]. apply Z.leb_gt in Hov. unfold emax, prec in Hov.
        cbn [SFZ]. f_equal. rewrite Z.min_r; [reflexivity|].
        apply Z.pow_le_mono_r; lia.
    + assert (Hdig : Zdigits2 q' = 53).
      { rewrite Zdigits2_log2 by exact Hpos.
        rewrite (Z.log2_unique q' 52); lia. }
      rewrite Hdig.
      assert (Hf : fexp prec emax (53 + e0) - e0 = 0) by (rewrite fexp64; lia).
      rewrite Hf. cbn [shr shr_m].
      destruct q' as [|p'|p'] eqn:Eq'; try lia.
      destruct (e0 <=? emax - prec) eqn:Hov.
      * split; [discriminate|]. apply Z.leb_le in Hov. unfold emax, prec in Hov.
        cbn [SFZ]. f_equal. unfold emin64.
        replace (e0 - -1074) with (e0 - ex + (ex + 1074)) by lia.
        rewrite Z.min_l; [reflexivity|].
        apply Z.lt_le_incl.
        apply Z.lt_le_trans with (2 ^ 53 * 2 ^ (e0 - ex + (ex + 1074))).
        -- apply Z.mul_lt_mono_pos_r; [apply pow2_pos; lia | lia].
        -- rewrite <- Z.pow_add_r by lia. apply Z.pow_le_mono_r; lia.
      * split; [discriminate|]. apply Z.leb_gt in Hov. unfold emax, prec in Hov.
        cbn [SFZ]. f_equal. rewrite Z.min_r; [reflexivity|].
        apply Z.le_trans with (2 ^ 52 * 2 ^ (e0 - ex + (ex + 1074))).
        -- rewrite <- Z.pow_add_r by lia. apply Z.pow_le_mono_r; lia.
        -- apply Z.mul_le_mono_nonneg_r; [apply Z.lt_le_incl, pow2_pos; lia | lia].
Qed.

Lemma shl_align_spec (mx : positive) (ex ex' : Z) :
  snd (shl_align mx ex ex') = Z.min ex ex' /\
  Zpos (fst (shl_align mx ex ex')) = Zpos mx * 2 ^ (ex - Z.min ex ex').
Proof.
  unfold shl_align. destruct (ex' - ex) as [|p|p] eqn:Hd; cbn [fst snd].
  - replace (Z.min ex ex') with ex by lia. rewrite Z.sub_diag. split; lia.
  - replace (Z.min ex ex') with ex by lia. rewrite Z.sub_diag. split; lia.
  - replace (Z.min ex ex') with ex' by lia. split; [reflexivity|].
    replace (ex - ex') with (Zpos p) by lia.
    pose proof (shift_pos_correct p mx) as H. unfold shift_pos in H.
    rewrite H. change (Z.pow_pos 2 p) with (2 ^ Zpos p). ring.
Qed.

(** A finite float in canonical form: at most 53 digits, the exponent at
    least -1074, and 53 digits whenever the exponent is above -1074. *)
Lemma canonical_bounds (m : positive) (e : Z) :
  bounded prec emax m e = true ->
  -1074 <= e <= 971 /\ Zpos m < 2 ^ 53 /\ (-1074 < e -> 2 ^ 52 <= Zpos m) /\
  fexp prec emax (Zpos (digits2_pos m) + e) = e.
Proof.
  unfold bounded, canonical_mantissa. intros H.
  apply andb_prop in H. destruct H as [Hc Hb].
  apply Z.eqb_eq in Hc. apply Z.leb_le in Hb. unfold emax, prec in Hb.
  pose proof Hc as Hc'. rewrite fexp64 in Hc'.
  pose proof (digits2_bounds m) as Hd.
  set (d := Zpos (digits2_pos m)) in *. clearbody d.
  split; [lia|]. split; [|split].
  - eapply Z.lt_le_trans; [apply Hd|]. apply Z.pow_le_mono_r; lia.
  - intros He. assert (d = 53) by lia. subst d. apply Hd.
  - exact Hc.
Qed.

Lemma round_pos_exact (m : positive) (e : Z) :
  bounded prec emax m e = true ->
  round_pos (Zpos m * 2 ^ (e + 1074)) = Zpos m * 2 ^ (e + 1074).
Proof.
  intros Hb. destruct (canonical_bounds m e Hb) as (He & Hm & _ & Hc).
  unfold round_pos. rewrite scaled_digits by lia. rewrite Hc.
  replace (e + 1074) with (0 + (e + 1074)) at 2 by lia.
  rewrite rne_div_scale, rne_div_0 by lia.
  apply Z.min_l. apply Z.lt_le_incl.
  apply Z.lt_le_trans with (2 ^ 53 * 2 ^ (e + 1074)).
  - apply Z.mul_lt_mono_pos_r; [apply pow2_pos; lia | exact Hm].
  - rewrite <- Z.pow_add_r by lia. apply Z.pow_le_mono_r; lia.
Qed.

Lemma binary_round_spec (s : bool) (m : positive) (e : Z) :
  -1074 <= e ->
  binary_round prec emax s m e <> S754_nan /\
  SFZ (binary_round prec emax s m e) = cond_Zopp s (round_pos (Zpos m * 2 ^ (e + 1074))).
Proof.
  intros He. unfold binary_round.
  set (e0 := fexp prec emax (Zpos (digits2_pos m) + e)).
  destruct (shl_align_spec m e e0) as [He' Hm'].
  destruct (shl_align m e e0) as [mz ez]. cbn [fst snd] in He', Hm'.
  assert (He0 : -1074 <= e0) by (unfold e0; rewrite fexp64; lia).
  assert (Hdz : Zpos (digits2_pos mz) + ez = Zpos (digits2_pos m) + e).
  { rewrite !digits2_pos_log2, Hm', Z.log2_mul_pow2 by lia. lia. }
  assert (Hval : Zpos mz * 2 ^ (ez + 1074) = Zpos m * 2 ^ (e + 1074)).
  { rewrite Hm', <- Z.mul_assoc, <- Z.pow_add_r by lia. f_equal. f_equal. lia. }
  rewrite <- Hval. apply binary_round_aux_spec; [lia|].
  rewrite Hdz. fold e0. lia.
Qed.

Lemma round64_pos (X : Z) : 0 < X -> round64 X = round_pos X.
Proof. destruct X; try lia. reflexivity. Qed.

Lemma round64_neg (X : Z) : X < 0 -> round64 X = - round_pos (- X).
Proof. destruct X; try lia. reflexivity. Qed.

Lemma round64_opp (X : Z) : round64 (- X) = - round64 X.
Proof. destruct X; cbn [round64 Z.opp]; [reflexivity | reflexivity | symmetry; apply Z.opp_involutive]. Qed.

Lemma binary_normalize_spec (M e : Z) :
  -1074 <= e ->
  binary_normalize prec emax M e false <> S754_nan /\
  SFZ (binary_normalize prec emax M e false) = round64 (M * 2 ^ (e + 1074)).
Proof.
  intros He. pose proof (pow2_pos (e + 1074) ltac:(lia)) as HP.
  destruct M as [|m|m]; cbn [binary_normalize].
  - split; [discriminate | reflexivity].
  - destruct (binary_round_spec false m e He) as [Hn Hv]. split; [exact Hn|].
    rewrite Hv, round64_pos by lia. reflexivity.
  - destruct (binary_round_spec true m e He) as [Hn Hv]. split; [exact Hn|].
    rewrite Hv, round64_neg by lia. cbn [cond_Zopp]. f_equal. f_equal. lia.
Qed.

Lemma round64_exact (f : spec_float) :
  valid_binary f = true -> finiteSF f = true -> round64 (SFZ f) = SFZ f.
Proof.
  destruct f as [s| | |s m e]; cbn [finiteSF valid_binary SFZ]; try discriminate.
  - reflexivity.
  - intros Hb _. destruct (canonical_bounds m e Hb) as (He & _).
    unfold emin64. replace (e - -1074) with (e + 1074) by lia.
    pose proof (pow2_pos (e + 1074) ltac:(lia)).
    destruct s; cbn [cond_Zopp].
    + rewrite round64_opp, round64_pos, round_pos_exact by (lia || assumption).
      reflexivity.
    + rewrite round64_pos, round_pos_exact by (lia || assumption). reflexivity.
Qed.

Lemma aligned_value (s : bool) (m : positive) (e ez : Z) :
  -1074 <= ez -> ez <= e ->
  cond_Zopp s (Zpos (fst (shl_align m e ez))) * 2 ^ (ez + 1074)
    = cond_Zopp s (Zpos m * 2 ^ (e - emin64)).
Proof.
  intros Hz Hle. destruct (shl_align_spec m e ez) as [_ Hm]. rewrite Hm.
  replace (Z.min e ez) with ez by lia. unfold emin64.
  replace (e - -1074) with ((e - ez) + (ez + 1074)) by lia.
  rewrite (Z.pow_add_r 2 (e - ez) (ez + 1074)) by lia.
  destruct s; cbn [cond_Zopp]; ring.
Qed.

Lemma SFsub_SFZ (a b : spec_float) :
  valid_binary a = true -> valid_binary b = true ->
  finiteSF a = true -> finiteSF b = true ->
  SF64sub a b <> S754_nan /\ SFZ (SF64sub a b) = round64 (SFZ a - SFZ b).
Proof.
  intros Va Vb Fa Fb.
  destruct a as [sa| | |sa ma ea]; try discriminate;
    destruct b as [sb| | |sb mb eb]; try discriminate.
  - cbn. destruct sa, sb; split; (discriminate || reflexivity).
  - split; [discriminate|].
    change (SF64sub (S754_zero sa) (S754_finite sb mb eb)) with (S754_finite (negb sb) mb eb).
    change (SFZ (S754_zero sa)) with 0. rewrite Z.sub_0_l, round64_opp.
    rewrite (round64_exact _ Vb eq_refl). destruct sb; cbn; lia.
  - split; [discriminate|].
    change (SF64sub (S754_finite sa ma ea) (S754_zero sb)) with (S754_finite sa ma ea).
    change (SFZ (S754_zero sb)) with 0. rewrite Z.sub_0_r.
    symmetry. apply (round64_exact _ Va eq_refl).
  - cbn [valid_binary] in Va, Vb.
    destruct (canonical_bounds ma ea Va) as (Hea & _).
    destruct (canonical_bounds mb eb Vb) as (Heb & _).
    change (SF64sub (S754_finite sa ma ea) (S754_finite sb mb eb)) with
      (binary_normalize prec emax
         (cond_Zopp sa (Zpos (fst (shl_align ma ea (Z.min ea eb))))
          - cond_Zopp sb (Zpos (fst (shl_align mb eb (Z.min ea eb)))))
         (Z.min ea eb) false).
    destruct (binary_normalize_spec
                (cond_Zopp sa (Zpos (fst (shl_align ma ea (Z.min ea eb))))
                 - cond_Zopp sb (Zpos (fst (shl_align mb eb (Z.min ea eb)))))
                (Z.min ea eb) ltac:(lia)) as [Hn Hv].
    split; [exact Hn|]. rewrite Hv. f_equal.
    rewrite Z.mul_sub_distr_r, !aligned_value by lia. reflexivity.
Qed.

Lemma SFadd_SFZ (a b : spec_float) :
  valid_binary a = true -> valid_binary b = true ->
  finiteSF a = true -> finiteSF b = true ->
  SF64add a b <> S754_nan /\ SFZ (SF64add a b) = round64 (SFZ a + SFZ b).
Proof.
  intros Va Vb Fa Fb.
  destruct a as [sa| | |sa ma ea]; try discriminate;
    destruct b as [sb| | |sb mb eb]; try discriminate.
  - cbn. destruct sa, sb; split; (discriminate || reflexivity).
  - split; [discriminate|].
    change (SF64add (S754_zero sa) (S754_finite sb mb eb)) with (S754_finite sb mb eb).
    change (SFZ (S754_zero sa)) with 0. rewrite Z.add_0_l.
    symmetry. apply (round64_exact _ Vb eq_refl).
  - split; [discriminate|].
    change (SF64add (S754_finite sa ma ea) (S754_zero sb)) with (S754_finite sa ma ea).
    change (SFZ (S754_zero sb)) with 0. rewrite Z.add_0_r.
    symmetry. apply (round64_exact _ Va eq_refl).
  - cbn [valid_binary] in Va, Vb.
    destruct (canonical_bounds ma ea Va) as (Hea & _).
    destruct (canonical_bounds mb eb Vb) as (Heb & _).
    change (SF64add (S754_finite sa ma ea) (S754_finite sb mb eb)) with
      (binary_normalize prec emax
         (cond_Zopp sa (Zpos (fst (shl_align ma ea (Z.min ea eb))))
          + cond_Zopp sb (Zpos (fst (shl_align mb eb (Z.min ea eb)))))
         (Z.min ea eb) false).
    destruct (binary_normalize_spec
                (cond_Zopp sa (Zpos (fst (shl_align ma ea (Z.min ea eb))))
                 + cond_Zopp sb (Zpos (fst (shl_align mb eb (Z.min ea eb)))))
                (Z.min ea eb) ltac:(lia)) as [Hn Hv].
    split; [exact Hn|]. rewrite Hv. f_equal.
    rewrite Z.mul_add_distr_r, !aligned_value by lia. reflexivity.
Qed.

(** Order *)

Lemma magnitude_pos (m : positive) (e : Z) :
  bounded prec emax m e = true ->
  0 < Zpos m * 2 ^ (e - emin64) < 2 ^ 2098.
Proof.
  intros Hb. destruct (canonical_bounds m e Hb) as (He & Hm & _).
  unfold emin64. pose proof (pow2_pos (e - -1074) ltac:(lia)) as HP.
  split; [lia|].
  apply Z.lt_le_trans with (2 ^ 53 * 2 ^ (e - -1074)).
  - apply Z.mul_lt_mono_pos_r; assumption.
  - rewrite <- Z.pow_add_r by lia. apply Z.pow_le_mono_r; lia.
Qed.

Lemma magnitude_lt (m1 m2 : positive) (e1 e2 : Z) :
  bounded prec emax m1 e1 = true -> bounded prec emax m2 e2 = true ->
  e1 < e2 ->
  Zpos m1 * 2 ^ (e1 - emin64) < Zpos m2 * 2 ^ (e2 - emin64).
Proof.
  intros H1 H2 Hlt.
  destruct (canonical_bounds m1 e1 H1) as (He1 & Hm1 & _).
  destruct (canonical_bounds m2 e2 H2) as (He2 & _ & Hm2 & _).
  unfold emin64.
  pose proof (pow2_pos (e1 - -1074) ltac:(lia)) as HP1.
  pose proof (pow2_pos (e2 - -1074) ltac:(lia)) as HP2.
  apply Z.lt_le_trans with (2 ^ 53 * 2 ^ (e1 - -1074)).
  - apply Z.mul_lt_mono_pos_r; assumption.
  - apply Z.le_trans with (2 ^ 52 * 2 ^ (e2 - -1074)).
    + rewrite <- !Z.pow_add_r by lia. apply Z.pow_le_mono_r; lia.
    + apply Z.mul_le_mono_nonneg_r; [lia | apply Hm2; lia].
Qed.

Lemma magnitude_compare (m1 m2 : positive) (e1 e2 : Z) :
  bounded prec emax m1 e1 = true -> bounded prec emax m2 e2 = true ->
  match e1 ?= e2 with
  | Lt => Lt
  | Gt => Gt
  | Eq => Pos.compare_cont Eq m1 m2
  end = (Zpos m1 * 2 ^ (e1 - emin64) ?= Zpos m2 * 2 ^ (e2 - emin64)).
Proof.
  intros H1 H2. symmetry.
  destruct (Z.compare_spec e1 e2) as [He | He | He].
  - subst e2. destruct (canonical_bounds m1 e1 H1) as (He1 & _).
    pose proof (pow2_pos (e1 - emin64) ltac:(unfold emin64; lia)) as HP.
    change (Pos.compare_cont Eq m1 m2) with (Zpos m1 ?= Zpos m2).
    destruct (Z.compare_spec (Zpos m1) (Zpos m2)) as [Hm | Hm | Hm].
    + rewrite Hm. apply Z.compare_refl.
    + apply Z.compare_lt_iff. apply Z.mul_lt_mono_pos_r; assumption.
    + apply Z.compare_gt_iff. apply Z.mul_lt_mono_pos_r; assumption.
  - apply Z.compare_lt_iff. apply magnitude_lt; assumption.
  - apply Z.compare_gt_iff. apply magnitude_lt; assumption.
Qed.

Lemma SFcompare_SFZ (a b : spec_float) :
  valid_binary a = true -> valid_binary b = true ->
  a <> S754_nan -> b <> S754_nan ->
  SFcompare a b = Some (SFZ a ?= SFZ b).
Proof.
  intros Va Vb Na Nb.
  assert (HI : 0 < 2 ^ 2098) by (apply pow2_pos; lia).
  destruct a as [sa|sa| |sa ma ea]; try congruence;
    destruct b as [sb|sb| |sb mb eb]; try congruence;
    cbn [valid_binary] in Va, Vb;
    try pose proof (magnitude_pos ma ea Va) as Ha;
    try pose proof (magnitude_pos mb eb Vb) as Hb;
    cbn [SFcompare SFZ]; [reflexivity | f_equal; symmetry ..].
  - destruct sb; cbn [cond_Zopp]; [apply Z.compare_gt_iff | apply Z.compare_lt_iff]; lia.
  - destruct sb; cbn [cond_Zopp]; [apply Z.compare_gt_iff | apply Z.compare_lt_iff]; lia.
  - destruct sa; cbn [cond_Zopp]; [apply Z.compare_lt_iff | apply Z.compare_gt_iff]; lia.
  - destruct sa, sb; cbn [cond_Zopp];
      [apply Z.compare_refl | apply Z.compare_lt_iff | apply Z.compare_gt_iff
       | apply Z.compare_refl]; lia.
  - destruct sa, sb; cbn [cond_Zopp];
      [apply Z.compare_lt_iff | apply Z.compare_lt_iff | apply Z.compare_gt_iff
       | apply Z.compare_gt_iff]; lia.
  - destruct sa; cbn [cond_Zopp]; [apply Z.compare_lt_iff | apply Z.compare_gt_iff]; lia.
  - destruct sa, sb; cbn [cond_Zopp];
      [apply Z.compare_gt_iff | apply Z.compare_lt_iff | apply Z.compare_gt_iff
       | apply Z.compare_lt_iff]; lia.
  - destruct sa, sb; cbn [cond_Zopp].
    + rewrite Z.compare_opp, <- (magnitude_compare mb ma eb ea Vb Va).
      rewrite (Z.compare_antisym eb ea), (Pos.compare_cont_antisym).
      destruct (eb ?= ea); reflexivity.
    + apply Z.compare_lt_iff; lia.
    + apply Z.compare_gt_iff; lia.
    + symmetry. apply magnitude_compare; assumption.
Qed.

(** Rounding is monotone and stays near *)

Lemma rne_div_mono (X Y n : Z) :
  0 <= n -> X <= Y -> rne_div X n <= rne_div Y n.
Proof.
  intros Hn Hle.
  pose proof (pow2_pos n Hn) as HP.
  pose proof (Z.div_le_mono X Y (2 ^ n) HP Hle) as Hq.
  pose proof (Z.div_mod X (2 ^ n) ltac:(lia)) as HX.
  pose proof (Z.div_mod Y (2 ^ n) ltac:(lia)) as HY.
  pose proof (Z.mod_pos_bound X (2 ^ n) HP) as HrX.
  pose proof (Z.mod_pos_bound Y (2 ^ n) HP) as HrY.
  unfold rne_div.
  set (P := 2 ^ n) in *. set (qX := X / P) in *. set (qY := Y / P) in *.
  set (rX := X mod P) in *. set (rY := Y mod P) in *.
  clearbody P qX qY rX rY.
  destruct (Z.eq_dec qX qY) as [Heq | Hne].
  - subst qY. assert (rX <= rY) by nia.
    destruct (Z.compare_spec (2 * rX) P); destruct (Z.compare_spec (2 * rY) P);
      destruct (Z.even qX); lia.
  - assert (qX + 1 <= qY) by lia.
    destruct (2 * rX ?= P); destruct (2 * rY ?= P);
      destruct (Z.even qX); destruct (Z.even qY); lia.
Qed.

Lemma rne_div_scaled_bounds (X n : Z) :
  0 <= n -> 0 <= X ->
  X - 2 ^ n < rne_div X n * 2 ^ n <= X + 2 ^ n /\ 0 <= rne_div X n.
Proof.
  intros Hn HX.
  pose proof (pow2_pos n Hn) as HP.
  pose proof (rne_div_bounds X n Hn) as Hb.
  pose proof (Z.div_mod X (2 ^ n) ltac:(lia)) as Hdm.
  pose proof (Z.mod_pos_bound X (2 ^ n) HP) as Hr.
  pose proof (Z.div_pos X (2 ^ n) HX HP) as Hq.
  set (P := 2 ^ n) in *. set (q := X / P) in *. set (r := X mod P) in *.
  clearbody P q r. split; [nia | lia].
Qed.

Lemma round_pos_mono (X Y : Z) : 0 < X -> X <= Y -> round_pos X <= round_pos Y.
Proof.
  intros HX Hle. unfold round_pos.
  apply Z.min_le_compat_r.
  pose proof (Z.log2_le_mono X Y Hle) as Hlog.
  pose proof (Z.log2_nonneg X) as HlX.
  pose proof (Z.log2_spec X HX) as HsX.
  pose proof (Z.log2_spec Y ltac:(lia)) as HsY.
  set (lX := Z.log2 X) in *. set (lY := Z.log2 Y) in *. clearbody lX lY.
  destruct (Z.eq_dec (Z.max 0 (lX + 1 - 53)) (Z.max 0 (lY + 1 - 53))) as [Heq | Hne].
  - rewrite Heq. apply Z.mul_le_mono_nonneg_r.
    + apply Z.lt_le_incl, pow2_pos. lia.
    + apply rne_div_mono; lia.
  - set (nX := Z.max 0 (lX + 1 - 53)) in *. set (nY := Z.max 0 (lY + 1 - 53)) in *.
    assert (HnX : 0 <= nX <= lX + 1) by (unfold nX; lia).
    assert (HnY : nY = lY - 52 /\ lX + 1 <= lY /\ 0 < lY - 52)
      by (unfold nX, nY in *; lia).
    destruct HnY as (HnY & Hlt & Hpos). clearbody nX nY. subst nY.
    apply Z.le_trans with (2 ^ (lX + 1)); [|apply Z.le_trans with (2 ^ lY)].
    + (* the rounded value of X does not pass the next power of two *)
      pose proof (pow2_pos nX ltac:(lia)) as HP.
      pose proof (rne_div_bounds X nX ltac:(lia)) as Hb.
      assert (Hq : X / 2 ^ nX < 2 ^ (lX + 1 - nX)).
      { apply Z.div_lt_upper_bound; [lia|].
        rewrite <- Z.pow_add_r by lia. replace (nX + (lX + 1 - nX)) with (lX + 1) by lia.
        replace (Z.succ lX) with (lX + 1) in HsX by lia. lia. }
      replace (2 ^ (lX + 1)) with (2 ^ (lX + 1 - nX) * 2 ^ nX)
        by (rewrite <- Z.pow_add_r by lia; f_equal; lia).
      apply Z.mul_le_mono_nonneg_r; lia.
    + apply Z.pow_le_mono_r; lia.
    + (* the rounded value of Y is at least the power of two below it *)
      pose proof (pow2_pos (lY - 52) ltac:(lia)) as HP.
      pose proof (rne_div_bounds Y (lY - 52) ltac:(lia)) as Hb.
      assert (Hq : 2 ^ 52 <= Y / 2 ^ (lY - 52)).
      { apply Z.div_le_lower_bound; [lia|].
        rewrite <- Z.pow_add_r by lia. replace (lY - 52 + 52) with lY by lia. lia. }
      replace (2 ^ lY) with (2 ^ 52 * 2 ^ (lY - 52))
        by (rewrite <- Z.pow_add_r by lia; f_equal; lia).
      apply Z.mul_le_mono_nonneg_r; lia.
Qed.

Lemma round_pos_nonneg (X : Z) : 0 < X -> 0 <= round_pos X.
Proof.
  intros HX. unfold round_pos.
  set (n := Z.max 0 (Z.log2 X + 1 - 53)).
  destruct (rne_div_scaled_bounds X n ltac:(lia) ltac:(lia)) as [_ Hq].
  pose proof (pow2_pos n ltac:(lia)). pose proof (pow2_pos 2098 ltac:(lia)).
  apply Z.min_glb; [|lia]. apply Z.mul_nonneg_nonneg; lia.
Qed.

Lemma round64_mono (X Y : Z) : X <= Y -> round64 X <= round64 Y.
Proof.
  intros Hle.
  destruct (Z.lt_trichotomy X 0) as [HX | [HX | HX]];
    destruct (Z.lt_trichotomy Y 0) as [HY | [HY | HY]]; try lia.
  - rewrite !round64_neg by lia.
    pose proof (round_pos_mono (- Y) (- X) ltac:(lia) ltac:(lia)). lia.
  - subst Y. rewrite (round64_neg X) by lia. cbn [round64].
    pose proof (round_pos_nonneg (- X) ltac:(lia)). lia.
  - rewrite (round64_neg X), (round64_pos Y) by lia.
    pose proof (round_pos_nonneg (- X) ltac:(lia)).
    pose proof (round_pos_nonneg Y ltac:(lia)). lia.
  - subst X Y. lia.
  - subst X. rewrite (round64_pos Y) by lia. cbn [round64].
    apply round_pos_nonneg; lia.
  - rewrite !round64_pos by lia. apply round_pos_mono; lia.
Qed.

(** Below 1 (that is [2^1074] units) rounding adds less than [2^1022] units. *)
Lemma round_pos_near (X : Z) :
  0 < X -> X < 2 ^ 1074 -> round_pos X <= X + 2 ^ 1021.
Proof.
  intros HX Hlt. unfold round_pos.
  assert (Hlog : Z.log2 X < 1074) by (apply Z.log2_lt_pow2; lia).
  pose proof (Z.log2_nonneg X) as Hl0.
  set (n := Z.max 0 (Z.log2 X + 1 - 53)).
  assert (Hn : 0 <= n <= 1021) by (unfold n; lia).
  destruct (rne_div_scaled_bounds X n ltac:(lia) ltac:(lia)) as [[_ Hhi] _].
  assert (2 ^ n <= 2 ^ 1021) by (apply Z.pow_le_mono_r; lia).
  etransitivity; [apply Z.le_min_l|]. lia.
Qed.

(** Primitive floats *)

Lemma SFcompare_nan_l (b : spec_float) : SFcompare S754_nan b = None.
Proof. destruct b; reflexivity. Qed.

Lemma SFcompare_nan_r (a : spec_float) : SFcompare a S754_nan = None.
Proof. destruct a; reflexivity. Qed.

Lemma SFcompare_float (a b : float) :
  Prim2SF a <> S754_nan -> Prim2SF b <> S754_nan ->
  SFcompare (Prim2SF a) (Prim2SF b) = Some (F2Z a ?= F2Z b).
Proof. intros. apply SFcompare_SFZ; auto using Prim2SF_valid. Qed.

Lemma leb_F2Z (a b : float) :
  (a <=? b)%float = true <->
  Prim2SF a <> S754_nan /\ Prim2SF b <> S754_nan /\ F2Z a <= F2Z b.
Proof.
  rewrite leb_spec. unfold SFleb. split.
  - intros H.
    assert (Na : Prim2SF a <> S754_nan)
      by (intros E; rewrite E, SFcompare_nan_l in H; discriminate).
    assert (Nb : Prim2SF b <> S754_nan)
      by (intros E; rewrite E, SFcompare_nan_r in H; discriminate).
    rewrite (SFcompare_float a b Na Nb) in H.
    repeat split; auto.
    destruct (Z.compare_spec (F2Z a) (F2Z b)); (lia || discriminate).
  - intros (Na & Nb & Hle). rewrite (SFcompare_float a b Na Nb).
    destruct (Z.compare_spec (F2Z a) (F2Z b)); (reflexivity || lia).
Qed.

Lemma ltb_F2Z (a b : float) :
  (a <? b)%float = true <->
  Prim2SF a <> S754_nan /\ Prim2SF b <> S754_nan /\ F2Z a < F2Z b.
Proof.
  rewrite ltb_spec. unfold SFltb. split.
  - intros H.
    assert (Na : Prim2SF a <> S754_nan)
      by (intros E; rewrite E, SFcompare_nan_l in H; discriminate).
    assert (Nb : Prim2SF b <> S754_nan)
      by (intros E; rewrite E, SFcompare_nan_r in H; discriminate).
    rewrite (SFcompare_float a b Na Nb) in H.
    repeat split; auto.
    destruct (Z.compare_spec (F2Z a) (F2Z b)); (lia || discriminate).
  - intros (Na & Nb & Hle). rewrite (SFcompare_float a b Na Nb).
    destruct (Z.compare_spec (F2Z a) (F2Z b)); (reflexivity || lia).
Qed.

Lemma SFZ_range (f : spec_float) :
  valid_binary f = true ->
  - 2 ^ 2098 <= SFZ f <= 2 ^ 2098 /\
  (finiteSF f = true -> - 2 ^ 2098 < SFZ f < 2 ^ 2098) /\
  (SFZ f < 2 ^ 2098 -> f <> S754_infinity false) /\
  (- 2 ^ 2098 < SFZ f -> f <> S754_infinity true).
Proof.
  intros V. assert (HI : 0 < 2 ^ 2098) by (apply pow2_pos; lia).
  destruct f as [s|s| |s m e]; cbn [SFZ finiteSF].
  - repeat split; try lia; discriminate.
  - destruct s; cbn [cond_Zopp]; repeat split; try lia; try discriminate;
      intros; try discriminate; intros E; injection E; lia || congruence.
  - repeat split; try lia; discriminate.
  - pose proof (magnitude_pos m e V).
    destruct s; cbn [cond_Zopp]; repeat split; try lia; discriminate.
Qed.

Lemma finite_between (a v b : float) :
  (a <=? v)%float = true -> (v <=? b)%float = true ->
  finite a -> finite b -> finite v.
Proof.
  intros Hav Hvb Fa Fb.
  apply leb_F2Z in Hav. destruct Hav as (_ & Nv & Hav).
  apply leb_F2Z in Hvb. destruct Hvb as (_ & _ & Hvb).
  destruct (SFZ_range (Prim2SF a) (Prim2SF_valid a)) as (_ & Ha & _).
  destruct (SFZ_range (Prim2SF b) (Prim2SF_valid b)) as (_ & Hb & _).
  destruct (SFZ_range (Prim2SF v) (Prim2SF_valid v)) as (_ & _ & Hpi & Hni).
  specialize (Ha Fa). specialize (Hb Fb). unfold F2Z in *.
  unfold finite. destruct (Prim2SF v) as [s|[|]| |s m e]; try reflexivity.
  - exfalso. apply Hni; [lia | reflexivity].
  - exfalso. apply Hpi; [lia | reflexivity].
  - congruence.
Qed.

Lemma sub_F2Z (a b : float) :
  finite a -> finite b ->
  Prim2SF (a - b) <> S754_nan /\ F2Z (a - b)%float = round64 (F2Z a - F2Z b).
Proof.
  intros Fa Fb. unfold F2Z. rewrite sub_spec.
  apply SFsub_SFZ; auto using Prim2SF_valid.
Qed.

Lemma add_F2Z (a b : float) :
  finite a -> finite b ->
  Prim2SF (a + b) <> S754_nan /\ F2Z (a + b)%float = round64 (F2Z a + F2Z b).
Proof.
  intros Fa Fb. unfold F2Z. rewrite add_spec.
  apply SFadd_SFZ; auto using Prim2SF_valid.
Qed.

Lemma F2Z_exact (a : float) : finite a -> round64 (F2Z a) = F2Z a.
Proof. intros Fa. apply round64_exact; [apply Prim2SF_valid | exact Fa]. Qed.

Lemma F2Z_zero : F2Z 0 = 0.
Proof. reflexivity. Qed.

Lemma F2Z_one : F2Z 1 = 2 ^ 1074.
Proof. vm_compute. reflexivity. Qed.

Lemma F2Z_hundredth : 2 ^ 1021 < F2Z 0.01.
Proof. apply Z.ltb_lt. vm_compute. reflexivity. Qed.

Lemma finite_zero : finite 0.
Proof. reflexivity. Qed.

Lemma finite_one : finite 1.
Proof. reflexivity. Qed.

Lemma finite_hundredth : finite 0.01.
Proof. reflexivity. Qed.

Lemma sub_minus_infinity (a d : float) :
  Prim2SF a <> S754_nan -> Prim2SF d <> S754_nan ->
  Prim2SF a <> S754_infinity false -> Prim2SF d <> S754_infinity true ->
  Prim2SF a = S754_infinity true \/ Prim2SF d = S754_infinity false ->
  Prim2SF (a - d) = S754_infinity true.
Proof.
  intros Na Nd Pa Pd H. rewrite sub_spec.
  destruct (Prim2SF a) as [sa|[|]| |sa ma ea]; try congruence;
    destruct (Prim2SF d) as [sd|[|]| |sd md ed]; try congruence;
    try reflexivity; destruct H as [H | H]; discriminate H.
Qed.

Lemma finite_cases (v : float) :
  Prim2SF v <> S754_nan ->
  finite v \/ Prim2SF v = S754_infinity true \/ Prim2SF v = S754_infinity false.
Proof.
  intros N. unfold finite. destruct (Prim2SF v) as [s|[|]| |s m e]; auto; congruence.
Qed.

(** Subtraction is monotone: increasing in its first argument and
    decreasing in its second. *)
Lemma sub_le_mono (a b c d : float) :
  (a <=? b)%float = true -> (c <=? d)%float = true ->
  finite b -> finite c ->
  (a - d <=? b - c)%float = true.
Proof.
  intros Hab Hcd Fb Fc.
  apply leb_F2Z in Hab. destruct Hab as (Na & Nb & Hab).
  apply leb_F2Z in Hcd. destruct Hcd as (Nc & Nd & Hcd).
  destruct (sub_F2Z b c Fb Fc) as [Nbc Vbc].
  destruct (SFZ_range (Prim2SF a) (Prim2SF_valid a)) as (_ & _ & Hpa & _).
  destruct (SFZ_range (Prim2SF b) (Prim2SF_valid b)) as (_ & Hb & _).
  destruct (SFZ_range (Prim2SF c) (Prim2SF_valid c)) as (_ & Hc & _).
  destruct (SFZ_range (Prim2SF d) (Prim2SF_valid d)) as (_ & _ & _ & Hnd).
  specialize (Hb Fb). specialize (Hc Fc). unfold F2Z in Hab, Hcd.
  assert (Pa : Prim2SF a <> S754_infinity false) by (apply Hpa; lia).
  assert (Pd : Prim2SF d <> S754_infinity true) by (apply Hnd; lia).
  apply leb_F2Z.
  destruct (finite_cases a Na) as [Fa | [Ia | Ia]]; [|clear Fb|congruence].
  - destruct (finite_cases d Nd) as [Fd | [Id | Id]]; [|congruence|].
    + destruct (sub_F2Z a d Fa Fd) as [Nad Vad].
      repeat split; auto. rewrite Vad, Vbc. apply round64_mono.
      unfold F2Z. lia.
    + pose proof (sub_minus_infinity a d Na Nd Pa Pd (or_intror Id)) as E.
      destruct (SFZ_range (Prim2SF (b - c)) (Prim2SF_valid _)) as (R & _).
      unfold F2Z. rewrite E.
      split; [discriminate | split; [exact Nbc|]]. cbn [SFZ cond_Zopp]. lia.
  - pose proof (sub_minus_infinity a d Na Nd Pa Pd (or_introl Ia)) as E.
    destruct (SFZ_range (Prim2SF (b - c)) (Prim2SF_valid _)) as (R & _).
    unfold F2Z. rewrite E.
    split; [discriminate | split; [exact Nbc|]]. cbn [SFZ cond_Zopp]. lia.
Qed.

(** A life between 0 and 1 strictly decreases when at least 0.01 is
    subtracted from it. *)
Lemma sub_lt (l d : float) :
  (0 <? l)%float = true -> (l <=? 1)%float = true ->
  (0.01 <=? d)%float = true ->
  (l - d <? l)%float = true.
Proof.
  intros H0 H1 Hd.
  apply ltb_F2Z in H0. destruct H0 as (_ & Nl & H0). rewrite F2Z_zero in H0.
  apply leb_F2Z in H1. destruct H1 as (_ & _ & H1). rewrite F2Z_one in H1.
  apply leb_F2Z in Hd. destruct Hd as (_ & Nd & Hd).
  pose proof F2Z_hundredth as Hh.
  assert (HI : 2 ^ 1074 < 2 ^ 2098) by (apply Z.pow_lt_mono_r; lia).
  assert (H21 : 0 < 2 ^ 1021) by (apply pow2_pos; lia).
  destruct (SFZ_range (Prim2SF l) (Prim2SF_valid l)) as (_ & _ & Hpl & Hnl).
  destruct (SFZ_range (Prim2SF d) (Prim2SF_valid d)) as (_ & _ & _ & Hnd).
  assert (Pl : Prim2SF l <> S754_infinity false) by (apply Hpl; unfold F2Z in *; lia).
  assert (Ml : Prim2SF l <> S754_infinity true) by (apply Hnl; unfold F2Z in *; lia).
  assert (Pd : Prim2SF d <> S754_infinity true) by (apply Hnd; unfold F2Z in *; lia).
  apply ltb_F2Z.
  destruct (finite_cases l Nl) as [Fl | [Il | Il]]; [|congruence|congruence].
  destruct (finite_cases d Nd) as [Fd | [Id | Id]]; [|congruence|].
  - destruct (sub_F2Z l d Fl Fd) as [Nld Vld].
    repeat split; auto. rewrite Vld.
    apply Z.le_lt_trans with (round64 (F2Z l - F2Z 0.01)).
    + apply round64_mono. lia.
    + destruct (Z_lt_le_dec 0 (F2Z l - F2Z 0.01)) as [Hpos | Hneg].
      * rewrite round64_pos by exact Hpos.
        pose proof (round_pos_near (F2Z l - F2Z 0.01) Hpos ltac:(lia)). lia.
      * pose proof (round64_mono _ 0 Hneg) as Hm. cbn [round64] in Hm. lia.
  - pose proof (sub_minus_infinity l d Nl Nd Pl Pd (or_intror Id)) as E.
    unfold F2Z in *. rewrite E.
    split; [discriminate | split; [exact Nl|]]. cbn [SFZ cond_Zopp]. lia.
Qed.

(** Adding 0.01 to a non-negative number gives at least 0.01. *)
Lemma add_hundredth_ge (t : float) :
  (0 <=? t)%float = true -> (0.01 <=? t + 0.01)%float = true.
Proof.
  intros H0. apply leb_F2Z in H0. destruct H0 as (_ & Nt & H0).
  rewrite F2Z_zero in H0. apply leb_F2Z.
  split; [discriminate|].
  destruct (finite_cases t Nt) as [Ft | [It | It]].
  - destruct (add_F2Z t 0.01 Ft finite_hundredth) as [N V].
    split; [exact N|]. rewrite V, <- (F2Z_exact 0.01 finite_hundredth) at 1.
    apply round64_mono. lia.
  - exfalso. unfold F2Z in H0. rewrite It in H0. cbn in H0.
    pose proof (pow2_pos 2098 ltac:(lia)). lia.
  - assert (E : Prim2SF (t + 0.01) = S754_infinity false).
    { rewrite add_spec, It. reflexivity. }
    unfold F2Z at 2. rewrite E. split; [discriminate|]. cbn [SFZ cond_Zopp].
    pose proof F2Z_hundredth.
    destruct (SFZ_range (Prim2SF 0.01) (Prim2SF_valid _)) as (R & _).
    unfold F2Z. lia.
Qed.

Lemma binary_round_aux_nonneg (m : positive) (e : Z) :
  binary_round_aux prec emax false (Zpos m) e loc_Exact <> S754_nan /\
  0 <= SFZ (binary_round_aux prec emax false (Zpos m) e loc_Exact).
Proof.
  unfold binary_round_aux, shr_fexp. cbn [shr_record_of_loc].
  set (n1 := fexp prec emax (Zdigits2 (Zpos m) + e) - e). clearbody n1.
  destruct (shr_exact_state (Zpos m) e n1 ltac:(lia)) as [_ Hst1].
  destruct (shr (Build_shr_record (Zpos m) false false) e n1) as [mrs1 e1].
  cbn [fst] in Hst1.
  rewrite (shr_state_round (Zpos m) (Z.max 0 n1) mrs1) by (lia || exact Hst1).
  destruct (rne_div_scaled_bounds (Zpos m) (Z.max 0 n1) ltac:(lia) ltac:(lia)) as [_ Hq].
  set (q := rne_div (Zpos m) (Z.max 0 n1)) in *. clearbody q.
  set (n2 := fexp prec emax (Zdigits2 q + e1) - e1). clearbody n2.
  destruct (shr_exact_state q e1 n2 Hq) as [_ (rem & _ & _ & Hm2 & _)].
  destruct (shr (Build_shr_record q false false) e1 n2) as [mrs2 e2].
  cbn [fst] in Hm2.
  destruct (shr_m mrs2) as [|p|p]; [| |lia].
  - split; [discriminate | cbn; lia].
  - destruct (e2 <=? emax - prec); (split; [discriminate|]); cbn [SFZ cond_Zopp].
    + apply Z.mul_nonneg_nonneg; [lia | apply Z.pow_nonneg; lia].
    + apply Z.pow_nonneg; lia.
Qed.

(** The product of a non-negative number and 0.02 is not negative. *)
Lemma mul_fiftieth_nonneg (r : float) :
  (0 <=? r)%float = true -> (0 <=? r * 0.02)%float = true.
Proof.
  intros H0. apply leb_F2Z in H0. destruct H0 as (_ & Nr & H0).
  rewrite F2Z_zero in H0. apply leb_F2Z.
  split; [discriminate|]. rewrite F2Z_zero. unfold F2Z in *.
  rewrite mul_spec.
  assert (E : Prim2SF 0.02 = S754_finite false 5764607523034235 (-58))
    by (vm_compute; reflexivity).
  rewrite E.
  pose proof (Prim2SF_valid r) as V.
  destruct (Prim2SF r) as [s|[|]| |[|] m e]; try congruence.
  - cbn. split; [discriminate | lia].
  - exfalso. cbn in H0. pose proof (pow2_pos 2098 ltac:(lia)). lia.
  - cbn. split; [discriminate|]. apply Z.pow_nonneg; lia.
  - exfalso. cbn [valid_binary] in V. pose proof (magnitude_pos m e V).
    cbn [SFZ cond_Zopp] in H0. lia.
  - apply (binary_round_aux_nonneg (m * 5764607523034235) (e + -58)).
Qed.

(** ** The particle entity *)

(** C8: [update] adds the velocity to the position and the gravity constant
    0.3 to the vertical velocity; the horizontal velocity, the colour, the
    size and the decay rate are left as they were. *)
Theorem update_moves_particle (p : Particle) :
  let p' := snd (update p) in
  x p' = (x p + vx p)%float /\
  y p' = (y p + vy p)%float /\
  vy p' = (vy p + 0.3)%float /\
  vx p' = vx p /\ color p' = color p /\ size p' = size p /\ decay p' = decay p.
Proof. destruct p; cbn; repeat split; reflexivity. Qed.

(** ** The frame loop *)

Lemma animate_loop_survivors (rest : list Particle) :
  forall alive s,
    animate_loop rest alive s =
      (alive ++ survivors rest, set_surface (surface s ++ survivors rest) s).
Proof.
  induction rest as [|p rest IH]; intros alive s.
  - cbn. rewrite !app_nil_r. destruct s; reflexivity.
  - cbn [animate_loop]. unfold survivors. cbn [List.filter].
    destruct (update p) as [ok p'] eqn:Hu. cbn [fst].
    destruct ok.
    + rewrite IH. cbn [map snd]. rewrite Hu. cbn [snd].
      unfold survivors, draw. cbn. rewrite <- !app_assoc. reflexivity.
    + rewrite IH. reflexivity.
Qed.

Lemma filter_update_survivors (ps : list Particle) :
  forall s,
    filter_update ps s =
      (survivors ps, set_surface (surface s ++ survivors ps) s).
Proof.
  induction ps as [|p ps IH]; intros s.
  - cbn. rewrite app_nil_r. destruct s; reflexivity.
  - cbn [filter_update]. unfold survivors. cbn [List.filter].
    destruct (update p) as [ok p'] eqn:Hu. cbn [fst].
    destruct ok; rewrite IH.
    + cbn [map snd]. rewrite Hu. cbn [snd]. unfold survivors, draw. cbn.
      rewrite <- app_assoc. reflexivity.
    + reflexivity.
Qed.

Lemma animate_particles (s : state) : particles (animate s) = survivors (particles s).
Proof.
  unfold animate. destruct (particles s) as [|p ps] eqn:Hp.
  - cbn. exact Hp.
  - cbn [length Nat.eqb]. unfold clearRect.
    cbn [particles set_surface]. rewrite Hp, animate_loop_survivors.
    cbn [app]. cbn [particles set_particles].
    destruct (0 <? length (survivors (p :: ps)))%nat; reflexivity.
Qed.

Lemma animate_requests (s : state) :
  (particles (animate s) <> [] ->
     frameRequests (animate s) = frameRequests s ++ [nextFrameId s] /\
     animationId (animate s) = Some (nextFrameId s)) /\
  (particles (animate s) = [] ->
     frameRequests (animate s) = frameRequests s /\ animationId (animate s) = None).
Proof.
  rewrite animate_particles.
  unfold animate. destruct (particles s) as [|p ps] eqn:Hp.
  - cbn. split; [congruence | auto].
  - cbn [length Nat.eqb]. unfold clearRect.
    cbn [particles set_surface]. rewrite Hp, animate_loop_survivors.
    cbn [app]. cbn [particles set_particles].
    destruct (survivors (p :: ps)) as [|q qs]; cbn; split; auto; congruence.
Qed.

Lemma animate_base_particles (s : state) :
  particles (animate_base s) = survivors (particles s).
Proof.
  unfold animate_base, clearRect. cbn [particles set_surface].
  rewrite filter_update_survivors. cbn [particles set_particles].
  destruct (0 <? length (survivors (particles s)))%nat; reflexivity.
Qed.

Lemma animate_base_requests (s : state) :
  (particles (animate_base s) <> [] ->
     frameRequests (animate_base s) = frameRequests s ++ [nextFrameId s] /\
     animationId (animate_base s) = Some (nextFrameId s)) /\
  (particles (animate_base s) = [] ->
     frameRequests (animate_base s) = frameRequests s /\
     animationId (animate_base s) = None).
Proof.
  rewrite animate_base_particles.
  unfold animate_base, clearRect. cbn [particles set_surface].
  rewrite filter_update_survivors. cbn [particles set_particles].
  destruct (survivors (particles s)) as [|q qs]; cbn; split; auto; congruence.
Qed.

Lemma app_singleton_neq {A : Type} (l : list A) (a : A) : l ++ [a] <> l.
Proof.
  intros H. apply (f_equal (@length A)) in H. rewrite length_app in H.
  cbn in H. lia.
Qed.

Ltac solve_requests :=
  repeat split; intros; try congruence;
  match goal with
  | H : ?l ++ [?a] = ?l |- _ => exfalso; exact (app_singleton_neq l a H)
  | H : ?l = ?l ++ [?a] |- _ => exfalso; exact (app_singleton_neq l a (eq_sym H))
  end.

(** C1: after a tick of either variant the active set is exactly the
    particles whose [update] reported alive, in their former order, and a
    further frame is requested if and only if that set is not empty. *)
Theorem tick_keeps_survivors (s : state) :
  (particles (animate s) = survivors (particles s) /\
   (frameRequests (animate s) = frameRequests s ++ [nextFrameId s]
      <-> particles (animate s) <> []) /\
   (frameRequests (animate s) = frameRequests s <-> particles (animate s) = [])) /\
  (particles (animate_base s) = survivors (particles s) /\
   (frameRequests (animate_base s) = frameRequests s ++ [nextFrameId s]
      <-> particles (animate_base s) <> []) /\
   (frameRequests (animate_base s) = frameRequests s
      <-> particles (animate_base s) = [])).
Proof.
  split.
  - destruct (animate_requests s) as [Hne He].
    split; [apply animate_particles|].
    destruct (particles (animate s)) as [|q qs] eqn:Hp.
    + destruct (He eq_refl) as [Hf _]. rewrite Hf. solve_requests.
    + destruct Hne as [Hf _]; [congruence|]. rewrite Hf. solve_requests.
  - destruct (animate_base_requests s) as [Hne He].
    split; [apply animate_base_particles|].
    destruct (particles (animate_base s)) as [|q qs] eqn:Hp.
    + destruct (He eq_refl) as [Hf _]. rewrite Hf. solve_requests.
    + destruct Hne as [Hf _]; [congruence|]. rewrite Hf. solve_requests.
Qed.

(** ** The spawn controller *)

Lemma new_Particle_fresh (random : nat -> float) (x0 y0 : float) (s : state) :
  fresh_at random x0 y0 (fst (new_Particle random x0 y0 s)) /\
  snd (new_Particle random x0 y0 s) =
    mkState (particles s) (animationId s) (frameRequests s) (nextFrameId s)
            (5 + randomCalls s) (surface s).
Proof.
  unfold new_Particle, bind, ret, Math_random, fresh_at. cbn.
  repeat split; try reflexivity. eexists; reflexivity.
Qed.

Lemma createParticles_loop_batch (random : nat -> float) (x0 y0 : float) (n : nat) :
  forall s, exists batch,
    createParticles_loop random n x0 y0 s =
      mkState (particles s ++ batch) (animationId s) (frameRequests s)
              (nextFrameId s) (5 * n + randomCalls s) (surface s) /\
    length batch = n /\
    Forall (fresh_at random x0 y0) batch.
Proof.
  induction n as [|n IH]; intros s.
  - exists []. cbn. rewrite app_nil_r. destruct s; auto.
  - cbn [createParticles_loop].
    destruct (new_Particle_fresh random x0 y0 s) as [Hp Hs].
    destruct (new_Particle random x0 y0 s) as [p s1]. cbn [fst snd] in Hp, Hs.
    subst s1. unfold set_particles. cbn [particles animationId frameRequests
      nextFrameId randomCalls surface].
    destruct (IH (mkState (particles s ++ [p]) (animationId s) (frameRequests s)
                    (nextFrameId s) (5 + randomCalls s) (surface s)))
      as (batch & Hb & Hlen & Hall).
    exists (p :: batch). rewrite Hb. cbn [particles animationId frameRequests
      nextFrameId randomCalls surface].
    rewrite <- app_assoc. cbn [app]. repeat split.
    + f_equal. lia.
    + cbn. lia.
    + constructor; assumption.
Qed.

Lemma handleParticleCreation_excluded (random : nat -> float) (x0 y0 : float)
    (target : option EventTarget) (s : state) :
  shouldCreateParticles target = false ->
  handleParticleCreation random x0 y0 target s = s.
Proof. intros H. unfold handleParticleCreation. rewrite H. reflexivity. Qed.

Lemma handleParticleCreation_spawns (random : nat -> float) (x0 y0 : float)
    (target : option EventTarget) (s : state) :
  shouldCreateParticles target = true ->
  exists batch,
    particles (handleParticleCreation random x0 y0 target s) = particles s ++ batch /\
    length batch = config.particleCount /\
    Forall (fresh_at random x0 y0) batch.
Proof.
  intros H. unfold handleParticleCreation, createParticles. rewrite H. cbn [negb].
  destruct (createParticles_loop_batch random x0 y0 config.particleCount s)
    as (batch & Hb & Hlen & Hall).
  exists batch. rewrite Hb. cbn [animationId].
  destruct (animationId s); cbn; auto.
Qed.

(** C3: a spawn request at [(x0, y0)] whose target is not excluded appends
    exactly 30 new particles, each constructed at [(x0, y0)], to the active
    set; with an excluded target the active set is unchanged. *)
Theorem spawn_adds_one_batch (random : nat -> float) (x0 y0 : float)
    (target : option EventTarget) (s : state) :
  let s' := handleParticleCreation random x0 y0 target s in
  (shouldCreateParticles target = true ->
     exists batch,
       particles s' = particles s ++ batch /\
       length batch = 30%nat /\
       Forall (fun p => x p = x0 /\ y p = y0 /\ life p = 1%float) batch) /\
  (shouldCreateParticles target = false -> particles s' = particles s).
Proof.
  cbn zeta. split; intros H.
  - destruct (handleParticleCreation_spawns random x0 y0 target s H)
      as (batch & Hb & Hlen & Hall).
    exists batch. repeat split; auto.
    eapply Forall_impl; [exact Hall|].
    intros p (Hx & Hy & Hl & _). auto.
  - rewrite handleParticleCreation_excluded by exact H. reflexivity.
Qed.

(** C5 as the specification words it fails: with an absent target no batch
    is appended to the active set. *)
Lemma absent_target_spawns_nothing :
  ~ (exists batch,
       batch <> [] /\
       particles (handleParticleCreation half 100 100 None initial)
         = particles initial ++ batch).
Proof.
  intros (batch & Hne & H). cbn in H. destruct batch; [congruence | discriminate].
Qed.

(** C5, as the code has it: an absent target is treated as excluded; the
    request leaves the whole engine state, and so the active set, as it was. *)
Theorem absent_target_is_excluded (random : nat -> float) (x0 y0 : float) (s : state) :
  shouldCreateParticles None = false /\
  handleParticleCreation random x0 y0 None s = s.
Proof. split; reflexivity. Qed.

(** ** The exclusion check *)

Lemma closest_within (sel : string) :
  forall e, (exists a, closest sel e = Some a) <->
            existsb (matches sel) (ancestors_or_self e) = true.
Proof.
  fix IH 1. intros [ns ln cl par].
  cbn [closest ancestors_or_self existsb].
  destruct (matches sel (mkElement ns ln cl par)) eqn:Hm.
  - cbn. split; eauto.
  - cbn [orb]. destruct par as [p|].
    + apply IH.
    + cbn. split; [intros [a Ha]; discriminate | discriminate].
Qed.

Lemma closest_guarded_within (sel : string) (e : Element) :
  closest_guarded (TargetElement e) sel = existsb (matches sel) (ancestors_or_self e).
Proof.
  unfold closest_guarded.
  destruct (existsb (matches sel) (ancestors_or_self e)) eqn:Hw.
  - apply closest_within in Hw. destruct Hw as [a ->]. reflexivity.
  - destruct (closest sel e) as [a|] eqn:Hc; [|reflexivity].
    assert (existsb (matches sel) (ancestors_or_self e) = true)
      by (apply closest_within; eauto).
    congruence.
Qed.

Lemma containers_loop_within (e : Element) (sels : list string) :
  containers_loop (TargetElement e) sels = negb (within sels e).
Proof.
  unfold within. induction sels as [|sel sels IH]; [reflexivity|].
  cbn [containers_loop existsb]. rewrite closest_guarded_within.
  destruct (existsb (matches sel) (ancestors_or_self e)); [reflexivity|].
  cbn [orb]. exact IH.
Qed.

Lemma shouldCreateParticles_element (e : Element) :
  shouldCreateParticles (Some (TargetElement e)) =
    negb (includes excludeSelectors (Some (tagName e)))
    && negb (within excludeContainers e).
Proof.
  unfold shouldCreateParticles. cbn [target_tagName].
  rewrite containers_loop_within.
  destruct (includes excludeSelectors (Some (tagName e))); reflexivity.
Qed.

(** An HTML element that is an [input], [textarea] or [select] carries the
    upper-case tag name the first list looks for. *)
Lemma form_control_tagName (e : Element) :
  htmlNamespace e = true ->
  is_one_of ["input"; "textarea"; "select"]%string e = true ->
  includes excludeSelectors (Some (tagName e)) = true.
Proof.
  intros Hns H. unfold is_one_of, matches in H. cbn in H. rewrite Hns in H.
  unfold tagName. rewrite Hns.
  repeat (apply orb_prop in H; destruct H as [H|H]);
    try discriminate;
    apply String.eqb_eq in H; rewrite <- H; reflexivity.
Qed.

(** C4 as the specification words it fails: an [option] inside a [select]
    has an ancestor in the exclusion set, and a click on it still spawns a
    batch of 30 particles. *)
Lemma option_in_select_spawns :
  within spec_exclusion_set option_element = true /\
  length (particles (handleParticleCreation half 100 100
                       (Some (TargetElement option_element)) initial)) = 30%nat.
Proof. split; vm_compute; reflexivity. Qed.

(** C4, as the code has it: no particle is added when the target or one of
    its ancestors matches [pre], [code], [button], [a] or [.copy-btn], or
    when the target itself is an HTML [input], [textarea] or [select]. *)
Theorem excluded_target_spawns_nothing (random : nat -> float) (x0 y0 : float)
    (e : Element) (s : state) :
  within ["code"; "pre"; "button"; "a"; ".copy-btn"]%string e = true \/
  (htmlNamespace e = true /\
   is_one_of ["input"; "textarea"; "select"]%string e = true) ->
  handleParticleCreation random x0 y0 (Some (TargetElement e)) s = s.
Proof.
  intros H. apply handleParticleCreation_excluded.
  rewrite shouldCreateParticles_element.
  destruct H as [H | [Hns H]].
  - assert (Hw : within excludeContainers e = true).
    { unfold within in *. cbn [existsb excludeContainers] in *.
      repeat (apply orb_prop in H; destruct H as [H|H]);
        try discriminate; rewrite H; rewrite ?orb_true_r; reflexivity. }
    rewrite Hw. apply andb_false_r.
  - rewrite (form_control_tagName e Hns H). reflexivity.
Qed.

Lemma excluded_target_spawns_nothing_witness :
  (within ["code"; "pre"; "button"; "a"; ".copy-btn"]%string span_in_button = true \/
   (htmlNamespace span_in_button = true /\
    is_one_of ["input"; "textarea"; "select"]%string span_in_button = true)) /\
  handleParticleCreation half 100 100 (Some (TargetElement span_in_button)) initial
    = initial.
Proof.
  split.
  - left. vm_compute. reflexivity.
  - apply (excluded_target_spawns_nothing half 100 100 span_in_button initial).
    left. vm_compute. reflexivity.
Defined.

(** C9: whatever non-null target the inline test of the earlier variant
    rejects, [shouldCreateParticles] rejects too. *)
Theorem base_rejection_is_kept (t : EventTarget) :
  excluded_base (Some t) = Some true ->
  shouldCreateParticles (Some t) = false.
Proof.
  destruct t as [e|]; [|discriminate].
  intros H. rewrite shouldCreateParticles_element.
  cbn [excluded_base] in H. injection H as H.
  unfold within. cbn [excludeContainers existsb].
  rewrite <- !closest_guarded_within. unfold closest_guarded.
  cbn [includes excludeSelectors existsb].
  destruct (String.eqb (tagName e) "CODE");
    destruct (String.eqb (tagName e) "PRE");
    destruct (closest "pre" e); destruct (closest "button" e);
    destruct (closest ".copy-btn" e); cbn in H |- *;
    try discriminate; rewrite ?orb_true_r, ?andb_false_r; reflexivity.
Qed.

Lemma base_rejection_is_kept_witness :
  excluded_base (Some (TargetElement code_in_pre)) = Some true /\
  shouldCreateParticles (Some (TargetElement code_in_pre)) = false.
Proof.
  split.
  - vm_compute. reflexivity.
  - apply (base_rejection_is_kept (TargetElement code_in_pre)).
    vm_compute. reflexivity.
Defined.

(** ** The rate limiter and the resize debounce *)

Section WrapperFacts.

Context {Args St : Type}.
Variable func : Args -> St -> St.
Variable arrive : Args -> St -> St.
Variable wait : Z.

Abbreviation wr := (wrapper Args St).

Lemma owns_timers_unique (w : wr) (id : positive) (v : Z * Args) :
  owns_timers w -> timers w !! id = Some v -> delete id (timers w) = empty.
Proof.
  intros Ho Hv. apply map_empty. intros j.
  destruct (decide (id = j)) as [->|Hne].
  - apply lookup_delete_eq.
  - rewrite lookup_delete_ne by exact Hne.
    destruct (timers w !! j) as [u|] eqn:Hj; [|reflexivity].
    assert (timeout w = Some j) by (apply Ho; rewrite Hj; eauto).
    assert (timeout w = Some id) by (apply Ho; rewrite Hv; eauto).
    congruence.
Qed.

Lemma owns_timers_idle (w : wr) : owns_timers w -> timeout w = None -> timers w = empty.
Proof.
  intros Ho Hn. apply map_empty. intros j.
  destruct (timers w !! j) as [u|] eqn:Hj; [|reflexivity].
  assert (timeout w = Some j) by (apply Ho; rewrite Hj; eauto). congruence.
Qed.

Lemma owns_timers_cleared (w : wr) :
  owns_timers w -> timers (clearTimeout (timeout w) w) = empty.
Proof.
  intros Ho. unfold clearTimeout. destruct (timeout w) as [id|] eqn:Ht.
  - cbn. apply map_empty. intros j.
    destruct (decide (id = j)) as [->|Hne].
    + apply lookup_delete_eq.
    + rewrite lookup_delete_ne by exact Hne.
      destruct (timers w !! j) as [u|] eqn:Hj; [|reflexivity].
      assert (timeout w = Some j) by (apply Ho; rewrite Hj; eauto). congruence.
  - apply owns_timers_idle; assumption.
Qed.

Lemma owns_singleton (w : wr) (id : positive) (v : Z * Args) :
  timers w = {[ id := v ]} -> timeout w = Some id -> owns_timers w.
Proof.
  intros Ht Hto j [u Hu]. rewrite Ht in Hu.
  apply lookup_singleton_Some in Hu. destruct Hu as [-> _]. exact Hto.
Qed.

Lemma owns_empty (w : wr) : timers w = empty -> owns_timers w.
Proof. intros Ht j [u Hu]. rewrite Ht, lookup_empty in Hu. discriminate. Qed.

(** *** Throttle *)

Hypothesis arrive_nothing : forall a s, arrive a s = s.

Lemma throttle_step_inv (w0 : wr) (B : list Args) (w w1 : wr) (ev : event Args) :
  let T := now w0 + wait in
  throttle_inv func w0 T B w ->
  dispatched_before T (now w) [ev] ->
  incl (dispatched [ev]) B ->
  step arrive (throttled wait) (throttle_callback func) w ev = Some w1 ->
  throttle_inv func w0 T B w1.
Proof.
  intros T (Ho & Hclk & old & fresh & Hcalls & Hin & Hold & Hlen & Hfr & Hph) Hbefore HB Hs.
  destruct ev as [a | id | dt]; cbn [step] in Hs.
  - (* an event is dispatched *)
    cbn in Hbefore. destruct Hbefore as [Hlt _].
    assert (HaB : In a B) by (apply HB; cbn; auto).
    injection Hs as <-. rewrite arrive_nothing.
    unfold throttled. cbn [timeout].
    destruct (timeout w) as [h|] eqn:Hto.
    + (* ignored *)
      assert (Hw : mkWrapper (Some h) (timers w) (nextTimerId w) (now w) (calls w) (inner w) = w)
        by (destruct w; cbn in *; congruence).
      rewrite Hw. repeat split; auto. exists old, fresh. repeat split; auto.
    + (* a timer is armed *)
      pose proof (owns_timers_idle w Ho Hto) as Hempty.
      unfold setTimeout, set_timeout. cbn.
      split; [|split; [exact Hclk|]].
      * eapply owns_singleton; cbn; [|reflexivity].
        rewrite Hempty. apply insert_empty.
      * exists old, fresh. cbn. repeat split; auto.
        destruct Hph as [(-> & -> & _) | [(-> & _) | [(-> & id & due & b & Ht & Hto' & _) | (_ & _ & _ & HT)]]].
        -- right; right; left. split; [reflexivity|].
           exists (nextTimerId w), (now w + wait), a.
           rewrite Hempty, insert_empty. repeat split; auto. unfold T. lia.
        -- right; right; left. split; [reflexivity|].
           exists (nextTimerId w), (now w + wait), a.
           rewrite Hempty, insert_empty. repeat split; auto. unfold T. lia.
        -- congruence.
        -- lia.
  - (* a timer runs *)
    destruct (timers w !! id) as [[due a]|] eqn:Hid; [|discriminate].
    destruct (due <=? now w) eqn:Hdue; [|discriminate].
    apply Z.leb_le in Hdue. injection Hs as <-.
    pose proof (owns_timers_unique w id _ Ho Hid) as Hdel.
    unfold throttle_callback, apply_func, set_timeout. cbn.
    split; [|split; [exact Hclk|]].
    + apply owns_empty. cbn. exact Hdel.
    + destruct Hph as [(-> & -> & Ht & Hto) | [(-> & Ht & _) | [(-> & id' & due' & b & Ht & Hto' & HT & HbB) | (_ & Ht & _ & _)]]].
      * (* the timer that was pending at the start *)
        cbn in Hcalls, Hin. rewrite app_nil_r in Hcalls.
        exists [a], []. cbn. rewrite Hcalls, Hin. repeat split; auto.
        -- constructor; [|constructor]. exists id, due. rewrite <- Ht. exact Hid.
        -- right; left. auto.
      * rewrite Ht, lookup_empty in Hid. discriminate.
      * (* the timer of the burst *)
        rewrite Ht in Hid. apply lookup_singleton_Some in Hid.
        destruct Hid as [<- Heq]. injection Heq as <- <-.
        rewrite !app_nil_r in Hcalls, Hin.
        exists old, [b]. cbn. rewrite Hcalls, Hin.
        repeat split; auto.
        -- rewrite <- app_assoc. reflexivity.
        -- unfold applied. rewrite fold_left_app. reflexivity.
        -- right; right; right. repeat split; auto. cbn. lia.
      * rewrite Ht, lookup_empty in Hid. discriminate.
  - (* time passes *)
    destruct (0 <=? dt) eqn:Hdt; [|discriminate]. apply Z.leb_le in Hdt.
    injection Hs as <-. cbn.
    split; [exact Ho|]. split; [cbn; lia|].
    exists old, fresh. cbn. repeat split; auto.
    destruct Hph as [H | [H | [H | (H1 & H2 & H3 & H4)]]].
    + left. exact H.
    + right; left. exact H.
    + right; right; left. exact H.
    + right; right; right. repeat split; auto. cbn. lia.
Qed.

Lemma step_clock (listener callback : Args -> wr -> wr) (w w1 : wr) (ev : event Args) :
  (forall a w, now (listener a w) = now w) ->
  (forall a w, now (callback a w) = now w) ->
  step arrive listener callback w ev = Some w1 ->
  now w1 = match ev with Elapse dt => now w + dt | _ => now w end.
Proof.
  intros Hl Hc Hs. destruct ev as [a | id | dt]; cbn [step] in Hs.
  - injection Hs as <-. rewrite Hl. reflexivity.
  - destruct (timers w !! id) as [[due a]|]; [|discriminate].
    destruct (due <=? now w); [|discriminate].
    injection Hs as <-. rewrite Hc. reflexivity.
  - destruct (0 <=? dt); [|discriminate]. injection Hs as <-. reflexivity.
Qed.

Lemma throttled_clock (a : Args) (w : wr) : now (throttled wait a w) = now w.
Proof. unfold throttled. destruct (timeout w); reflexivity. Qed.

Lemma throttle_steps_inv (w0 : wr) (B : list Args) (tr : list (event Args)) :
  forall w w1,
    throttle_inv func w0 (now w0 + wait) B w ->
    dispatched_before (now w0 + wait) (now w) tr ->
    incl (dispatched tr) B ->
    throttle_steps func arrive wait w tr = Some w1 ->
    throttle_inv func w0 (now w0 + wait) B w1.
Proof.
  induction tr as [|ev tr IH]; intros w w1 Hinv Hbefore HB Hs.
  - cbn in Hs. injection Hs as <-. exact Hinv.
  - unfold throttle_steps in Hs. cbn [steps] in Hs.
    destruct (step arrive (throttled wait) (throttle_callback func) w ev) as [w'|] eqn:Hstep;
      [|discriminate].
    pose proof (step_clock (throttled wait) (throttle_callback func) w w' ev
                  throttled_clock (fun a w => eq_refl) Hstep) as Hnow.
    apply (IH w' w1); auto.
    + apply (throttle_step_inv w0 B w w' ev); auto.
      * destruct ev; cbn in Hbefore |- *; tauto.
      * intros a Ha. apply HB. destruct ev; cbn in Ha |- *; tauto.
    + rewrite Hnow. destruct ev; cbn in Hbefore; tauto.
    + intros a Ha. apply HB. destruct ev; cbn; auto.
Qed.

Lemma throttle_inv_start (w0 : wr) (B : list Args) :
  owns_timers w0 -> throttle_inv func w0 (now w0 + wait) B w0.
Proof.
  intros Ho. split; [exact Ho|]. split; [lia|].
  exists [], []. cbn. rewrite app_nil_r. repeat split; auto.
  left. auto.
Qed.

End WrapperFacts.

Lemma last_default {A : Type} (l : list A) :
  forall c a b, List.last (c :: l) a = List.last (c :: l) b.
Proof.
  induction l as [|d l IH]; intros c a b; [reflexivity|].
  change (List.last (d :: l) a = List.last (d :: l) b). apply IH.
Qed.

Lemma last_cons {A : Type} (l : list A) (a b : A) :
  List.last (b :: l) a = List.last l b.
Proof.
  destruct l as [|c l]; [reflexivity|].
  change (List.last (c :: l) a = List.last (c :: l) b). apply last_default.
Qed.

Section DebounceFacts.

Context {Args St : Type}.
Variable func : Args -> St -> St.
Variable arrive : Args -> St -> St.
Variable wait : Z.

Abbreviation dwr := (wrapper Args St).

(** *** Debounce *)

Lemma debounce_first (w0 w : dwr) (a : Args) :
  owns_timers w0 ->
  step arrive (debounced wait) (debounce_callback func) w0 (Dispatch a) = Some w ->
  debounce_inv func arrive w0 (now w0 + wait) [] a w.
Proof.
  intros Ho Hs. cbn [step] in Hs. injection Hs as <-.
  unfold debounced. cbn [timeout].
  set (w' := mkWrapper (timeout w0) (timers w0) (nextTimerId w0) (now w0)
                       (calls w0) (arrive a (inner w0))).
  assert (Hcl : timers (clearTimeout (timeout w0) w') = empty).
  { apply (owns_timers_cleared w'). exact Ho. }
  unfold setTimeout, set_timeout. cbn [timeout timers nextTimerId now calls inner].
  assert (Hnow : now (clearTimeout (timeout w0) w') = now w0)
    by (unfold clearTimeout; destruct (timeout w0); reflexivity).
  assert (Hcalls : calls (clearTimeout (timeout w0) w') = calls w0)
    by (unfold clearTimeout; destruct (timeout w0); reflexivity).
  assert (Hinner : inner (clearTimeout (timeout w0) w') = arrive a (inner w0))
    by (unfold clearTimeout; destruct (timeout w0); reflexivity).
  split; cbn [now]; [lia|]. left. cbn [calls inner timers timeout].
  rewrite Hcalls, Hinner, Hcl, Hnow. repeat split.
  exists (nextTimerId (clearTimeout (timeout w0) w')), (now w0 + wait).
  rewrite insert_empty. repeat split. lia.
Qed.

Lemma debounce_step_inv (w0 : dwr) (T : Z) (D : list Args) (a : Args)
    (w w1 : dwr) (ev : event Args) :
  T = now w0 + wait ->
  debounce_inv func arrive w0 T D a w ->
  dispatched_before T (now w) [ev] ->
  step arrive (debounced wait) (debounce_callback func) w ev = Some w1 ->
  match ev with
  | Dispatch b => debounce_inv func arrive w0 T (D ++ [a]) b w1
  | _ => debounce_inv func arrive w0 T D a w1
  end.
Proof.
  intros HT (Hclk & Hph) Hbefore Hs.
  destruct ev as [b | id | dt]; cbn [step] in Hs.
  - cbn in Hbefore. destruct Hbefore as [Hlt _].
    injection Hs as <-.
    destruct Hph as [(Hcalls & Hin & id & due & Ht & Hto & Hdue) | (_ & _ & _ & Hlate)]; [|lia].
    unfold debounced, clearTimeout, setTimeout, set_timeout.
    cbn [timeout timers nextTimerId now calls inner]. rewrite Hto.
    cbn [timeout timers nextTimerId now calls inner].
    split; cbn [now]; [exact Hclk|]. left.
    cbn [calls inner timers timeout]. split; [exact Hcalls|]. split.
    + rewrite Hin. rewrite (fold_left_app _ (D ++ [a]) [b]). reflexivity.
    + exists (nextTimerId w), (now w + wait).
      rewrite Ht, delete_singleton_eq, insert_empty. repeat split. lia.
  - destruct (timers w !! id) as [[due c]|] eqn:Hid; [|discriminate].
    destruct (due <=? now w) eqn:Hdue; [|discriminate].
    apply Z.leb_le in Hdue. injection Hs as <-.
    destruct Hph as [(Hcalls & Hin & id' & due' & Ht & Hto & Hdue') | (_ & _ & Ht & _)].
    + rewrite Ht in Hid. apply lookup_singleton_Some in Hid.
      destruct Hid as [<- Heq]. injection Heq as <- <-.
      unfold debounce_callback, apply_func.
      cbn [timeout timers nextTimerId now calls inner].
      split; cbn [now]; [exact Hclk|]. right.
      cbn [calls inner timers]. rewrite Hcalls, Hin, Ht, delete_singleton_eq.
      repeat split. lia.
    + rewrite Ht, lookup_empty in Hid. discriminate.
  - destruct (0 <=? dt) eqn:Hdt; [|discriminate]. apply Z.leb_le in Hdt.
    injection Hs as <-. split; cbn [now]; [lia|].
    destruct Hph as [H | (H1 & H2 & H3 & H4)]; [left; exact H | right].
    cbn [calls inner timers now]. repeat split; auto. lia.
Qed.

Lemma debounced_clock (a : Args) (w : dwr) : now (debounced wait a w) = now w.
Proof. unfold debounced, clearTimeout. destruct (timeout w); reflexivity. Qed.

Lemma debounce_steps_inv (w0 : dwr) (tr : list (event Args)) :
  forall D a w w1,
    debounce_inv func arrive w0 (now w0 + wait) D a w ->
    dispatched_before (now w0 + wait) (now w) tr ->
    debounce_steps func arrive wait w tr = Some w1 ->
    exists D', D' ++ [List.last (dispatched tr) a] = (D ++ [a]) ++ dispatched tr /\
      debounce_inv func arrive w0 (now w0 + wait) D'
        (List.last (dispatched tr) a) w1.
Proof.
  induction tr as [|ev tr IH]; intros D a w w1 Hinv Hbefore Hs.
  - cbn in Hs. injection Hs as <-. exists D. cbn. rewrite app_nil_r. auto.
  - unfold debounce_steps in Hs. cbn [steps] in Hs.
    destruct (step arrive (debounced wait) (debounce_callback func) w ev) as [w'|] eqn:Hstep;
      [|discriminate].
    pose proof (step_clock arrive (debounced wait) (debounce_callback func) w w' ev
                  debounced_clock (fun a w => eq_refl) Hstep) as Hnow.
    pose proof (debounce_step_inv w0 (now w0 + wait) D a w w' ev
                  eq_refl Hinv) as Hstep_inv.
    destruct ev as [b | id | dt].
    + cbn in Hbefore. destruct Hbefore as [Hlt Hbefore].
      destruct (IH (D ++ [a]) b w' w1) as (D' & HD' & Hinv').
      * apply Hstep_inv; [cbn; auto | exact Hstep].
      * rewrite Hnow. exact Hbefore.
      * exact Hs.
      * exists D'. cbn [dispatched].
        replace (List.last (b :: dispatched tr) a) with (List.last (dispatched tr) b).
        -- split; [|exact Hinv']. rewrite HD'. rewrite <- !app_assoc. reflexivity.
        -- symmetry. apply last_cons.
    + cbn in Hbefore. apply (IH D a w' w1); auto.
      * apply Hstep_inv; [cbn; auto | exact Hstep].
      * rewrite Hnow. exact Hbefore.
    + cbn in Hbefore. apply (IH D a w' w1); auto.
      * apply Hstep_inv; [cbn; auto | exact Hstep].
      * rewrite Hnow. exact Hbefore.
Qed.

End DebounceFacts.




Lemma resized_dimensions (D : list ResizeEvent) (a : ResizeEvent) (v : viewport) :
  let v' := fold_left (fun s b => window_resized b s) (D ++ [a]) v in
  innerWidth v' = newWidth a /\ innerHeight v' = newHeight a /\
  canvasWidth v' = canvasWidth v /\ canvasHeight v' = canvasHeight v.
Proof.
  cbn zeta. rewrite fold_left_app. cbn.
  repeat split; try reflexivity.
  - clear a. revert v. induction D as [|b D IH]; intros v; [reflexivity|].
    cbn [fold_left]. rewrite IH. reflexivity.
  - clear a. revert v. induction D as [|b D IH]; intros v; [reflexivity|].
    cbn [fold_left]. rewrite IH. reflexivity.
Qed.

(** C7: when a burst of resize events, the first [e1] and then those of
    [rest], is dispatched within one window of 250 ms, each event replaces
    the pending timer, and the canvas is resized exactly once for the burst,
    to the dimensions of the last event [eK]: either the one timer has run,
    or it is the only timer pending, the canvas is still as it was, and
    running the timer when it is due resizes the canvas. *)
Theorem resize_burst_resizes_once
    (w0 w1 : wrapper ResizeEvent viewport) (e1 : ResizeEvent)
    (rest : list (event ResizeEvent)) :
  owns_timers w0 ->
  dispatched_before (now w0 + 250) (now w0) rest ->
  resize_steps w0 (Dispatch e1 :: rest) = Some w1 ->
  let eK := List.last (dispatched rest) e1 in
  let resized (w : wrapper ResizeEvent viewport) :=
    calls w = calls w0 ++ [eK] /\ timers w = empty /\
    canvasWidth (inner w) = newWidth eK /\ canvasHeight (inner w) = newHeight eK in
  resized w1 \/
  (calls w1 = calls w0 /\
   canvasWidth (inner w1) = canvasWidth (inner w0) /\
   canvasHeight (inner w1) = canvasHeight (inner w0) /\
   exists id due,
     timers w1 = {[ id := (due, eK) ]} /\ now w0 + 250 <= due /\
     exists w2,
       resize_steps w1 [Elapse (Z.max 0 (due - now w1)); Timer id] = Some w2 /\
       resized w2).
Proof.
  intros Ho Hbefore Hs eK resized.
  unfold resize_steps, debounce_steps in Hs. cbn [steps] in Hs.
  destruct (step window_resized (debounced resizeDelay)
              (debounce_callback (fun _ : ResizeEvent => resizeCanvas)) w0 (Dispatch e1))
    as [w|] eqn:Hfirst; [|discriminate].
  pose proof (debounce_first _ _ _ w0 w e1 Ho Hfirst) as Hinv.
  pose proof (step_clock window_resized (debounced resizeDelay)
                (debounce_callback (fun _ : ResizeEvent => resizeCanvas)) w0 w _
                (debounced_clock resizeDelay) (fun a w => eq_refl) Hfirst) as Hnow.
  cbn in Hnow.
  destruct (debounce_steps_inv _ _ _ w0 rest [] e1 w w1 Hinv) as (D' & HD' & Hclk & Hph).
  - rewrite Hnow. exact Hbefore.
  - exact Hs.
  - fold eK in HD', Hph. change resizeDelay with 250 in Hph.
    destruct (resized_dimensions D' eK (inner w0)) as (Hiw & Hih & Hcw & Hch).
    destruct Hph as [(Hcalls & Hin & id & due & Ht & Hto & Hdue) | (Hcalls & Hin & Ht & _)].
    + right. rewrite Hin. repeat split; auto.
      exists id, due. repeat split; auto.
      unfold resize_steps, debounce_steps. cbn [steps step].
      assert (Hpos : (0 <=? Z.max 0 (due - now w1)) = true) by (apply Z.leb_le; lia).
      rewrite Hpos. cbn [timers now]. rewrite Ht, lookup_singleton_eq.
      assert (Hd : (due <=? now w1 + Z.max 0 (due - now w1)) = true)
        by (apply Z.leb_le; lia).
      rewrite Hd. eexists. split; [reflexivity|].
      unfold resized, debounce_callback, apply_func. cbn.
      rewrite Hcalls, Hin, delete_singleton_eq. repeat split; auto.
    + left. unfold resized. rewrite Hin. cbn. repeat split; auto.
Qed.

Lemma resize_burst_resizes_once_witness :
  let w0 : wrapper ResizeEvent viewport :=
    mkWrapper None empty 1%positive 0 [] (mkViewport 800 600 800 600) in
  let e1 := mkResizeEvent 900 650 in
  let rest := [Elapse 100; Dispatch (mkResizeEvent 1000 700);
               Elapse 100; Dispatch (mkResizeEvent 1024 768);
               Elapse 250; Timer 3%positive] in
  owns_timers w0 /\
  dispatched_before (now w0 + 250) (now w0) rest /\
  match resize_steps w0 (Dispatch e1 :: rest) with
  | Some w1 =>
      let eK := List.last (dispatched rest) e1 in
      let resized (w : wrapper ResizeEvent viewport) :=
        calls w = calls w0 ++ [eK] /\ timers w = empty /\
        canvasWidth (inner w) = newWidth eK /\
        canvasHeight (inner w) = newHeight eK in
      resized w1 \/
      (calls w1 = calls w0 /\
       canvasWidth (inner w1) = canvasWidth (inner w0) /\
       canvasHeight (inner w1) = canvasHeight (inner w0) /\
       exists id due,
         timers w1 = {[ id := (due, eK) ]} /\ now w0 + 250 <= due /\
         exists w2,
           resize_steps w1 [Elapse (Z.max 0 (due - now w1)); Timer id] = Some w2 /\
           resized w2)
  | None => False
  end.
Proof.
  cbn zeta.
  assert (Ho : owns_timers (mkWrapper (Args:=ResizeEvent) None empty 1%positive 0 []
                              (mkViewport 800 600 800 600))).
  { intros id [v Hv]. cbn in Hv. rewrite lookup_empty in Hv. discriminate. }
  split; [exact Ho|]. split; [cbn; lia|].
  destruct (resize_steps _ _) as [w1|] eqn:Hs.
  - apply (resize_burst_resizes_once _ w1 _ _ Ho); [cbn; lia | exact Hs].
  - vm_compute in Hs. discriminate.
Defined.

(** ** Life and decay *)

Lemma not_positive (v : float) :
  Prim2SF v <> S754_nan -> ((0 <? v)%float = false <-> (v <=? 0)%float = true).
Proof.
  intros N. rewrite leb_F2Z. split.
  - intros H. split; [exact N|]. split; [discriminate|].
    destruct (Z_lt_le_dec (F2Z 0) (F2Z v)) as [Hlt | Hle]; [|exact Hle].
    assert (E : (0 <? v)%float = true)
      by (apply ltb_F2Z; split; [discriminate | split; [exact N | exact Hlt]]).
    congruence.
  - intros (_ & _ & Hle).
    destruct (0 <? v)%float eqn:E; [|reflexivity].
    apply ltb_F2Z in E. destruct E as (_ & _ & E). lia.
Qed.

(** For a particle in flight [update] subtracts the decay rate from the
    life, which strictly decreases, and returns [false] exactly when the
    life left is not positive. *)
Lemma update_in_flight (p : Particle) :
  in_flight p ->
  life (snd (update p)) = (life p - decay p)%float /\
  decay (snd (update p)) = decay p /\
  (life (snd (update p)) <? life p)%float = true /\
  (fst (update p) = false <-> (life (snd (update p)) <=? 0)%float = true).
Proof.
  intros (H0 & H1 & Hd). destruct p as [px py pvx pvy pc ps pl pd].
  cbn in *. split; [reflexivity|]. split; [reflexivity|].
  pose proof (sub_lt pl pd H0 H1 Hd) as Hlt.
  split; [exact Hlt|].
  apply not_positive. apply ltb_F2Z in Hlt. tauto.
Qed.

(** *** The active set holds particles in flight *)

Lemma update_alive (p : Particle) :
  fst (update p) = (0 <? life (snd (update p)))%float.
Proof. destruct p; reflexivity. Qed.

Lemma fresh_in_flight (random : nat -> float) (x0 y0 : float) (p : Particle) :
  unit_interval random -> fresh_at random x0 y0 p -> in_flight p.
Proof.
  intros Hr (_ & _ & Hl & k & Hd). unfold in_flight. rewrite Hl, Hd.
  split; [reflexivity|]. split; [reflexivity|].
  apply add_hundredth_ge, mul_fiftieth_nonneg, Hr.
Qed.

Lemma survivors_in_flight (ps : list Particle) :
  Forall in_flight ps -> Forall in_flight (survivors ps).
Proof.
  unfold survivors. induction 1 as [|p ps Hp _ IH]; [constructor|].
  cbn [List.filter]. destruct (fst (update p)) eqn:Halive; [|exact IH].
  cbn [map]. constructor; [|exact IH].
  destruct (update_in_flight p Hp) as (Hl & Hdec & Hlt & _).
  destruct Hp as (H0 & H1 & Hd).
  unfold in_flight. rewrite Hdec.
  split; [rewrite <- update_alive; exact Halive|]. split; [|exact Hd].
  apply ltb_F2Z in Hlt. apply leb_F2Z in H1. apply leb_F2Z.
destruct Hlt as (N & _ & Hlt). destruct H1 as (_ & N1 & H1).
  split; [exact N|]. split; [exact N1|]. lia.
Qed.

Lemma frame_cases (s : state) :
  (frameRequests s = [] /\ frame s = s) \/
  (exists id rest,
     frameRequests s = id :: rest /\
     frame s = animate (mkState (particles s) (animationId s) rest
                                (nextFrameId s) (randomCalls s) (surface s))).
Proof.
  unfold frame. destruct (frameRequests s) as [|id rest]; [left | right]; eauto.
Qed.

Lemma frame_particles (s : state) :
  particles (frame s) = particles s \/ particles (frame s) = survivors (particles s).
Proof.
  destruct (frame_cases s) as [[_ ->] | (id & rest & _ & ->)]; [left; reflexivity|].
  right. rewrite animate_particles. reflexivity.
Qed.

Lemma frame_in_flight (s : state) :
  Forall in_flight (particles s) -> Forall in_flight (particles (frame s)).
Proof.
  intros H. destruct (frame_particles s) as [-> | ->];
    [exact H | apply survivors_in_flight; exact H].
Qed.

Lemma spawn_in_flight (random : nat -> float) (x0 y0 : float)
    (target : option EventTarget) (s : state) :
  unit_interval random ->
  Forall in_flight (particles s) ->
  Forall in_flight (particles (handleParticleCreation random x0 y0 target s)).
Proof.
  intros Hr H. destruct (shouldCreateParticles target) eqn:Hok.
  - destruct (handleParticleCreation_spawns random x0 y0 target s Hok)
      as (batch & -> & _ & Hfresh).
    apply Forall_app. split; [exact H|].
    eapply Forall_impl; [exact Hfresh|].
    intros p Hp. apply (fresh_in_flight random x0 y0 p Hr Hp).
  - rewrite handleParticleCreation_excluded by exact Hok. exact H.
Qed.

(** *** The frame loop is idle or running *)

Lemma spawn_idle_or_running (random : nat -> float) (x0 y0 : float)
    (target : option EventTarget) (s : state) :
  idle s \/ running s ->
  idle (handleParticleCreation random x0 y0 target s) \/
  running (handleParticleCreation random x0 y0 target s).
Proof.
  intros H. unfold handleParticleCreation.
  destruct (shouldCreateParticles target); cbn [negb]; [|exact H].
  unfold createParticles.
  destruct (createParticles_loop_batch random x0 y0 config.particleCount s)
    as (batch & -> & Hlen & _).
  assert (Hne : particles s ++ batch <> []).
  { destruct batch; [discriminate Hlen|]. intros E.
    apply app_eq_nil in E. destruct E; discriminate. }
  right. cbn [animationId].
  destruct H as [(Ha & Hf & _) | (id & Ha & Hf & _)]; rewrite Ha.
  - unfold requestAnimationFrame, set_animationId. cbn. rewrite Hf.
    exists (nextFrameId s). auto.
  - exists id. cbn. auto.
Qed.

Lemma frame_idle_or_running (s : state) :
  idle s \/ running s -> idle (frame s) \/ running (frame s).
Proof.
  intros H. destruct (frame_cases s) as [[_ ->] | (id & rest & Hreq & ->)];
    [exact H|].
  destruct H as [(_ & Hf & _) | (id' & _ & Hf & _)]; [congruence|].
  assert (rest = []) by congruence. subst rest.
  set (s1 := mkState (particles s) (animationId s) [] (nextFrameId s)
                     (randomCalls s) (surface s)).
  destruct (animate_requests s1) as [Hne He].
  destruct (particles (animate s1)) as [|q qs] eqn:Hp.
  - left. destruct (He eq_refl) as [Hfr Hid]. unfold idle. rewrite Hp.
    split; [exact Hid|]. split; [exact Hfr | reflexivity].
  - right. destruct Hne as [Hfr Hid]; [discriminate|].
    exists (nextFrameId s1). rewrite Hp.
    split; [exact Hid|]. split; [exact Hfr | discriminate].
Qed.

Lemma run_invariant (random : nat -> float) (acts : list action) :
  unit_interval random ->
  forall s,
    Forall in_flight (particles s) -> idle s \/ running s ->
    Forall in_flight (particles (run random acts s)) /\
    (idle (run random acts s) \/ running (run random acts s)).
Proof.
  intros Hr. induction acts as [|a acts IH]; intros s Hp Hl; [auto|].
  unfold run in *. cbn [fold_left]. apply IH.
  - destruct a; cbn [act]; [apply spawn_in_flight | apply frame_in_flight]; auto.
  - destruct a; cbn [act];
      [apply spawn_idle_or_running | apply frame_idle_or_running]; auto.
Qed.

(** C2: for every particle of the active set, whatever spawn requests and
    frames have happened, a call of [update] subtracts the particle's decay
    rate, which it leaves as it was, from its life; the life strictly
    decreases; and [update] returns [false] exactly when the resulting life
    is less than or equal to 0. *)
Theorem update_decays (random : nat -> float) (acts : list action) (p : Particle) :
  unit_interval random ->
  In p (particles (run random acts initial)) ->
  life (snd (update p)) = (life p - decay p)%float /\
  decay (snd (update p)) = decay p /\
  (life (snd (update p)) <? life p)%float = true /\
  (fst (update p) = false <-> (life (snd (update p)) <=? 0)%float = true).
Proof.
  intros Hr Hin. apply update_in_flight.
  destruct (run_invariant random acts Hr initial) as [Hp _].
  { constructor. }
  { left. repeat split. }
  rewrite List.Forall_forall in Hp. apply Hp. exact Hin.
Qed.

Lemma update_decays_witness :
  let acts := [Spawn 100 100 (Some (TargetElement paragraph))] in
  let p := mkParticle 100 100 0 0 (Some "#f9ca24"%string) 2.5 1 0.02 in
  unit_interval half /\
  In p (particles (run half acts initial)) /\
  life (snd (update p)) = (life p - decay p)%float /\
  decay (snd (update p)) = decay p /\
  (life (snd (update p)) <? life p)%float = true /\
  (fst (update p) = false <-> (life (snd (update p)) <=? 0)%float = true).
Proof.
  cbn zeta.
  assert (Hr : unit_interval half) by (intros n; split; reflexivity).
  assert (Hin : In (mkParticle 100 100 0 0 (Some "#f9ca24"%string) 2.5 1 0.02)
                   (particles (run half [Spawn 100 100 (Some (TargetElement paragraph))]
                                 initial)))
    by (vm_compute; left; reflexivity).
  split; [exact Hr|]. split; [exact Hin|].
  apply (update_decays half [Spawn 100 100 (Some (TargetElement paragraph))] _ Hr Hin).
Defined.

(** *** At most 100 updates *)

Lemma life_bound_finite (k : nat) : (k <= 100)%nat -> finite (life_bound k).
Proof.
  intros Hk.
  assert (H : forallb (fun k => finiteSF (Prim2SF (life_bound k))) (seq 0 101) = true)
    by (vm_compute; reflexivity).
  rewrite forallb_forall in H. apply H. apply in_seq. lia.
Qed.

Lemma life_bound_100 : (life_bound 100 <=? 0)%float = true.
Proof. vm_compute. reflexivity. Qed.

Lemma update_aged (k : nat) (p : Particle) :
  (k <= 100)%nat ->
  (life p <=? life_bound k)%float = true ->
  (0.01 <=? decay p)%float = true ->
  (life (snd (update p)) <=? life_bound (S k))%float = true /\
  (0.01 <=? decay (snd (update p)))%float = true.
Proof.
  intros Hk Hl Hd. destruct p as [px py pvx pvy pc ps pl pd]. cbn in *.
  split; [|exact Hd].
  apply sub_le_mono; auto using life_bound_finite, finite_hundredth.
Qed.

Lemma updates_aged (k : nat) (p : Particle) :
  (k <= 100)%nat ->
  (life p <=? 1)%float = true ->
  (0.01 <=? decay p)%float = true ->
  (life (updates k p) <=? life_bound k)%float = true /\
  (0.01 <=? decay (updates k p))%float = true.
Proof.
  intros Hk Hl Hd. induction k as [|k IH]; [split; assumption|].
  destruct (IH ltac:(lia)) as [IHl IHd].
  unfold updates. cbn [Nat.iter]. apply update_aged; [lia | exact IHl | exact IHd].
Qed.

Lemma frame_aged (k : nat) (s : state) :
  (k <= 100)%nat -> idle s \/ running s -> aged k s -> aged (S k) (frame s).
Proof.
  intros Hk Hl Ha. unfold aged in *.
  destruct (frame_cases s) as [[Hreq ->] | (id & rest & _ & ->)].
  - destruct Hl as [(_ & _ & Hp) | (id & _ & Hf & _)]; [|congruence].
    rewrite Hp. constructor.
  - rewrite animate_particles. cbn [particles]. unfold survivors.
    induction Ha as [|p ps [Hpl Hpd] _ IH]; [constructor|].
    cbn [List.filter]. destruct (fst (update p)); [|exact IH].
    cbn [map]. constructor; [|exact IH]. apply update_aged; assumption.
Qed.

Lemma frames_invariant (k : nat) (s : state) :
  (k <= 100)%nat ->
  Forall in_flight (particles s) -> idle s \/ running s ->
  Forall in_flight (particles (Nat.iter k frame s)) /\
  (idle (Nat.iter k frame s) \/ running (Nat.iter k frame s)) /\
  aged k (Nat.iter k frame s).
Proof.
  intros Hk Hp Hl. induction k as [|k IH].
  - cbn [Nat.iter]. split; [exact Hp|]. split; [exact Hl|].
    unfold aged. eapply Forall_impl; [exact Hp|].
    intros p (_ & H1 & Hd). auto.
  - destruct (IH ltac:(lia)) as (IHp & IHl & IHa). cbn [Nat.iter].
    split; [apply frame_in_flight; exact IHp|].
    split; [apply frame_idle_or_running; exact IHl|].
    apply frame_aged; [lia | exact IHl | exact IHa].
Qed.

Lemma aged_out (s : state) :
  Forall in_flight (particles s) -> aged 100 s -> particles s = [].
Proof.
  unfold aged. intros Hp Ha. destruct (particles s) as [|p ps]; [reflexivity|].
  exfalso. inversion Hp as [|? ? (H0 & _) _]; subst.
  inversion Ha as [|? ? (Hl & _) _]; subst.
  apply ltb_F2Z in H0. destruct H0 as (_ & _ & H0).
  apply leb_F2Z in Hl. destruct Hl as (_ & _ & Hl).
  pose proof life_bound_100 as Hb. apply leb_F2Z in Hb. destruct Hb as (_ & _ & Hb).
  lia.
Qed.

(** C10: whatever spawn requests and frames have happened, every particle
    of the active set has a decay rate of at least 0.01, its life is not
    positive after 100 calls of [update], and after 100 further frames
    without a spawn the active set is empty and the frame loop is idle: no
    frame is requested. *)
Theorem particles_expire (random : nat -> float) (acts : list action) :
  unit_interval random ->
  let s := run random acts initial in
  Forall (fun p => (0.01 <=? decay p)%float = true) (particles s) /\
  Forall (fun p => (life (updates 100 p) <=? 0)%float = true) (particles s) /\
  particles (Nat.iter 100 frame s) = [] /\
  animationId (Nat.iter 100 frame s) = None /\
  frameRequests (Nat.iter 100 frame s) = [].
Proof.
  intros Hr s.
  destruct (run_invariant random acts Hr initial) as [Hp Hl].
  { constructor. }
  { left. repeat split. }
  fold s in Hp, Hl.
  split; [|split].
  - eapply Forall_impl; [exact Hp|]. intros p (_ & _ & Hd). exact Hd.
  - eapply Forall_impl; [exact Hp|]. intros p (_ & H1 & Hd).
    destruct (updates_aged 100 p ltac:(lia) H1 Hd) as [Ha _].
    apply leb_F2Z in Ha. destruct Ha as (N & _ & Ha).
    pose proof life_bound_100 as Hb. apply leb_F2Z in Hb.
    destruct Hb as (_ & N0 & Hb).
    apply leb_F2Z. split; [exact N|]. split; [exact N0 | lia].
  - destruct (frames_invariant 100 s ltac:(lia) Hp Hl) as (Hp' & Hl' & Ha').
    pose proof (aged_out _ Hp' Ha') as Hnil.
    split; [exact Hnil|].
    destruct Hl' as [(Ha & Hf & _) | (id & _ & _ & Hne)]; [auto | congruence].
Qed.

Lemma particles_expire_witness :
  let acts := [Spawn 100 100 (Some (TargetElement paragraph)); Frame; Frame] in
  unit_interval half /\
  let s := run half acts initial in
  length (particles s) = 30%nat /\
  Forall (fun p => (0.01 <=? decay p)%float = true) (particles s) /\
  Forall (fun p => (life (updates 100 p) <=? 0)%float = true) (particles s) /\
  particles (Nat.iter 100 frame s) = [] /\
  animationId (Nat.iter 100 frame s) = None /\
  frameRequests (Nat.iter 100 frame s) = [].
Proof.
  cbn zeta.
  assert (Hr : unit_interval half) by (intros n; split; reflexivity).
  split; [exact Hr|]. split; [vm_compute; reflexivity|].
  apply (particles_expire half
           [Spawn 100 100 (Some (TargetElement paragraph)); Frame; Frame] Hr).
Defined.

(** * Further properties of the code *)

(** ** The two variants of [animate] *)

Lemma animate_nonempty (s : state) :
  particles s <> [] ->
  animate s =
    let alive := survivors (particles s) in
    let s1 := mkState alive (animationId s) (frameRequests s) (nextFrameId s)
                      (randomCalls s) alive in
    if (0 <? length alive)%nat then
      let (id, s2) := requestAnimationFrame s1 in set_animationId (Some id) s2
    else set_animationId None s1.
Proof.
  intros Hne. unfold animate. destruct (particles s) as [|p ps] eqn:Hp; [congruence|].
  cbn [length Nat.eqb]. unfold clearRect. cbn [particles set_surface].
  rewrite Hp, animate_loop_survivors. cbn [app]. reflexivity.
Qed.

Lemma animate_base_unfold (s : state) :
  animate_base s =
    let alive := survivors (particles s) in
    let s1 := mkState alive (animationId s) (frameRequests s) (nextFrameId s)
                      (randomCalls s) alive in
    if (0 <? length alive)%nat then
      let (id, s2) := requestAnimationFrame s1 in set_animationId (Some id) s2
    else set_animationId None s1.
Proof.
  unfold animate_base, clearRect. cbn [particles set_surface].
  rewrite filter_update_survivors. cbn [app]. reflexivity.
Qed.

Lemma animate_base_cases (s : state) :
  animate_base s = match particles s with
                   | [] => clearRect (animate s)
                   | _ :: _ => animate s
                   end.
Proof.
  destruct (particles s) as [|p ps] eqn:Hp.
  - rewrite animate_base_unfold. unfold animate. rewrite Hp. cbn.
    unfold clearRect, set_animationId, set_surface. cbn. rewrite Hp. reflexivity.
  - rewrite animate_base_unfold, animate_nonempty by congruence. reflexivity.
Qed.

(** X1: the two variants of [animate] compute the same state whenever the
    active set is not empty; on an empty set the later variant only resets
    [animationId], while the earlier one also clears the canvas. *)
Theorem animate_variants (s : state) :
  animate_base s = match particles s with
                   | [] => clearRect (animate s)
                   | _ :: _ => animate s
                   end.
Proof. exact (animate_base_cases s). Qed.

(** ** What every reachable engine state satisfies *)

Lemma run_idle_or_running (random : nat -> float) (acts : list action) :
  forall s, idle s \/ running s ->
            idle (run random acts s) \/ running (run random acts s).
Proof.
  induction acts as [|a acts IH]; intros s Hl; [exact Hl|].
  unfold run in *. cbn [fold_left]. apply IH.
  destruct a; cbn [act];
    [apply spawn_idle_or_running | apply frame_idle_or_running]; exact Hl.
Qed.

Lemma initial_idle : idle initial.
Proof. repeat split. Qed.

(** X2: whatever spawn requests and frames have happened, the frame loop is
    in one of two states: no frame is requested, [animationId] is [null] and
    the active set is empty; or exactly one frame is requested,
    [animationId] holds its handle and the active set is not empty.  So two
    loops never run side by side, and particles are never left without a
    frame to come. *)
Theorem one_frame_loop (random : nat -> float) (acts : list action) :
  let s := run random acts initial in
  (animationId s = None /\ frameRequests s = [] /\ particles s = []) \/
  (exists id, animationId s = Some id /\ frameRequests s = [id] /\ particles s <> []).
Proof. exact (run_idle_or_running random acts initial (or_introl initial_idle)). Qed.

Lemma animate_surface (s : state) :
  particles s <> [] -> surface (animate s) = particles (animate s).
Proof.
  intros Hne. rewrite animate_nonempty by exact Hne. cbn zeta.
  destruct (0 <? length (survivors (particles s)))%nat; reflexivity.
Qed.

Lemma spawn_surface (random : nat -> float) (x0 y0 : float)
    (target : option EventTarget) (s : state) :
  surface (handleParticleCreation random x0 y0 target s) = surface s.
Proof.
  unfold handleParticleCreation.
  destruct (shouldCreateParticles target); cbn [negb]; [|reflexivity].
  unfold createParticles.
  destruct (createParticles_loop_batch random x0 y0 config.particleCount s)
    as (batch & -> & _). cbn [animationId].
  destruct (animationId s); reflexivity.
Qed.

Lemma spawn_running (random : nat -> float) (x0 y0 : float)
    (target : option EventTarget) (s : state) :
  running s -> running (handleParticleCreation random x0 y0 target s).
Proof.
  intros (id & Ha & Hf & Hne). unfold handleParticleCreation.
  destruct (shouldCreateParticles target); cbn [negb]; [|exists id; auto].
  unfold createParticles.
  destruct (createParticles_loop_batch random x0 y0 config.particleCount s)
    as (batch & -> & _). cbn [animationId]. rewrite Ha.
  exists id. cbn [animationId frameRequests particles].
  split; [reflexivity|]. split; [exact Hf|].
  intros E. apply app_eq_nil in E. destruct E. congruence.
Qed.

Lemma run_clean_when_idle (random : nat -> float) (acts : list action) :
  forall s, idle s \/ running s -> (idle s -> surface s = []) ->
            idle (run random acts s) -> surface (run random acts s) = [].
Proof.
  induction acts as [|a acts IH]; intros s Hl Hc; [exact Hc|].
  unfold run in *. cbn [fold_left]. apply IH.
  - destruct a; cbn [act];
      [apply spawn_idle_or_running | apply frame_idle_or_running]; exact Hl.
  - destruct a as [x0 y0 target|]; cbn [act].
    + intros Hi. rewrite spawn_surface. apply Hc.
      destruct Hl as [Hl | Hrun]; [exact Hl|].
      exfalso. destruct (spawn_running random x0 y0 target s Hrun) as (id & Ha & _).
      destruct Hi as (Hi & _). congruence.
    + intros Hi. destruct (frame_cases s) as [[_ E] | (id & rest & Hreq & E)].
      * rewrite E in *. apply Hc. exact Hi.
      * destruct Hl as [(_ & Hf & _) | (id' & _ & _ & Hne)]; [congruence|].
        rewrite E in *. rewrite animate_surface by exact Hne.
        destruct Hi as (_ & _ & Hp). exact Hp.
Qed.

(** X3: a frame paints exactly the active set: after any frame of the loop
    the circles on the canvas are the particles of the active set, in
    order, and whenever the active set is empty the canvas is clear. *)
Theorem canvas_shows_active_set (random : nat -> float) (acts : list action) :
  let s := run random acts initial in
  surface (frame s) = particles (frame s) /\
  (particles s = [] -> surface s = []).
Proof.
  cbn zeta.
  pose proof (run_idle_or_running random acts initial (or_introl initial_idle)) as Hl.
  assert (Hclean : idle (run random acts initial) ->
                   surface (run random acts initial) = []).
  { apply run_clean_when_idle; [left; exact initial_idle | reflexivity]. }
  set (s := run random acts initial) in *. split.
  - destruct (frame_cases s) as [[Hreq E] | (id & rest & Hreq & E)].
    + rewrite E. destruct Hl as [Hi | (id & _ & Hf & _)]; [|congruence].
      rewrite (Hclean Hi). destruct Hi as (_ & _ & Hp). symmetry. exact Hp.
    + destruct Hl as [(_ & Hf & _) | (id' & _ & _ & Hne)]; [congruence|].
      rewrite E. apply animate_surface. exact Hne.
  - intros Hp. destruct Hl as [Hi | (id & _ & _ & Hne)]; [auto | congruence].
Qed.

Lemma survivors_length (ps : list Particle) :
  (length (survivors ps) <= length ps)%nat.
Proof.
  unfold survivors. rewrite length_map. apply List.filter_length_le.
Qed.

Lemma frame_length (s : state) :
  (length (particles (frame s)) <= length (particles s))%nat.
Proof.
  destruct (frame_particles s) as [-> | ->]; [lia | apply survivors_length].
Qed.

Lemma spawn_length (random : nat -> float) (x0 y0 : float)
    (target : option EventTarget) (s : state) :
  (length (particles (handleParticleCreation random x0 y0 target s))
     <= length (particles s) + 30)%nat.
Proof.
  destruct (shouldCreateParticles target) eqn:Hok.
  - destruct (handleParticleCreation_spawns random x0 y0 target s Hok)
      as (batch & -> & Hlen & _).
    rewrite length_app, Hlen. unfold config.particleCount. lia.
  - rewrite handleParticleCreation_excluded by exact Hok. lia.
Qed.

(** X4: the active set only grows by spawn requests: a frame never adds a
    particle, and after any sequence of actions the active set holds at most
    30 particles for each spawn request made. *)
Theorem active_set_is_bounded (random : nat -> float) (acts : list action) (s : state) :
  (length (particles (frame s)) <= length (particles s))%nat /\
  (length (particles (run random acts s))
     <= length (particles s) + 30 * spawn_requests acts)%nat.
Proof.
  split; [apply frame_length|].
  revert s. induction acts as [|a acts IH]; intros s; [cbn; lia|].
  unfold run in *. cbn [fold_left]. etransitivity; [apply IH|].
  destruct a as [x0 y0 target|]; cbn [act spawn_requests].
  - pose proof (spawn_length random x0 y0 target s). lia.
  - pose proof (frame_length s). lia.
Qed.

(** ** The earlier variant against the later one *)

Lemma handle_same_verdict (random : nat -> float) (x0 y0 : float)
    (target : option EventTarget) (s : state) :
  same_verdict (Spawn x0 y0 target) ->
  act_base random s (Spawn x0 y0 target) = handleParticleCreation random x0 y0 target s.
Proof.
  cbn [same_verdict act_base]. unfold handle_base, handleParticleCreation.
  destruct (excluded_base target) as [[|]|]; intros ->; reflexivity.
Qed.

(** X5: on every sequence of spawn requests and frames whose targets the
    two exclusion tests treat alike, the earlier variant and the later one
    go through the same engine states: the emptiness test that the later
    [animate] adds is never reached with an empty active set. *)
Theorem variants_agree (random : nat -> float) (acts : list action) :
  Forall same_verdict acts ->
  run_base random acts initial = run random acts initial.
Proof.
  intros Hall.
  assert (H : forall s, idle s \/ running s ->
                        run_base random acts s = run random acts s).
  { induction Hall as [|a acts Ha _ IH]; intros s Hl; [reflexivity|].
    unfold run_base, run in *. cbn [fold_left].
    assert (E : act_base random s a = act random s a).
    { destruct a as [x0 y0 target|]; [apply handle_same_verdict; exact Ha|].
      cbn [act_base act]. unfold frame_base, frame.
      destruct (frameRequests s) as [|id rest] eqn:Hreq; [reflexivity|].
      rewrite animate_base_cases. cbn [particles].
      destruct Hl as [(_ & Hf & _) | (id' & _ & _ & Hne)]; [congruence|].
      destruct (particles s); [congruence | reflexivity]. }
    rewrite E. apply IH.
    destruct a; cbn [act];
      [apply spawn_idle_or_running | apply frame_idle_or_running]; exact Hl. }
  apply H. left. exact initial_idle.
Qed.

Lemma variants_agree_witness :
  let acts := [Spawn 100 100 (Some (TargetElement paragraph)); Frame;
               Spawn 10 20 (Some (TargetElement code_in_pre)); Frame] in
  Forall same_verdict acts /\
  run_base half acts initial = run half acts initial.
Proof.
  cbn zeta.
  assert (H : Forall same_verdict
                [Spawn 100 100 (Some (TargetElement paragraph)); Frame;
                 Spawn 10 20 (Some (TargetElement code_in_pre)); Frame]).
  { repeat constructor. }
  split; [exact H|]. apply (variants_agree half _ H).
Defined.

(** ** The exclusion test *)

Lemma includes_In (l : list string) (name : string) :
  includes l (Some name) = true <-> In name l.
Proof.
  unfold includes. rewrite existsb_exists. split.
  - intros (x & Hx & He). apply String.eqb_eq in He. subst. exact Hx.
  - intros H. exists name. split; [exact H | apply String.eqb_refl].
Qed.

Lemma within_false (sels : list string) (e : Element) :
  within sels e = false <->
  forall a sel, In a (ancestors_or_self e) -> In sel sels -> matches sel a = false.
Proof.
  unfold within. split.
  - intros H a sel Ha Hs.
    destruct (matches sel a) eqn:Hm; [|reflexivity].
    assert (E : existsb (fun sel => existsb (matches sel) (ancestors_or_self e)) sels = true).
    { apply existsb_exists. exists sel. split; [exact Hs|].
      apply existsb_exists. exists a. auto. }
    congruence.
  - intros H.
    destruct (existsb _ sels) eqn:E; [|reflexivity].
    apply existsb_exists in E. destruct E as (sel & Hs & E).
    apply existsb_exists in E. destruct E as (a & Ha & Hm).
    rewrite (H a sel Ha Hs) in Hm. discriminate.
Qed.

(** X6: [shouldCreateParticles] accepts an element exactly when its tag
    name is none of CODE, PRE, BUTTON, A, INPUT, TEXTAREA, SELECT and neither
    the element nor any of its ancestors matches [pre], [code], [button],
    [.copy-btn] or [a]; and it accepts a target that is not an element, which
    has no tag name and no [closest]. *)
Theorem spawn_allowed_exactly (e : Element) :
  (shouldCreateParticles (Some (TargetElement e)) = true <->
   ~ In (tagName e) excludeSelectors /\
   forall a sel, In a (ancestors_or_self e) -> In sel excludeContainers ->
                 matches sel a = false) /\
  shouldCreateParticles (Some TargetOther) = true.
Proof.
  split; [|reflexivity].
  rewrite shouldCreateParticles_element, andb_true_iff, !negb_true_iff.
  rewrite within_false. split.
  - intros [Hi Hw]. split; [|exact Hw].
    intros Hin. apply includes_In in Hin. congruence.
  - intros [Hi Hw]. split; [|exact Hw].
    destruct (includes excludeSelectors (Some (tagName e))) eqn:E; [|reflexivity].
    apply includes_In in E. contradiction.
Qed.

(** ** [throttle] and [debounce] on arbitrary sequences of events *)

Section WrapperExtras.

Context {Args St : Type}.
Variable func : Args -> St -> St.
Variable arrive : Args -> St -> St.
Variable wait : Z.

Abbreviation xwr := (wrapper Args St).

Lemma steps_app (listener callback : Args -> xwr -> xwr) (tr1 tr2 : list (event Args)) :
  forall w,
    steps arrive listener callback w (tr1 ++ tr2) =
      match steps arrive listener callback w tr1 with
      | Some w' => steps arrive listener callback w' tr2
      | None => None
      end.
Proof.
  induction tr1 as [|ev tr1 IH]; intros w; [reflexivity|].
  cbn [app steps]. destruct (step arrive listener callback w ev); [apply IH | reflexivity].
Qed.

Lemma steps_invariant (listener callback : Args -> xwr -> xwr) (P : xwr -> Prop) :
  (forall w w' ev, P w -> step arrive listener callback w ev = Some w' -> P w') ->
  forall tr w w', P w -> steps arrive listener callback w tr = Some w' -> P w'.
Proof.
  intros Hstep. induction tr as [|ev tr IH]; intros w w' HP Hs.
  - cbn in Hs. injection Hs as <-. exact HP.
  - cbn [steps] in Hs.
    destruct (step arrive listener callback w ev) as [w1|] eqn:E; [|discriminate].
    apply (IH w1 w'); [apply (Hstep w w1 ev HP E) | exact Hs].
Qed.

(** *** One timer at most *)

Lemma throttle_step_owns (w w' : xwr) (ev : event Args) :
  owns_timers w ->
  step arrive (throttled wait) (throttle_callback func) w ev = Some w' ->
  owns_timers w'.
Proof.
  intros Ho Hs. destruct ev as [a | id | dt]; cbn [step] in Hs.
  - injection Hs as <-. unfold throttled. cbn [timeout].
    destruct (timeout w) as [h|] eqn:Hto.
    + intros id Hid. cbn [timers timeout] in *. rewrite <- Hto. apply Ho. exact Hid.
    + eapply owns_singleton; cbn; [|reflexivity].
      rewrite (owns_timers_idle w Ho Hto). apply insert_empty.
  - destruct (timers w !! id) as [[due a]|] eqn:Hid; [|discriminate].
    destruct (due <=? now w); [|discriminate]. injection Hs as <-.
    apply owns_empty. cbn. apply (owns_timers_unique w id _ Ho Hid).
  - destruct (0 <=? dt); [|discriminate]. injection Hs as <-. exact Ho.
Qed.

Lemma debounce_step_owns (w w' : xwr) (ev : event Args) :
  owns_timers w ->
  step arrive (debounced wait) (debounce_callback func) w ev = Some w' ->
  owns_timers w'.
Proof.
  intros Ho Hs. destruct ev as [a | id | dt]; cbn [step] in Hs.
  - injection Hs as <-. unfold debounced. cbn [timeout].
    set (w1 := mkWrapper (timeout w) (timers w) (nextTimerId w) (now w)
                         (calls w) (arrive a (inner w))).
    assert (Hcl : timers (clearTimeout (timeout w) w1) = empty)
      by (apply (owns_timers_cleared w1); exact Ho).
    eapply owns_singleton; cbn; [|reflexivity].
    rewrite Hcl. apply insert_empty.
  - destruct (timers w !! id) as [[due a]|] eqn:Hid; [|discriminate].
    destruct (due <=? now w); [|discriminate]. injection Hs as <-.
    apply owns_empty. cbn. apply (owns_timers_unique w id _ Ho Hid).
  - destruct (0 <=? dt); [|discriminate]. injection Hs as <-. exact Ho.
Qed.

Lemma owns_size (w : xwr) : owns_timers w -> (base.size (timers w) <= 1)%nat.
Proof.
  intros Ho. destruct (timeout w) as [id|] eqn:Hto.
  - destruct (timers w !! id) as [v|] eqn:Hid.
    + assert (E : timers w = {[ id := v ]}).
      { apply map_eq. intros j. destruct (decide (id = j)) as [<-|Hne].
        - rewrite lookup_singleton_eq. exact Hid.
        - rewrite lookup_singleton_ne by exact Hne.
          destruct (timers w !! j) as [u|] eqn:Hj; [|reflexivity].
          assert (timeout w = Some j) by (apply Ho; rewrite Hj; eauto). congruence. }
      rewrite E, map_size_singleton. lia.
    + assert (E : timers w = empty).
      { apply map_empty. intros j.
        destruct (timers w !! j) as [u|] eqn:Hj; [|reflexivity].
        assert (timeout w = Some j) by (apply Ho; rewrite Hj; eauto). congruence. }
      rewrite E, map_size_empty. lia.
  - rewrite (owns_timers_idle w Ho Hto), map_size_empty. lia.
Qed.

(** X7: both wrappers keep at most one timer pending, whatever events are
    dispatched and whenever timers run: if every pending timer is the one
    [timeout] names when a sequence of events starts, the same holds after
    it, under [throttle] and under [debounce]. *)
Theorem one_timer_pending (w0 w1 : xwr) (tr : list (event Args)) :
  owns_timers w0 ->
  throttle_steps func arrive wait w0 tr = Some w1 \/
  debounce_steps func arrive wait w0 tr = Some w1 ->
  owns_timers w1 /\ (base.size (timers w1) <= 1)%nat.
Proof.
  intros Ho Hs.
  assert (Ho1 : owns_timers w1).
  { destruct Hs as [Hs | Hs].
    - apply (steps_invariant (throttled wait) (throttle_callback func) owns_timers
               throttle_step_owns tr w0 w1 Ho Hs).
    - apply (steps_invariant (debounced wait) (debounce_callback func) owns_timers
               debounce_step_owns tr w0 w1 Ho Hs). }
  split; [exact Ho1 | apply owns_size; exact Ho1].
Qed.

(** *** The handler of [throttle] runs at most once per [wait] *)

Lemma throttle_step_armed (T : Z) (w w' : xwr) (ev : event Args) :
  (T <= now w + wait /\
   forall id due a, timers w !! id = Some (due, a) -> T <= due) ->
  step arrive (throttled wait) (throttle_callback func) w ev = Some w' ->
  T <= now w' + wait /\
  forall id due a, timers w' !! id = Some (due, a) -> T <= due.
Proof.
  intros [Hclk Harm] Hs. destruct ev as [a | id | dt]; cbn [step] in Hs.
  - injection Hs as <-. unfold throttled. cbn [timeout].
    destruct (timeout w) as [h|]; cbn; [split; assumption|].
    split; [exact Hclk|]. intros id due b Hl.
    apply lookup_insert_Some in Hl. destruct Hl as [[_ E] | [_ Hl]].
    + injection E as <- _. exact Hclk.
    + apply (Harm id due b Hl).
  - destruct (timers w !! id) as [[due a]|] eqn:Hid; [|discriminate].
    destruct (due <=? now w); [|discriminate]. injection Hs as <-. cbn.
    split; [exact Hclk|]. intros j due' b Hl.
    apply lookup_delete_Some in Hl. destruct Hl as [_ Hl]. apply (Harm j due' b Hl).
  - destruct (0 <=? dt) eqn:Hdt; [|discriminate]. apply Z.leb_le in Hdt.
    injection Hs as <-. cbn. split; [lia | exact Harm].
Qed.

Lemma throttle_step_calls (w w' : xwr) (ev : event Args) :
  step arrive (throttled wait) (throttle_callback func) w ev = Some w' ->
  exists more, calls w' = calls w ++ more.
Proof.
  intros Hs. destruct ev as [a | id | dt]; cbn [step] in Hs.
  - injection Hs as <-. unfold throttled. cbn [timeout].
    destruct (timeout w); exists []; cbn; rewrite app_nil_r; reflexivity.
  - destruct (timers w !! id) as [[due a]|]; [|discriminate].
    destruct (due <=? now w); [|discriminate]. injection Hs as <-.
    exists [a]. reflexivity.
  - destruct (0 <=? dt); [|discriminate]. injection Hs as <-.
    exists []. cbn. rewrite app_nil_r. reflexivity.
Qed.

(** X8: [throttle] limits the rate on any sequence of events: when the
    wrapped function has run (for [a1]) and later runs again (for [a2]), at
    least [wait] milliseconds have passed between the two runs. *)
Theorem throttle_runs_apart (w0 w1 w2 : xwr) (id1 id2 : positive)
    (tr : list (event Args)) :
  owns_timers w0 ->
  throttle_steps func arrive wait w0 [Timer id1] = Some w1 ->
  throttle_steps func arrive wait w1 (tr ++ [Timer id2]) = Some w2 ->
  (exists a1 mid a2,
     calls w1 = calls w0 ++ [a1] /\ calls w2 = calls w1 ++ mid ++ [a2]) /\
  now w1 + wait <= now w2.
Proof.
  intros Ho H1 H2.
  unfold throttle_steps in *. cbn [steps step] in H1.
  destruct (timers w0 !! id1) as [[due1 a1]|] eqn:Hid1; [|discriminate].
  destruct (due1 <=? now w0); [|discriminate]. injection H1 as <-.
  pose proof (owns_timers_unique w0 id1 _ Ho Hid1) as Hempty.
  rewrite steps_app in H2.
  match type of H2 with
  | match ?x with _ => _ end = _ => destruct x as [w|] eqn:Htr; [|discriminate]
  end.
  set (w1 := throttle_callback func a1
               (mkWrapper (timeout w0) (delete id1 (timers w0)) (nextTimerId w0)
                          (now w0) (calls w0) (inner w0))) in *.
  assert (Hinv : now w1 + wait <= now w + wait /\
                 forall id due a, timers w !! id = Some (due, a) -> now w1 + wait <= due).
  { refine (steps_invariant (throttled wait) (throttle_callback func)
              (fun w => now w1 + wait <= now w + wait /\
                        forall id due a, timers w !! id = Some (due, a) ->
                                         now w1 + wait <= due)
              (throttle_step_armed (now w1 + wait)) tr w1 w _ Htr).
    split; [lia|]. intros id due a Hl. cbn in Hl.
    rewrite Hempty, lookup_empty in Hl. discriminate. }
  destruct Hinv as [_ Harm].
  assert (Hmid : exists mid, calls w = calls w1 ++ mid).
  { refine (steps_invariant (throttled wait) (throttle_callback func)
              (fun w => exists mid, calls w = calls w1 ++ mid) _ tr w1 w _ Htr).
    - intros v v' ev [mid Hv] Hstep.
      destruct (throttle_step_calls v v' ev Hstep) as [more Hmore].
      exists (mid ++ more). rewrite Hmore, Hv, app_assoc. reflexivity.
    - exists []. rewrite app_nil_r. reflexivity. }
  destruct Hmid as [mid Hmid].
  cbn [steps step] in H2.
  destruct (timers w !! id2) as [[due2 a2]|] eqn:Hid2; [|discriminate].
  destruct (due2 <=? now w) eqn:Hdue; [|discriminate]. apply Z.leb_le in Hdue.
  injection H2 as <-.
  pose proof (Harm id2 due2 a2 Hid2). split.
  - exists a1, mid, a2. split; [reflexivity|]. cbn. rewrite Hmid, app_assoc. reflexivity.
  - cbn [now throttle_callback apply_func set_timeout]. lia.
Qed.

(** *** A burst under [throttle] is served with its first event *)

Lemma throttle_first_step (a1 : Args) (w w' : xwr) (calls0 : list Args) (T : Z)
    (ev : event Args) :
  (calls w = calls0 /\
   (exists id, timers w = {[ id := (T, a1) ]} /\ timeout w = Some id)) \/
  (calls w = calls0 ++ [a1] /\ timers w = empty /\ timeout w = None /\ T <= now w) ->
  dispatched_before T (now w) [ev] ->
  step arrive (throttled wait) (throttle_callback func) w ev = Some w' ->
  (calls w' = calls0 /\
   (exists id, timers w' = {[ id := (T, a1) ]} /\ timeout w' = Some id)) \/
  (calls w' = calls0 ++ [a1] /\ timers w' = empty /\ timeout w' = None /\ T <= now w').
Proof.
  intros Hph Hbefore Hs. destruct ev as [a | id | dt]; cbn [step] in Hs.
  - cbn in Hbefore. destruct Hbefore as [Hlt _]. injection Hs as <-.
    unfold throttled. cbn [timeout].
    destruct Hph as [(Hc & id & Ht & Hto) | (_ & _ & _ & HT)]; [|lia].
    rewrite Hto. left. cbn. split; [exact Hc|]. exists id. auto.
  - destruct (timers w !! id) as [[due a]|] eqn:Hid; [|discriminate].
    destruct (due <=? now w) eqn:Hdue; [|discriminate]. apply Z.leb_le in Hdue.
    injection Hs as <-.
    destruct Hph as [(Hc & id' & Ht & Hto) | (_ & Ht & _)].
    + rewrite Ht in Hid. apply lookup_singleton_Some in Hid.
      destruct Hid as [<- E]. injection E as <- <-.
      right. cbn. rewrite Hc, Ht, delete_singleton_eq. repeat split. lia.
    + rewrite Ht, lookup_empty in Hid. discriminate.
  - destruct (0 <=? dt) eqn:Hdt; [|discriminate]. apply Z.leb_le in Hdt.
    injection Hs as <-. cbn.
    destruct Hph as [H | (Hc & Ht & Hto & HT)]; [left; exact H | right].
    repeat split; auto. lia.
Qed.

Lemma throttle_first_served (w0 w1 : xwr) (a1 : Args) (rest : list (event Args)) :
  owns_timers w0 -> timeout w0 = None ->
  dispatched_before (now w0 + wait) (now w0) rest ->
  throttle_steps func arrive wait w0 (Dispatch a1 :: rest) = Some w1 ->
  (calls w1 = calls w0 /\
   (exists id, timers w1 = {[ id := (now w0 + wait, a1) ]} /\ timeout w1 = Some id)) \/
  (calls w1 = calls w0 ++ [a1] /\ timers w1 = empty /\ timeout w1 = None /\
   now w0 + wait <= now w1).
Proof.
  intros Ho Hidle Hbefore Hs. unfold throttle_steps in Hs. cbn [steps] in Hs.
  destruct (step arrive (throttled wait) (throttle_callback func) w0 (Dispatch a1))
    as [w|] eqn:E0; [|discriminate].
  assert (Hph : (calls w = calls w0 /\
                 (exists id, timers w = {[ id := (now w0 + wait, a1) ]} /\
                             timeout w = Some id)) \/
                (calls w = calls w0 ++ [a1] /\ timers w = empty /\
                 timeout w = None /\ now w0 + wait <= now w)).
  { cbn [step] in E0. injection E0 as <-. unfold throttled. cbn [timeout].
    rewrite Hidle. cbn. rewrite (owns_timers_idle w0 Ho Hidle), insert_empty.
    left. split; [reflexivity|]. exists (nextTimerId w0). split; reflexivity. }
  pose proof (step_clock arrive (throttled wait) (throttle_callback func) w0 w _
                (throttled_clock wait) (fun a w => eq_refl) E0) as Hnow0.
  cbn in Hnow0. rewrite <- Hnow0 in Hbefore at 2. clear E0 Hnow0.
  revert w Hph Hs Hbefore. induction rest as [|ev rest IH]; intros w Hph Hs Hbefore.
  - cbn in Hs. injection Hs as <-. exact Hph.
  - cbn [steps] in Hs.
    destruct (step arrive (throttled wait) (throttle_callback func) w ev) as [w'|] eqn:E;
      [|discriminate].
    pose proof (step_clock arrive (throttled wait) (throttle_callback func) w w' ev
                  (throttled_clock wait) (fun a w => eq_refl) E) as Hnow.
    apply (IH w').
    + apply (throttle_first_step a1 w w' (calls w0) (now w0 + wait) ev Hph); [|exact E].
      destruct ev; cbn in Hbefore |- *; tauto.
    + exact Hs.
    + rewrite Hnow. destruct ev; cbn in Hbefore; tauto.
Qed.

(** X9: a throttled listener that is idle serves a burst with the
    arguments of its first event: when the events after [a1] all come within
    [wait] milliseconds of it, the wrapped function has either not run yet,
    the timer holding [a1] being due [wait] milliseconds after the first
    event, or it has run once, for [a1]; the later events of the burst are
    dropped, not queued. *)
Theorem throttle_serves_first (w0 w1 : xwr) (a1 : Args) (rest : list (event Args)) :
  owns_timers w0 -> timeout w0 = None ->
  dispatched_before (now w0 + wait) (now w0) rest ->
  throttle_steps func arrive wait w0 (Dispatch a1 :: rest) = Some w1 ->
  (calls w1 = calls w0 /\
   (exists id, timers w1 = {[ id := (now w0 + wait, a1) ]} /\ timeout w1 = Some id)) \/
  (calls w1 = calls w0 ++ [a1] /\ timers w1 = empty /\ timeout w1 = None /\
   now w0 + wait <= now w1).
Proof. exact (throttle_first_served w0 w1 a1 rest). Qed.

(** *** The wrapped function runs for dispatched events only, once each *)

Lemma timer_step_served (callback : Args -> xwr -> xwr) (w w' : xwr) (id : positive) :
  (forall a v, callback a v = apply_func func a v \/
               callback a v = apply_func func a (set_timeout None v)) ->
  step arrive (fun _ v => v) callback w (Timer id) = Some w' ->
  exists a, calls w' = calls w ++ [a] /\ pending_in w a /\
            timers w' = delete id (timers w) /\ is_Some (timers w !! id).
Proof.
  intros Hcb Hs. cbn [step] in Hs.
  destruct (timers w !! id) as [[due a]|] eqn:Hid; [|discriminate].
  destruct (due <=? now w); [|discriminate]. injection Hs as <-.
  exists a. split; [|split; [exists id, due; exact Hid | split; [|eauto]]];
    destruct (Hcb a (mkWrapper (timeout w) (delete id (timers w)) (nextTimerId w)
                               (now w) (calls w) (inner w))) as [-> | ->];
    reflexivity.
Qed.

Lemma served_step (listener callback : Args -> xwr -> xwr) (w w' : xwr)
    (ev : event Args) :
  (forall a v, callback a v = apply_func func a v \/
               callback a v = apply_func func a (set_timeout None v)) ->
  (forall a v, calls (listener a v) = calls v /\
               (base.size (timers (listener a v)) <= S (base.size (timers v)))%nat /\
               forall b, pending_in (listener a v) b -> pending_in v b \/ b = a) ->
  step arrive listener callback w ev = Some w' ->
  exists more,
    calls w' = calls w ++ more /\ Forall (pending_in w) more /\
    (forall b, pending_in w' b -> pending_in w b \/ In b (dispatched [ev])) /\
    (length more + base.size (timers w')
       <= base.size (timers w) + length (dispatched [ev]))%nat.
Proof.
  intros Hcb Hl Hs. destruct ev as [a | id | dt].
  - cbn [step] in Hs. injection Hs as <-.
    destruct (Hl a (mkWrapper (timeout w) (timers w) (nextTimerId w) (now w)
                              (calls w) (arrive a (inner w)))) as (Hc & Hsz & Hp).
    exists []. rewrite Hc. cbn [calls timers] in *. rewrite app_nil_r.
    split; [reflexivity|]. split; [constructor|]. split.
    + intros b Hb. destruct (Hp b Hb) as [H | ->]; [left; exact H | right; left; reflexivity].
    + cbn. lia.
  - assert (Hs' : step arrive (fun _ v => v) callback w (Timer id) = Some w') by exact Hs.
    destruct (timer_step_served callback w w' id Hcb Hs') as (a & Hc & Hpa & Ht & Hsome).
    exists [a]. split; [exact Hc|]. split; [constructor; [exact Hpa | constructor]|].
    split.
    + intros b (j & due & Hj). rewrite Ht in Hj.
      apply lookup_delete_Some in Hj. destruct Hj as [_ Hj]. left. exists j, due. exact Hj.
    + rewrite Ht, map_size_delete_Some by exact Hsome.
      pose proof (map_size_ne_0_lookup_2 (timers w) id Hsome). cbn. lia.
  - cbn [step] in Hs. destruct (0 <=? dt); [|discriminate]. injection Hs as <-.
    exists []. cbn. rewrite app_nil_r. split; [reflexivity|]. split; [constructor|].
    split; [intros b Hb; left; exact Hb | lia].
Qed.

Lemma served_steps (listener callback : Args -> xwr -> xwr) :
  (forall a v, callback a v = apply_func func a v \/
               callback a v = apply_func func a (set_timeout None v)) ->
  (forall a v, calls (listener a v) = calls v /\
               (base.size (timers (listener a v)) <= S (base.size (timers v)))%nat /\
               forall b, pending_in (listener a v) b -> pending_in v b \/ b = a) ->
  forall tr w w',
    steps arrive listener callback w tr = Some w' ->
    exists new,
      calls w' = calls w ++ new /\
      Forall (fun a => pending_in w a \/ In a (dispatched tr)) new /\
      (length new + base.size (timers w')
         <= base.size (timers w) + length (dispatched tr))%nat.
Proof.
  intros Hcb Hl. induction tr as [|ev tr IH]; intros w w' Hs.
  - cbn in Hs. injection Hs as <-. exists []. cbn. rewrite app_nil_r.
    split; [reflexivity|]. split; [constructor | lia].
  - cbn [steps] in Hs.
    destruct (step arrive listener callback w ev) as [w1|] eqn:E; [|discriminate].
    destruct (served_step listener callback w w1 ev Hcb Hl E)
      as (more & Hc1 & Hp1 & Hpend & Hsz1).
    destruct (IH w1 w' Hs) as (new & Hc2 & Hp2 & Hsz2).
    assert (Hd : dispatched (ev :: tr) = dispatched [ev] ++ dispatched tr)
      by (destruct ev; reflexivity).
    exists (more ++ new). rewrite Hc2, Hc1, <- app_assoc, Hd, !length_app.
    split; [reflexivity|]. split; [|lia].
    apply Forall_app. split.
    + eapply Forall_impl; [exact Hp1|]. intros a Ha. left. exact Ha.
    + eapply Forall_impl; [exact Hp2|]. intros a [Ha | Ha].
      * destruct (Hpend a Ha) as [H | H]; [left; exact H|].
        right. apply in_or_app. left. exact H.
      * right. apply in_or_app. right. exact Ha.
Qed.

Lemma insert_size_le (m : gmap positive (Z * Args)) (i : positive) (v : Z * Args) :
  (base.size (<[i := v]> m) <= S (base.size m))%nat.
Proof. rewrite map_size_insert. destruct (m !! i); cbn; lia. Qed.

Lemma delete_size_le (m : gmap positive (Z * Args)) (i : positive) :
  (base.size (delete i m) <= base.size m)%nat.
Proof. rewrite map_size_delete. destruct (m !! i); cbn; lia. Qed.

Lemma throttled_listens (a : Args) (v : xwr) :
  calls (throttled wait a v) = calls v /\
  (base.size (timers (throttled wait a v)) <= S (base.size (timers v)))%nat /\
  forall b, pending_in (throttled wait a v) b -> pending_in v b \/ b = a.
Proof.
  unfold throttled. destruct (timeout v); cbn.
  - split; [reflexivity|]. split; [lia|]. intros b Hb. left. exact Hb.
  - split; [reflexivity|]. split; [apply insert_size_le|].
    intros b (j & due & Hj). cbn in Hj. apply lookup_insert_Some in Hj.
    destruct Hj as [[_ E] | [_ Hj]]; [right; congruence | left; exists j, due; exact Hj].
Qed.

Lemma debounced_listens (a : Args) (v : xwr) :
  calls (debounced wait a v) = calls v /\
  (base.size (timers (debounced wait a v)) <= S (base.size (timers v)))%nat /\
  forall b, pending_in (debounced wait a v) b -> pending_in v b \/ b = a.
Proof.
  unfold debounced, clearTimeout. destruct (timeout v) as [h|]; cbn.
  - split; [reflexivity|]. split.
    + etransitivity; [apply insert_size_le|]. pose proof (delete_size_le (timers v) h). lia.
    + intros b (j & due & Hj). cbn in Hj. apply lookup_insert_Some in Hj.
      destruct Hj as [[_ E] | [_ Hj]]; [right; congruence|].
      apply lookup_delete_Some in Hj. destruct Hj as [_ Hj]. left. exists j, due. exact Hj.
  - split; [reflexivity|]. split; [apply insert_size_le|].
    intros b (j & due & Hj). cbn in Hj. apply lookup_insert_Some in Hj.
    destruct Hj as [[_ E] | [_ Hj]]; [right; congruence | left; exists j, due; exact Hj].
Qed.

(** X10: under [throttle] and under [debounce] alike, the wrapped function
    only runs for events that were dispatched, or for a timer that was
    already pending, and the runs made together with the timers still
    pending never outnumber the events dispatched and the timers pending at
    the start: no event is served twice. *)
Theorem wrapped_runs_for_events (w0 w1 : xwr) (tr : list (event Args)) :
  throttle_steps func arrive wait w0 tr = Some w1 \/
  debounce_steps func arrive wait w0 tr = Some w1 ->
  exists new,
    calls w1 = calls w0 ++ new /\
    Forall (fun a => pending_in w0 a \/ In a (dispatched tr)) new /\
    (length new + base.size (timers w1)
       <= base.size (timers w0) + length (dispatched tr))%nat.
Proof.
  intros [Hs | Hs].
  - apply (served_steps (throttled wait) (throttle_callback func)
             (fun a v => or_intror eq_refl) throttled_listens tr w0 w1 Hs).
  - apply (served_steps (debounced wait) (debounce_callback func)
             (fun a v => or_introl eq_refl) debounced_listens tr w0 w1 Hs).
Qed.

(** *** [debounce] waits for [wait] milliseconds of silence *)

Lemma debounce_quiet_step (w0 : xwr) (D : list Args) (a : Args) (deadline : Z)
    (w w' : xwr) (ev : event Args) :
  debounce_inv func arrive w0 deadline D a w ->
  each_within wait deadline (now w) [ev] ->
  step arrive (debounced wait) (debounce_callback func) w ev = Some w' ->
  match ev with
  | Dispatch b => debounce_inv func arrive w0 (now w + wait) (D ++ [a]) b w'
  | _ => debounce_inv func arrive w0 deadline D a w'
  end.
Proof.
  intros (Hclk & Hph) Hq Hs. destruct ev as [b | id | dt]; cbn [step] in Hs.
  - cbn in Hq. destruct Hq as [Hlt _]. injection Hs as <-.
    destruct Hph as [(Hc & Hin & id & due & Ht & Hto & Hdue) | (_ & _ & _ & Hlate)]; [|lia].
    unfold debounced, clearTimeout, setTimeout, set_timeout.
    cbn [timeout timers nextTimerId now calls inner]. rewrite Hto.
    cbn [timeout timers nextTimerId now calls inner].
    split; cbn [now]; [exact Hclk|]. left.
    cbn [calls inner timers timeout]. split; [exact Hc|]. split.
    + rewrite Hin. rewrite (fold_left_app _ (D ++ [a]) [b]). reflexivity.
    + exists (nextTimerId w), (now w + wait).
      rewrite Ht, delete_singleton_eq, insert_empty. repeat split. lia.
  - destruct (timers w !! id) as [[due c]|] eqn:Hid; [|discriminate].
    destruct (due <=? now w) eqn:Hdue; [|discriminate]. apply Z.leb_le in Hdue.
    injection Hs as <-.
    destruct Hph as [(Hc & Hin & id' & due' & Ht & Hto & Hdue') | (_ & _ & Ht & _)].
    + rewrite Ht in Hid. apply lookup_singleton_Some in Hid.
      destruct Hid as [<- E]. injection E as <- <-.
      unfold debounce_callback, apply_func.
      cbn [timeout timers nextTimerId now calls inner].
      split; cbn [now]; [exact Hclk|]. right.
      cbn [calls inner timers]. rewrite Hc, Hin, Ht, delete_singleton_eq.
      repeat split. lia.
    + rewrite Ht, lookup_empty in Hid. discriminate.
  - destruct (0 <=? dt) eqn:Hdt; [|discriminate]. apply Z.leb_le in Hdt.
    injection Hs as <-. split; cbn [now]; [lia|].
    destruct Hph as [H | (H1 & H2 & H3 & H4)]; [left; exact H | right].
    cbn [calls inner timers now]. repeat split; auto. lia.
Qed.

Lemma debounce_quiet_steps (w0 w1 : xwr) (tr : list (event Args)) :
  forall D a deadline w,
    debounce_inv func arrive w0 deadline D a w ->
    each_within wait deadline (now w) tr ->
    steps arrive (debounced wait) (debounce_callback func) w tr = Some w1 ->
    exists deadline',
      debounce_inv func arrive w0 deadline'
        (removelast ((D ++ [a]) ++ dispatched tr))
        (List.last (dispatched tr) a) w1.
Proof.
  induction tr as [|ev tr IH]; intros D a deadline w Hinv Hq Hs.
  - cbn in Hs. injection Hs as <-. exists deadline. cbn [dispatched List.last].
    rewrite app_nil_r, removelast_last. exact Hinv.
  - cbn [steps] in Hs.
    destruct (step arrive (debounced wait) (debounce_callback func) w ev) as [w'|] eqn:E;
      [|discriminate].
    pose proof (step_clock arrive (debounced wait) (debounce_callback func) w w' ev
                  (debounced_clock wait) (fun a w => eq_refl) E) as Hnow.
    pose proof (debounce_quiet_step w0 D a deadline w w' ev Hinv) as Hstep.
    destruct ev as [b | id | dt]; cbn [each_within] in Hq.
    + destruct Hq as [Hlt Hq].
      specialize (Hstep (conj Hlt I) E). rewrite <- Hnow in Hq at 2.
      destruct (IH (D ++ [a]) b (now w + wait) w' Hstep Hq Hs) as [deadline' R].
      exists deadline'. cbn [dispatched]. rewrite last_cons.
      replace ((D ++ [a]) ++ b :: dispatched tr)
        with (((D ++ [a]) ++ [b]) ++ dispatched tr)
        by (rewrite <- !app_assoc; reflexivity).
      exact R.
    + specialize (Hstep I E). rewrite <- Hnow in Hq.
      exact (IH D a deadline w' Hstep Hq Hs).
    + specialize (Hstep I E). rewrite <- Hnow in Hq.
      exact (IH D a deadline w' Hstep Hq Hs).
Qed.

Lemma removelast_app_last {A : Type} (l : list A) (d : A) :
  l <> [] -> removelast l ++ [List.last l d] = l.
Proof. intros H. symmetry. apply app_removelast_last. exact H. Qed.

(** X11: [debounce] waits for silence: when every event of a burst comes
    less than [wait] milliseconds after the one before it, however long the
    burst lasts, the wrapped function does not run during the burst; either
    the one pending timer is the one of the last event [aK], or the function
    has run exactly once, for [aK], on the page state all the events left. *)
Theorem debounce_waits_for_silence (w0 w1 : xwr) (a1 : Args)
    (rest : list (event Args)) :
  owns_timers w0 ->
  each_within wait (now w0 + wait) (now w0) rest ->
  debounce_steps func arrive wait w0 (Dispatch a1 :: rest) = Some w1 ->
  let aK := List.last (dispatched rest) a1 in
  let arrived := fold_left (fun s b => arrive b s) (a1 :: dispatched rest) (inner w0) in
  (calls w1 = calls w0 /\ inner w1 = arrived /\
   exists id due, timers w1 = {[ id := (due, aK) ]} /\ timeout w1 = Some id) \/
  (calls w1 = calls w0 ++ [aK] /\ inner w1 = func aK arrived /\ timers w1 = empty).
Proof.
  intros Ho Hq Hs. unfold debounce_steps in Hs. cbn [steps] in Hs.
  destruct (step arrive (debounced wait) (debounce_callback func) w0 (Dispatch a1))
    as [w|] eqn:E0; [|discriminate].
  pose proof (debounce_first func arrive wait w0 w a1 Ho E0) as Hinv.
  pose proof (step_clock arrive (debounced wait) (debounce_callback func) w0 w _
                (debounced_clock wait) (fun a w => eq_refl) E0) as Hnow0.
  cbn in Hnow0. rewrite <- Hnow0 in Hq at 2.
  destruct (debounce_quiet_steps w0 w1 rest [] a1 (now w0 + wait) w Hinv Hq Hs)
    as (deadline' & _ & Hph).
  cbn zeta.
  assert (Hall : removelast ([a1] ++ dispatched rest)
                   ++ [List.last (dispatched rest) a1] = a1 :: dispatched rest).
  { cbn [app]. rewrite <- (last_cons (dispatched rest) a1 a1).
    apply removelast_app_last. discriminate. }
  cbn [app] in Hph. cbn [app] in Hall. rewrite Hall in Hph.
  destruct Hph as [(Hc & Hin & id & due & Ht & Hto & _) | (Hc & Hin & Ht & _)].
  - left. split; [exact Hc|]. split; [exact Hin|]. exists id, due. auto.
  - right. auto.
Qed.

End WrapperExtras.

Lemma sample_wrapper_owns : owns_timers sample_wrapper.
Proof. intros id [v Hv]. cbn in Hv. rewrite lookup_empty in Hv. discriminate. Qed.

Lemma sample_pending_owns : owns_timers sample_pending.
Proof.
  intros id [v Hv]. cbn in Hv. apply lookup_singleton_Some in Hv.
  destruct Hv as [<- _]. reflexivity.
Qed.

Lemma one_timer_pending_witness :
  let tr := [Dispatch 5; Elapse 100; Timer 1%positive; Dispatch 7; Dispatch 8] in
  owns_timers sample_wrapper /\
  match throttle_steps sample_func sample_arrive 100 sample_wrapper tr with
  | Some w1 => owns_timers w1 /\ (base.size (timers w1) <= 1)%nat
  | None => False
  end.
Proof.
  cbn zeta. split; [exact sample_wrapper_owns|].
  destruct (throttle_steps sample_func sample_arrive 100 sample_wrapper _)
    as [w1|] eqn:Hs.
  - apply (one_timer_pending sample_func sample_arrive 100 sample_wrapper w1 _
             sample_wrapper_owns (or_introl Hs)).
  - vm_compute in Hs. discriminate.
Defined.

Lemma throttle_runs_apart_witness :
  let tr := [Dispatch 7; Elapse 40; Dispatch 8; Elapse 60] in
  owns_timers sample_pending /\
  match throttle_steps sample_func sample_arrive 100 sample_pending [Timer 1%positive] with
  | Some w1 =>
      match throttle_steps sample_func sample_arrive 100 w1 (tr ++ [Timer 2%positive]) with
      | Some w2 =>
          (exists a1 mid a2,
             calls w1 = calls sample_pending ++ [a1] /\
             calls w2 = calls w1 ++ mid ++ [a2]) /\
          now w1 + 100 <= now w2
      | None => False
      end
  | None => False
  end.
Proof.
  cbn zeta. split; [exact sample_pending_owns|].
  destruct (throttle_steps sample_func sample_arrive 100 sample_pending _)
    as [w1|] eqn:H1; [|vm_compute in H1; discriminate].
  destruct (throttle_steps sample_func sample_arrive 100 w1 _) as [w2|] eqn:H2.
  - apply (throttle_runs_apart sample_func sample_arrive 100 sample_pending w1 w2
             1%positive 2%positive _ sample_pending_owns H1 H2).
  - vm_compute in H1. injection H1 as <-. vm_compute in H2. discriminate.
Defined.

Lemma throttle_serves_first_witness :
  let rest := [Elapse 50; Dispatch 7; Elapse 60; Timer 1%positive] in
  owns_timers sample_wrapper /\ timeout sample_wrapper = None /\
  dispatched_before (now sample_wrapper + 100) (now sample_wrapper) rest /\
  match throttle_steps sample_func sample_arrive 100 sample_wrapper (Dispatch 5 :: rest) with
  | Some w1 =>
      (calls w1 = calls sample_wrapper /\
       (exists id, timers w1 = {[ id := (now sample_wrapper + 100, 5) ]} /\
                   timeout w1 = Some id)) \/
      (calls w1 = calls sample_wrapper ++ [5] /\ timers w1 = empty /\
       timeout w1 = None /\ now sample_wrapper + 100 <= now w1)
  | None => False
  end.
Proof.
  cbn zeta. split; [exact sample_wrapper_owns|]. split; [reflexivity|].
  assert (Hb : dispatched_before (now sample_wrapper + 100) (now sample_wrapper)
                 [Elapse 50; Dispatch 7; Elapse 60; Timer 1%positive])
    by (cbn; lia).
  split; [exact Hb|].
  destruct (throttle_steps sample_func sample_arrive 100 sample_wrapper _)
    as [w1|] eqn:Hs.
  - apply (throttle_serves_first sample_func sample_arrive 100 sample_wrapper w1 5 _
             sample_wrapper_owns eq_refl Hb Hs).
  - vm_compute in Hs. discriminate.
Defined.

Lemma wrapped_runs_for_events_witness :
  let tr := [Dispatch 5; Dispatch 6; Elapse 250; Timer 2%positive; Dispatch 7] in
  match debounce_steps sample_func sample_arrive 250 sample_wrapper tr with
  | Some w1 =>
      exists new,
        calls w1 = calls sample_wrapper ++ new /\
        Forall (fun a => pending_in sample_wrapper a \/ In a (dispatched tr)) new /\
        (length new + base.size (timers w1)
           <= base.size (timers sample_wrapper) + length (dispatched tr))%nat
  | None => False
  end.
Proof.
  cbn zeta.
  destruct (debounce_steps sample_func sample_arrive 250 sample_wrapper _)
    as [w1|] eqn:Hs.
  - apply (wrapped_runs_for_events sample_func sample_arrive 250 sample_wrapper w1 _
             (or_intror Hs)).
  - vm_compute in Hs. discriminate.
Defined.

Lemma debounce_waits_for_silence_witness :
  let rest := [Elapse 200; Dispatch 7; Elapse 200; Dispatch 9; Elapse 250;
               Timer 3%positive] in
  owns_timers sample_wrapper /\
  each_within 250 (now sample_wrapper + 250) (now sample_wrapper) rest /\
  match debounce_steps sample_func sample_arrive 250 sample_wrapper (Dispatch 5 :: rest) with
  | Some w1 =>
      let aK := List.last (dispatched rest) 5 in
      let arrived := fold_left (fun s b => sample_arrive b s) (5 :: dispatched rest)
                               (inner sample_wrapper) in
      (calls w1 = calls sample_wrapper /\ inner w1 = arrived /\
       exists id due, timers w1 = {[ id := (due, aK) ]} /\ timeout w1 = Some id) \/
      (calls w1 = calls sample_wrapper ++ [aK] /\ inner w1 = sample_func aK arrived /\
       timers w1 = empty)
  | None => False
  end.
Proof.
  cbn zeta. split; [exact sample_wrapper_owns|].
  assert (Hq : each_within 250 (now sample_wrapper + 250) (now sample_wrapper)
                 [Elapse 200; Dispatch 7; Elapse 200; Dispatch 9; Elapse 250;
                  Timer 3%positive])
    by (cbn; lia).
  split; [exact Hq|].
  destruct (debounce_steps sample_func sample_arrive 250 sample_wrapper _)
    as [w1|] eqn:Hs.
  - apply (debounce_waits_for_silence sample_func sample_arrive 250 sample_wrapper w1 5 _
             sample_wrapper_owns Hq Hs).
  - vm_compute in Hs. discriminate.
Defined.

(** ** Multiplication *)

Lemma binary_round_aux_at (sx : bool) (mx : positive) (ex k : Z) :
  0 <= k -> -1074 - k <= ex ->
  ex <= fexp prec emax (Zpos (digits2_pos mx) + ex) ->
  binary_round_aux prec emax sx (Zpos mx) ex loc_Exact <> S754_nan /\
  SFZ (binary_round_aux prec emax sx (Zpos mx) ex loc_Exact)
    = cond_Zopp sx (round_pos_at k (Zpos mx * 2 ^ (ex + 1074 + k))).
Proof.
  intros Hk Hlo Hle.
  unfold round_pos_at.
  assert (Hn : Z.max k (Z.log2 (Zpos mx * 2 ^ (ex + 1074 + k)) + 1 - 53)
               = fexp prec emax (Zpos (digits2_pos mx) + ex) + 1074 + k).
  { rewrite Z.log2_mul_pow2 by lia. rewrite fexp64, digits2_pos_log2. lia. }
  rewrite Hn. clear Hn.
  unfold binary_round_aux, shr_fexp. cbn [Zdigits2 shr_record_of_loc].
  pose proof (digits2_bounds mx) as Hd.
  pose proof (fexp64 (Zpos (digits2_pos mx) + ex)) as He0.
  set (d := Zpos (digits2_pos mx)) in *.
  set (e0 := fexp prec emax (d + ex)) in *.
  assert (Hdd : Zdigits2 (Zpos mx) = d) by reflexivity.
  assert (Hdpos : 0 < d) by (unfold d; lia).
  clearbody e0. clearbody d.
  replace (e0 + 1074 + k) with ((e0 - ex) + (ex + 1074 + k)) by lia.
  rewrite (rne_div_scale (Zpos mx) (e0 - ex) (ex + 1074 + k)) by lia.
  replace (e0 - ex + (ex + 1074 + k) - k) with (e0 + 1074) by lia.
  destruct (shr_exact_state (Zpos mx) ex (e0 - ex) ltac:(lia)) as [He1 Hst1].
  destruct (shr (Build_shr_record (Zpos mx) false false) ex (e0 - ex)) as [mrs1 e1].
  cbn [fst snd] in He1, Hst1.
  replace (Z.max 0 (e0 - ex)) with (e0 - ex) in * by lia.
  assert (He1' : e1 = e0) by lia. clear He1. subst e1.
  rewrite (shr_state_round (Zpos mx) (e0 - ex) mrs1) by (lia || exact Hst1).
  pose proof (rne_div_bounds (Zpos mx) (e0 - ex) ltac:(lia)) as Hq'.
  destruct (rne_div_scaled_bounds (Zpos mx) (e0 - ex) ltac:(lia) ltac:(lia))
    as [_ Hq0].
  assert (Hup : Zpos mx / 2 ^ (e0 - ex) < 2 ^ 53).
  { pose proof (pow2_pos (e0 - ex) ltac:(lia)).
    apply Z.div_lt_upper_bound; [lia|].
    rewrite <- Z.pow_add_r by lia.
    eapply Z.lt_le_trans; [apply Hd|]. apply Z.pow_le_mono_r; lia. }
  assert (Hlow : -1074 < e0 -> 2 ^ 52 <= Zpos mx / 2 ^ (e0 - ex)).
  { intros Hnorm. assert (Hn1 : e0 - ex = d - 53) by lia.
    pose proof (pow2_pos (e0 - ex) ltac:(lia)).
    apply Z.div_le_lower_bound; [lia|].
    rewrite Z.mul_comm, <- Z.pow_add_r by lia.
    replace (52 + (e0 - ex)) with (d - 1) by lia. apply Hd. }
  set (q' := rne_div (Zpos mx) (e0 - ex)) in *. clearbody q'.
  assert (He0lo : -1074 <= e0) by lia.
  pose proof (pow2_pos (e0 + 1074) ltac:(lia)) as HPe.
  destruct (Z.eq_dec q' (2 ^ 53)) as [Htop | Hnot].
  - (* the mantissa overflowed to 2^53 *)
    rewrite Htop. change (Zdigits2 (2 ^ 53)) with 54.
    assert (Hf : fexp prec emax (54 + e0) - e0 = 1) by (rewrite fexp64; lia).
    rewrite Hf. change (2 ^ 53) with 9007199254740992.
    cbn [shr SpecFloat.iter_pos shr_1 shr_m].
    assert (Hval : 9007199254740992 * 2 ^ (e0 + 1074) = 2 ^ (e0 + 1127)).
    { change 9007199254740992 with (2 ^ 53). rewrite <- Z.pow_add_r by lia.
      f_equal. lia. }
    rewrite Hval.
    destruct (e0 + 1 <=? emax - prec) eqn:Hov.
    + split; [discriminate|]. apply Z.leb_le in Hov. unfold emax, prec in Hov.
      cbn [SFZ]. f_equal. unfold emin64.
      change 4503599627370496 with (2 ^ 52). rewrite <- Z.pow_add_r by lia.
      replace (52 + (e0 + 1 - -1074)) with (e0 + 1127) by lia.
      rewrite Z.min_l; [reflexivity|]. apply Z.pow_le_mono_r; lia.
    + split; [discriminate|]. apply Z.leb_gt in Hov. unfold emax, prec in Hov.
      cbn [SFZ]. f_equal. rewrite Z.min_r; [reflexivity|].
      apply Z.pow_le_mono_r; lia.
  - assert (Hq53 : q' < 2 ^ 53) by lia.
    destruct q' as [|p'|p'] eqn:Eq'; [| |lia].
    + (* everything was rounded away *)
      assert (He : e0 = -1074).
      { destruct (Z.eq_dec e0 (-1074)) as [E|E]; [exact E|].
        pose proof (Hlow ltac:(lia)). pose proof (pow2_pos 52 ltac:(lia)). lia. }
      clear He0. subst e0. cbn [Zdigits2].
      change (fexp prec emax (0 + -1074) - -1074) with 0.
      cbn [shr shr_m fst]. split; [discriminate|].
      cbn [SFZ]. rewrite Z.mul_0_l, Z.min_l;
        [destruct sx; reflexivity | apply Z.lt_le_incl, pow2_pos; lia].
    + assert (Hdig : Zdigits2 (Zpos p') + e0 <= 53 + e0 /\
                     (-1074 < e0 -> Zdigits2 (Zpos p') = 53)).
      { rewrite Zdigits2_log2 by lia. split.
        - assert (Z.log2 (Zpos p') < 53) by (apply Z.log2_lt_pow2; lia). lia.
        - intros Hnorm. specialize (Hlow Hnorm).
          rewrite (Z.log2_unique (Zpos p') 52); lia. }
      assert (Hf : fexp prec emax (Zdigits2 (Zpos p') + e0) - e0 = 0).
      { rewrite fexp64. destruct Hdig as [Hd1 Hd2].
        destruct (Z.eq_dec e0 (-1074)); [lia|]. rewrite Hd2 by lia. lia. }
      rewrite Hf. cbn [shr shr_m fst].
      destruct (e0 <=? emax - prec) eqn:Hov.
      * split; [discriminate|]. apply Z.leb_le in Hov. unfold emax, prec in Hov.
        cbn [SFZ]. f_equal. unfold emin64.
        replace (e0 - -1074) with (e0 + 1074) by lia.
        rewrite Z.min_l; [reflexivity|].
        apply Z.lt_le_incl.
        apply Z.lt_le_trans with (2 ^ 53 * 2 ^ (e0 + 1074)).
        -- apply Z.mul_lt_mono_pos_r; [exact HPe | lia].
        -- rewrite <- Z.pow_add_r by lia. apply Z.pow_le_mono_r; lia.
      * split; [discriminate|]. apply Z.leb_gt in Hov. unfold emax, prec in Hov.
        cbn [SFZ]. f_equal. rewrite Z.min_r; [reflexivity|].
        apply Z.le_trans with (2 ^ 52 * 2 ^ (e0 + 1074)).
        -- rewrite <- Z.pow_add_r by lia. apply Z.pow_le_mono_r; lia.
        -- pose proof (Hlow ltac:(lia)).
           apply Z.mul_le_mono_nonneg_r; lia.
Qed.

Lemma round64_at_pos (k M : Z) : 0 < M -> round64_at k M = round_pos_at k M.
Proof. destruct M; try lia. reflexivity. Qed.

Lemma round64_at_neg (k M : Z) : M < 0 -> round64_at k M = - round_pos_at k (- M).
Proof. destruct M; try lia. reflexivity. Qed.

Lemma cond_Zopp_mul (sx sy : bool) (A B : Z) :
  cond_Zopp sx A * cond_Zopp sy B = cond_Zopp (xorb sx sy) (A * B).
Proof. destruct sx, sy; cbn [cond_Zopp xorb]; ring. Qed.

Lemma round64_at_cond (s : bool) (k M : Z) :
  0 < M -> round64_at k (cond_Zopp s M) = cond_Zopp s (round_pos_at k M).
Proof.
  intros HM. destruct s; cbn [cond_Zopp].
  - rewrite round64_at_neg by lia. rewrite Z.opp_involutive. reflexivity.
  - apply round64_at_pos, HM.
Qed.

(** The product of two finite floats is their exact product, rounded. *)
Lemma SFmul_SFZ (a b : spec_float) :
  valid_binary a = true -> valid_binary b = true ->
  finiteSF a = true -> finiteSF b = true ->
  SFmul prec emax a b <> S754_nan /\
  SFZ (SFmul prec emax a b) = round64_at 1074 (SFZ a * SFZ b).
Proof.
  intros Va Vb Fa Fb.
  destruct a as [sa|sa| |sa ma ea]; try discriminate Fa;
    destruct b as [sb|sb| |sb mb eb]; try discriminate Fb;
    cbn [SFmul SFZ]; rewrite ?Z.mul_0_l, ?Z.mul_0_r;
    try (split; [discriminate | reflexivity]).
  cbn [valid_binary] in Va, Vb.
  destruct (canonical_bounds ma ea Va) as (Hea & Hma & Hna & _).
  destruct (canonical_bounds mb eb Vb) as (Heb & Hmb & Hnb & _).
  unfold emin64.
  pose proof (pow2_pos (ea - -1074) ltac:(lia)) as HPa.
  pose proof (pow2_pos (eb - -1074) ltac:(lia)) as HPb.
  rewrite cond_Zopp_mul, round64_at_cond by nia.
  replace (Zpos ma * 2 ^ (ea - -1074) * (Zpos mb * 2 ^ (eb - -1074)))
    with (Zpos (ma * mb) * 2 ^ (ea + eb + 1074 + 1074)).
  2:{ replace (ea + eb + 1074 + 1074) with ((ea - -1074) + (eb - -1074)) by lia.
      rewrite Z.pow_add_r by lia. rewrite Pos2Z.inj_mul. ring. }
  apply binary_round_aux_at; [lia | lia |].
  rewrite fexp64.
  destruct (Z_le_gt_dec (ea + eb) (-1074)) as [Hlow | Hhigh]; [lia|].
  assert (H52 : 2 ^ 52 <= Zpos (ma * mb)).
  { rewrite Pos2Z.inj_mul.
    pose proof (pow2_pos 52 ltac:(lia)) as H52.
    set (P := 2 ^ 52) in *. clearbody P.
    destruct (Z.eq_dec ea (-1074)) as [E|E].
    - assert (P <= Zpos mb) by (apply Hnb; lia). nia.
    - assert (P <= Zpos ma) by (apply Hna; lia). nia. }
  rewrite digits2_pos_log2.
  assert (52 <= Z.log2 (Zpos (ma * mb))) by (apply Z.log2_le_pow2; lia).
  lia.
Qed.

Lemma round_pos_at_mono (k X Y : Z) :
  0 <= k -> 0 < X -> X <= Y -> round_pos_at k X <= round_pos_at k Y.
Proof.
  intros Hk HX Hle. unfold round_pos_at.
  apply Z.min_le_compat_r.
  pose proof (Z.log2_le_mono X Y Hle) as Hlog.
  pose proof (Z.log2_nonneg X) as HlX.
  pose proof (Z.log2_spec X HX) as HsX.
  pose proof (Z.log2_spec Y ltac:(lia)) as HsY.
  set (lX := Z.log2 X) in *. set (lY := Z.log2 Y) in *. clearbody lX lY.
  destruct (Z.eq_dec (Z.max k (lX + 1 - 53)) (Z.max k (lY + 1 - 53))) as [Heq | Hne].
  - rewrite Heq. apply Z.mul_le_mono_nonneg_r.
    + apply Z.lt_le_incl, pow2_pos. lia.
    + apply rne_div_mono; lia.
  - set (nX := Z.max k (lX + 1 - 53)) in *. set (nY := Z.max k (lY + 1 - 53)) in *.
    assert (HnX : k <= nX) by (unfold nX; lia).
    assert (HnY : nY = lY - 52 /\ lX + 1 <= lY /\ k < lY - 52 /\ nX < nY)
      by (unfold nX, nY in *; lia).
    destruct HnY as (HnY & Hlt & Hpos & HnXY). clearbody nX nY. subst nY.
    set (a := Z.max (lX + 1) nX).
    apply Z.le_trans with (2 ^ (a - k)); [|apply Z.le_trans with (2 ^ (lY - k))].
    + (* the rounded value of X does not pass the next power of two *)
      pose proof (pow2_pos nX ltac:(lia)) as HP.
      pose proof (rne_div_bounds X nX ltac:(lia)) as Hb.
      assert (Hq : X / 2 ^ nX < 2 ^ (a - nX)).
      { apply Z.div_lt_upper_bound; [lia|].
        rewrite <- Z.pow_add_r by lia. replace (nX + (a - nX)) with a by lia.
        replace (Z.succ lX) with (lX + 1) in HsX by lia.
        apply Z.lt_le_trans with (2 ^ (lX + 1)); [lia|].
        apply Z.pow_le_mono_r; lia. }
      replace (2 ^ (a - k)) with (2 ^ (a - nX) * 2 ^ (nX - k))
        by (rewrite <- Z.pow_add_r by lia; f_equal; lia).
      pose proof (pow2_pos (nX - k) ltac:(lia)).
      apply Z.mul_le_mono_nonneg_r; lia.
    + apply Z.pow_le_mono_r; lia.
    + (* the rounded value of Y is at least the power of two below it *)
      pose proof (pow2_pos (lY - 52) ltac:(lia)) as HP.
      pose proof (rne_div_bounds Y (lY - 52) ltac:(lia)) as Hb.
      assert (Hq : 2 ^ 52 <= Y / 2 ^ (lY - 52)).
      { apply Z.div_le_lower_bound; [lia|].
        rewrite <- Z.pow_add_r by lia. replace (lY - 52 + 52) with lY by lia. lia. }
      replace (2 ^ (lY - k)) with (2 ^ 52 * 2 ^ (lY - 52 - k))
        by (rewrite <- Z.pow_add_r by lia; f_equal; lia).
      pose proof (pow2_pos (lY - 52 - k) ltac:(lia)).
      apply Z.mul_le_mono_nonneg_r; lia.
Qed.

Lemma round_pos_at_nonneg (k X : Z) : 0 <= k -> 0 < X -> 0 <= round_pos_at k X.
Proof.
  intros Hk HX. unfold round_pos_at.
  set (n := Z.max k (Z.log2 X + 1 - 53)).
  destruct (rne_div_scaled_bounds X n ltac:(lia) ltac:(lia)) as [_ Hq].
  pose proof (pow2_pos (n - k) ltac:(lia)). pose proof (pow2_pos 2098 ltac:(lia)).
  apply Z.min_glb; [|lia]. apply Z.mul_nonneg_nonneg; lia.
Qed.

Lemma round64_at_mono (k X Y : Z) :
  0 <= k -> X <= Y -> round64_at k X <= round64_at k Y.
Proof.
  intros Hk Hle.
  destruct (Z.lt_trichotomy X 0) as [HX | [HX | HX]];
    destruct (Z.lt_trichotomy Y 0) as [HY | [HY | HY]]; try lia.
  - rewrite !round64_at_neg by lia.
    pose proof (round_pos_at_mono k (- Y) (- X) Hk ltac:(lia) ltac:(lia)). lia.
  - subst Y. rewrite (round64_at_neg k X) by lia. cbn [round64_at].
    pose proof (round_pos_at_nonneg k (- X) Hk ltac:(lia)). lia.
  - rewrite (round64_at_neg k X), (round64_at_pos k Y) by lia.
    pose proof (round_pos_at_nonneg k (- X) Hk ltac:(lia)).
    pose proof (round_pos_at_nonneg k Y Hk ltac:(lia)). lia.
  - subst X Y. lia.
  - subst X. rewrite (round64_at_pos k Y) by lia. cbn [round64_at].
    apply round_pos_at_nonneg; lia.
  - rewrite !round64_at_pos by lia. apply round_pos_at_mono; lia.
Qed.

Lemma mul_F2Z (a b : float) :
  finite a -> finite b ->
  Prim2SF (a * b) <> S754_nan /\ F2Z (a * b)%float = round64_at 1074 (F2Z a * F2Z b).
Proof.
  intros Fa Fb. unfold F2Z. rewrite mul_spec.
  apply SFmul_SFZ; auto using Prim2SF_valid.
Qed.

(** Multiplication by a number that is not negative is monotone. *)
Lemma mul_le_mono (a b c : float) :
  (a <=? b)%float = true -> (0 <=? c)%float = true ->
  finite a -> finite b -> finite c ->
  (a * c <=? b * c)%float = true.
Proof.
  intros Hab Hc Fa Fb Fc.
  apply leb_F2Z in Hab. destruct Hab as (_ & _ & Hab).
  apply leb_F2Z in Hc. destruct Hc as (_ & _ & Hc). rewrite F2Z_zero in Hc.
  destruct (mul_F2Z a c Fa Fc) as [Na Va].
  destruct (mul_F2Z b c Fb Fc) as [Nb Vb].
  apply leb_F2Z. split; [exact Na | split; [exact Nb|]].
  rewrite Va, Vb. apply round64_at_mono; [lia | nia].
Qed.

(** ** Intervals *)

Lemma leb_trans (a b c : float) :
  (a <=? b)%float = true -> (b <=? c)%float = true -> (a <=? c)%float = true.
Proof.
  rewrite !leb_F2Z. intros (Na & Nb & H1) (_ & Nc & H2).
  split; [exact Na | split; [exact Nc | lia]].
Qed.

Lemma leb_ltb_trans (a b c : float) :
  (a <=? b)%float = true -> (b <? c)%float = true -> (a <? c)%float = true.
Proof.
  rewrite leb_F2Z, !ltb_F2Z. intros (Na & Nb & H1) (_ & Nc & H2).
  split; [exact Na | split; [exact Nc | lia]].
Qed.

Lemma between_widen (lo lo' v hi hi' : float) :
  between lo v hi -> (lo' <=? lo)%float = true -> (hi <=? hi')%float = true ->
  between lo' v hi'.
Proof.
  intros [H1 H2] Hlo Hhi. split; eapply leb_trans; eassumption.
Qed.

Lemma between_finite (lo v hi : float) :
  between lo v hi -> finite lo -> finite hi -> finite v.
Proof. intros [H1 H2] Fl Fh. exact (finite_between lo v hi H1 H2 Fl Fh). Qed.

Lemma finite_leb_refl (c : float) : finite c -> (c <=? c)%float = true.
Proof.
  intros Fc. apply leb_F2Z. unfold finite in Fc.
  assert (N : Prim2SF c <> S754_nan) by (intros E; rewrite E in Fc; discriminate).
  split; [exact N | split; [exact N | lia]].
Qed.

Lemma mul_between (lo v hi c : float) :
  between lo v hi -> finite lo -> finite hi ->
  (0 <=? c)%float = true -> finite c ->
  between (lo * c) (v * c) (hi * c).
Proof.
  intros B Fl Fh Hc Fc. pose proof (between_finite lo v hi B Fl Fh) as Fv.
  destruct B as [H1 H2]. split; apply mul_le_mono; assumption.
Qed.

Lemma add_le_mono (a b c : float) :
  (a <=? b)%float = true -> finite a -> finite b -> finite c ->
  (a + c <=? b + c)%float = true.
Proof.
  intros Hab Fa Fb Fc.
  apply leb_F2Z in Hab. destruct Hab as (_ & _ & Hab).
  destruct (add_F2Z a c Fa Fc) as [Na Va].
  destruct (add_F2Z b c Fb Fc) as [Nb Vb].
  apply leb_F2Z. split; [exact Na | split; [exact Nb|]].
  rewrite Va, Vb. apply round64_mono. lia.
Qed.

Lemma add_between (lo v hi c : float) :
  between lo v hi -> finite lo -> finite hi -> finite c ->
  between (lo + c) (v + c) (hi + c).
Proof.
  intros B Fl Fh Fc. pose proof (between_finite lo v hi B Fl Fh) as Fv.
  destruct B as [H1 H2]. split; apply add_le_mono; assumption.
Qed.

Lemma sub_between (lo v hi c : float) :
  between lo v hi -> finite lo -> finite hi -> finite c ->
  between (lo - c) (v - c) (hi - c).
Proof.
  intros B Fl Fh Fc. pose proof (between_finite lo v hi B Fl Fh) as Fv.
  pose proof (finite_leb_refl c Fc) as Hc.
  destruct B as [H1 H2]. split; apply sub_le_mono; assumption.
Qed.

(** ** The unit interval *)

Lemma F2Z_below_one : F2Z below_one = 9007199254740991 * 2 ^ 1021.
Proof. reflexivity. Qed.

Lemma finite_below_one : finite below_one.
Proof. reflexivity. Qed.

(** A number of the unit interval is finite and at most [1 - 2^-53]. *)
Lemma unit_below_one (r : float) :
  (0 <=? r)%float = true -> (r <? 1)%float = true ->
  between 0 r below_one /\ finite r.
Proof.
  intros H0 H1.
  assert (Fr : finite r).
  { apply (finite_between 0 r 1 H0); [|reflexivity|reflexivity].
    apply ltb_F2Z in H1. apply leb_F2Z. destruct H1 as (N1 & N2 & H1).
    split; [exact N1 | split; [exact N2 | lia]]. }
  split; [|exact Fr]. split; [exact H0|].
  apply ltb_F2Z in H1. destruct H1 as (Nr & _ & H1). rewrite F2Z_one in H1.
  apply leb_F2Z. split; [exact Nr|]. split; [discriminate|].
  rewrite F2Z_below_one. unfold F2Z in *.
  pose proof (Prim2SF_valid r) as V. unfold finite in Fr.
  pose proof (pow2_pos 1021 ltac:(lia)) as H21.
  assert (E74 : 2 ^ 1074 = 9007199254740992 * 2 ^ 1021).
  { change 9007199254740992 with (2 ^ 53). rewrite <- Z.pow_add_r by lia.
    reflexivity. }
  rewrite E74 in H1. clear E74.
  destruct (Prim2SF r) as [s|s| |s m e]; try discriminate Fr; cbn [SFZ] in *.
  - set (P := 2 ^ 1021) in *. clearbody P. lia.
  - cbn [valid_binary] in V.
    destruct (canonical_bounds m e V) as (He & Hm & Hn & _).
    unfold emin64 in *. replace (e - -1074) with (e + 1074) in * by lia.
    pose proof (pow2_pos (e + 1074) ltac:(lia)) as HP.
    destruct s; cbn [cond_Zopp] in *.
    { set (P := 2 ^ 1021) in *. set (Q := 2 ^ (e + 1074)) in *.
      clearbody P Q. nia. }
    change (2 ^ 53) with 9007199254740992 in Hm.
    assert (Hexp : e + 1074 <= 1021).
    { destruct (Z_le_gt_dec (e + 1074) 1021) as [Hle | Hgt]; [exact Hle|].
      exfalso. assert (H52 : 2 ^ 52 <= Zpos m) by (apply Hn; lia).
      change (2 ^ 52) with 4503599627370496 in H52.
      assert (Hp : 2 * 2 ^ 1021 <= 2 ^ (e + 1074)).
      { replace (2 * 2 ^ 1021) with (2 ^ 1022)
          by (replace 1022 with (1 + 1021) by lia; rewrite Z.pow_add_r by lia;
              reflexivity).
        apply Z.pow_le_mono_r; lia. }
      set (P := 2 ^ 1021) in *. set (Q := 2 ^ (e + 1074)) in *.
      clearbody P Q. nia. }
    assert (Hp : 2 ^ (e + 1074) <= 2 ^ 1021) by (apply Z.pow_le_mono_r; lia).
    set (P := 2 ^ 1021) in *. set (Q := 2 ^ (e + 1074)) in *.
    clearbody P Q. nia.
Qed.

(** ** What the constructor draws *)

Lemma velocity_range (r : float) :
  (0 <=? r)%float = true -> (r <? 1)%float = true ->
  (-5 <=? (r - 0.5) * config.particleSpeed * 2)%float = true /\
  ((r - 0.5) * config.particleSpeed * 2 <? 5)%float = true.
Proof.
  intros H0 H1. destruct (unit_below_one r H0 H1) as [B _].
  apply (sub_between 0 r below_one 0.5) in B; [|reflexivity..].
  apply (mul_between _ _ _ config.particleSpeed) in B; [|reflexivity..].
  apply (mul_between _ _ _ 2) in B; [|reflexivity..].
  destruct B as [Hlo Hhi]. split.
  - exact Hlo.
  - eapply leb_ltb_trans; [exact Hhi | reflexivity].
Qed.

Lemma size_range (r : float) :
  (0 <=? r)%float = true -> (r <? 1)%float = true ->
  (1 <=? r * config.particleSize + 1)%float = true /\
  (r * config.particleSize + 1 <? 4)%float = true.
Proof.
  intros H0 H1. destruct (unit_below_one r H0 H1) as [B _].
  apply (mul_between _ _ _ config.particleSize) in B; [|reflexivity..].
  apply (add_between _ _ _ 1) in B; [|reflexivity..].
  destruct B as [Hlo Hhi]. split.
  - exact Hlo.
  - eapply leb_ltb_trans; [exact Hhi | reflexivity].
Qed.

Lemma decay_range (r : float) :
  (0 <=? r)%float = true -> (r <? 1)%float = true ->
  between 0.01 (r * 0.02 + 0.01) 0.03.
Proof.
  intros H0 H1. destruct (unit_below_one r H0 H1) as [B _].
  apply (mul_between _ _ _ 0.02) in B; [|reflexivity..].
  apply (add_between _ _ _ 0.01) in B; [|reflexivity..].
  exact B.
Qed.

Lemma Math_floor_F2Z (f : float) :
  finite f -> Math_floor f = Some (F2Z f / 2 ^ 1074).
Proof.
  intros Ff. unfold Math_floor, F2Z. pose proof (Prim2SF_valid f) as V.
  unfold finite in Ff.
  destruct (Prim2SF f) as [s|s| |s m e]; try discriminate Ff; cbn [SFZ].
  - rewrite Z.div_0_l; [reflexivity|]. pose proof (pow2_pos 1074 ltac:(lia)). lia.
  - cbn [valid_binary] in V. destruct (canonical_bounds m e V) as (He & _).
    unfold emin64. replace (e - -1074) with (e + 1074) by lia.
    f_equal.
    assert (Hc : cond_Zopp s (Zpos m * 2 ^ (e + 1074))
                 = cond_Zopp s (Zpos m) * 2 ^ (e + 1074))
      by (destruct s; cbn [cond_Zopp]; ring).
    rewrite Hc. clear Hc. set (a := cond_Zopp s (Zpos m)). clearbody a.
    destruct (Z_le_gt_dec 0 e) as [Hpos | Hneg].
    + rewrite Z.shiftl_mul_pow2 by lia.
      rewrite Z.pow_add_r by lia. rewrite Z.mul_assoc.
      rewrite Z.div_mul; [reflexivity|].
      pose proof (pow2_pos 1074 ltac:(lia)). lia.
    + rewrite Z.shiftl_div_pow2 by lia.
      replace 1074 with (- e + (e + 1074)) at 2 by lia.
      rewrite (Z.pow_add_r 2 (- e) (e + 1074)) by lia.
      rewrite Z.div_mul_cancel_r; [reflexivity | |];
        [pose proof (pow2_pos (- e) ltac:(lia)) | pose proof (pow2_pos (e + 1074) ltac:(lia))];
        lia.
Qed.

Lemma F2Z_twelve : F2Z 12 = 2 ^ 1074 * 12.
Proof. vm_compute. reflexivity. Qed.

(** The colour index never leaves the palette. *)
Lemma colour_from_palette (r : float) :
  (0 <=? r)%float = true -> (r <? 1)%float = true ->
  exists c,
    array_get config.colors
      (Math_floor (r * array_length config.colors)%float) = Some c /\
    In c config.colors.
Proof.
  intros H0 H1. destruct (unit_below_one r H0 H1) as [B _].
  apply (mul_between _ _ _ (array_length config.colors)) in B; [|reflexivity..].
  pose proof (between_finite _ _ _ B eq_refl eq_refl) as Fv.
  destruct B as [Hlo Hhi].
  assert (Hlt : (r * array_length config.colors <? 12)%float = true)
    by (eapply leb_ltb_trans; [exact Hhi | reflexivity]).
  apply leb_F2Z in Hlo. destruct Hlo as (_ & _ & Hlo).
  change (F2Z (0 * array_length config.colors)) with 0 in Hlo.
  apply ltb_F2Z in Hlt. destruct Hlt as (_ & _ & Hlt). rewrite F2Z_twelve in Hlt.
  rewrite (Math_floor_F2Z _ Fv).
  set (v := F2Z (r * array_length config.colors)) in *. clearbody v.
  pose proof (pow2_pos 1074 ltac:(lia)) as HP.
  assert (Hk0 : 0 <= v / 2 ^ 1074) by (apply Z.div_pos; lia).
  assert (Hk1 : v / 2 ^ 1074 < 12) by (apply Z.div_lt_upper_bound; lia).
  set (k := v / 2 ^ 1074) in *. clearbody k.
  unfold array_get. destruct (Z.leb_spec 0 k) as [_|]; [|lia].
  destruct (nth_error config.colors (Z.to_nat k)) as [c|] eqn:E.
  - exists c. split; [reflexivity|]. eapply nth_error_In, E.
  - exfalso. apply nth_error_None in E. cbn [config.colors length] in E. lia.
Qed.

(** ** New particles *)

Lemma built_in_range (random : nat -> float) (x0 y0 : float) (p : Particle) :
  unit_interval random -> built_at random x0 y0 p ->
  x p = x0 /\ y p = y0 /\ life p = 1%float /\ in_range p /\
  (-5 <=? vy p)%float = true /\ (vy p <? 5)%float = true.
Proof.
  intros Hr [s ->]. unfold new_Particle, bind, ret, Math_random.
  cbn [fst snd randomCalls x y vx vy color size life decay].
  split; [reflexivity|]. split; [reflexivity|]. split; [reflexivity|].
  set (n := randomCalls s).
  destruct (Hr n) as [A0 A1]. destruct (Hr (S n)) as [B0 B1].
  destruct (Hr (S (S n))) as [C0 C1]. destruct (Hr (S (S (S n)))) as [D0 D1].
  destruct (Hr (S (S (S (S n))))) as [E0 E1].
  destruct (velocity_range _ A0 A1) as [Vx0 Vx1].
  destruct (velocity_range _ B0 B1) as [Vy0 Vy1].
  destruct (size_range _ D0 D1) as [S0 S1].
  split; [|split; assumption].
  unfold in_range. cbn [vx size decay color].
  repeat (split; [assumption|]).
  split; [apply decay_range; assumption|].
  apply colour_from_palette; assumption.
Qed.

Lemma built_in_flight (random : nat -> float) (x0 y0 : float) (p : Particle) :
  unit_interval random -> built_at random x0 y0 p -> in_flight p.
Proof.
  intros Hr Hb.
  destruct (built_in_range random x0 y0 p Hr Hb)
    as (_ & _ & Hl & (_ & _ & _ & _ & [Hd _] & _) & _).
  unfold in_flight. rewrite Hl. split; [reflexivity|]. split; [reflexivity|exact Hd].
Qed.

Lemma createParticles_loop_built (random : nat -> float) (x0 y0 : float) (n : nat) :
  forall s, exists batch,
    createParticles_loop random n x0 y0 s =
      mkState (particles s ++ batch) (animationId s) (frameRequests s)
              (nextFrameId s) (5 * n + randomCalls s) (surface s) /\
    length batch = n /\
    Forall (built_at random x0 y0) batch.
Proof.
  induction n as [|n IH]; intros s.
  - exists []. cbn. rewrite app_nil_r. destruct s; auto.
  - cbn [createParticles_loop].
    assert (Hb : built_at random x0 y0 (fst (new_Particle random x0 y0 s)))
      by (exists s; reflexivity).
    destruct (new_Particle_fresh random x0 y0 s) as [_ Hs].
    destruct (new_Particle random x0 y0 s) as [p s1]. cbn [fst snd] in Hb, Hs.
    subst s1. unfold set_particles. cbn [particles animationId frameRequests
      nextFrameId randomCalls surface].
    destruct (IH (mkState (particles s ++ [p]) (animationId s) (frameRequests s)
                    (nextFrameId s) (5 + randomCalls s) (surface s)))
      as (batch & Hbatch & Hlen & Hall).
    exists (p :: batch). rewrite Hbatch. cbn [particles animationId frameRequests
      nextFrameId randomCalls surface].
    rewrite <- app_assoc. cbn [app]. repeat split.
    + f_equal. lia.
    + cbn. lia.
    + constructor; assumption.
Qed.

Lemma spawn_built (random : nat -> float) (x0 y0 : float)
    (target : option EventTarget) (s : state) :
  exists batch,
    particles (handleParticleCreation random x0 y0 target s) = particles s ++ batch /\
    Forall (built_at random x0 y0) batch /\
    (shouldCreateParticles target = true -> length batch = config.particleCount).
Proof.
  unfold handleParticleCreation.
  destruct (shouldCreateParticles target); cbn [negb].
  - unfold createParticles.
    destruct (createParticles_loop_built random x0 y0 config.particleCount s)
      as (batch & -> & Hlen & Hall).
    exists batch. cbn [animationId].
    split; [destruct (animationId s); reflexivity|]. split; [exact Hall|].
    intros _. exact Hlen.
  - exists []. rewrite app_nil_r. split; [reflexivity|].
    split; [constructor | discriminate].
Qed.

(** ** What [update] leaves alone *)

Lemma update_keeps (p : Particle) :
  vx (snd (update p)) = vx p /\ size (snd (update p)) = size p /\
  decay (snd (update p)) = decay p /\ color (snd (update p)) = color p /\
  life (snd (update p)) = (life p - decay p)%float.
Proof. destruct p; repeat split. Qed.

Lemma update_in_range (p : Particle) : in_range p -> in_range (snd (update p)).
Proof.
  destruct (update_keeps p) as (Hv & Hs & Hd & Hc & _).
  unfold in_range. rewrite Hv, Hs, Hd, Hc. auto.
Qed.

Lemma survivors_in_range (ps : list Particle) :
  Forall in_range ps -> Forall in_range (survivors ps).
Proof.
  unfold survivors. induction 1 as [|p ps Hp _ IH]; [constructor|].
  cbn [List.filter]. destruct (fst (update p)); [|exact IH].
  cbn [map]. constructor; [apply update_in_range; exact Hp | exact IH].
Qed.

Lemma frame_in_range (s : state) :
  Forall in_range (particles s) -> Forall in_range (particles (frame s)).
Proof.
  intros H. destruct (frame_particles s) as [-> | ->];
    [exact H | apply survivors_in_range; exact H].
Qed.

Lemma frame_surface (s : state) :
  surface (frame s) = surface s \/ surface (frame s) = particles (frame s).
Proof.
  destruct (frame_cases s) as [[_ ->] | (id & rest & _ & ->)]; [left; reflexivity|].
  destruct (particles s) as [|p ps].
  - left. reflexivity.
  - right. apply animate_surface. discriminate.
Qed.

Lemma run_in_range (random : nat -> float) (acts : list action) :
  unit_interval random ->
  forall s,
    Forall in_flight (particles s) -> Forall in_range (particles s) ->
    Forall in_flight (surface s) -> Forall in_range (surface s) ->
    let s' := run random acts s in
    Forall in_flight (particles s') /\ Forall in_range (particles s') /\
    Forall in_flight (surface s') /\ Forall in_range (surface s').
Proof.
  intros Hr. induction acts as [|a acts IH]; intros s Hf Hg Hsf Hsg; [cbn; auto|].
  unfold run in *. cbn [fold_left]. cbn zeta in IH. apply IH; clear IH.
  - destruct a; cbn [act]; [apply spawn_in_flight | apply frame_in_flight]; auto.
  - destruct a as [x0 y0 target|]; cbn [act]; [|apply frame_in_range; exact Hg].
    destruct (spawn_built random x0 y0 target s) as (batch & -> & Hb & _).
    apply Forall_app. split; [exact Hg|].
    eapply Forall_impl; [exact Hb|]. intros p Hp.
    apply (built_in_range random x0 y0 p Hr Hp).
  - destruct a as [x0 y0 target|]; cbn [act].
    + rewrite spawn_surface. exact Hsf.
    + destruct (frame_surface s) as [-> | ->];
        [exact Hsf | apply frame_in_flight; exact Hf].
  - destruct a as [x0 y0 target|]; cbn [act].
    + rewrite spawn_surface. exact Hsg.
    + destruct (frame_surface s) as [-> | ->];
        [exact Hsg | apply frame_in_range; exact Hg].
Qed.

(** ** At least 33 updates *)

Lemma ltb_leb_trans (a b c : float) :
  (a <? b)%float = true -> (b <=? c)%float = true -> (a <? c)%float = true.
Proof.
  rewrite leb_F2Z, !ltb_F2Z. intros (Na & Nb & H1) (_ & Nc & H2).
  split; [exact Na | split; [exact Nc | lia]].
Qed.

Lemma life_floor_positive (k : nat) :
  (k <= 33)%nat -> finite (life_floor k) /\ (0 <? life_floor k)%float = true.
Proof.
  intros Hk.
  assert (H : forallb (fun k => finiteSF (Prim2SF (life_floor k)) &&
                                (0 <? life_floor k)%float) (seq 0 34) = true)
    by (vm_compute; reflexivity).
  rewrite forallb_forall in H. specialize (H k).
  apply andb_prop. apply H. apply in_seq. lia.
Qed.

Lemma updates_keep (k : nat) (p : Particle) :
  decay (updates k p) = decay p /\ vx (updates k p) = vx p /\
  size (updates k p) = size p /\ color (updates k p) = color p.
Proof.
  induction k as [|k IH]; [repeat split|].
  change (updates (S k) p) with (snd (update (updates k p))).
  destruct (update_keeps (updates k p)) as (Hv & Hs & Hd & Hc & _).
  rewrite Hv, Hs, Hd, Hc. exact IH.
Qed.

Lemma updates_life_between (k : nat) (p : Particle) :
  (k <= 33)%nat -> life p = 1%float -> between 0.01 (decay p) 0.03 ->
  between (life_floor k) (life (updates k p)) (life_bound k).
Proof.
  intros Hk Hl Hd. induction k as [|k IH].
  - cbn. rewrite Hl. split; reflexivity.
  - specialize (IH ltac:(lia)).
    destruct (life_floor_positive k ltac:(lia)) as [Ffl _].
    pose proof (life_bound_finite k ltac:(lia)) as Fbd.
    pose proof (between_finite _ _ _ IH Ffl Fbd) as Flife.
    pose proof (between_finite _ _ _ Hd eq_refl eq_refl) as Fdec.
    destruct (updates_keep k p) as (Hdk & _).
    destruct (update_keeps (updates k p)) as (_ & _ & _ & _ & Hlife).
    change (updates (S k) p) with (snd (update (updates k p))).
    rewrite Hlife, Hdk.
    change (life_floor (S k)) with (life_floor k - 0.03)%float.
    change (life_bound (S k)) with (life_bound k - 0.01)%float.
    destruct IH as [IH1 IH2]. destruct Hd as [Hd1 Hd2].
    split; apply sub_le_mono; auto using finite_hundredth.
Qed.

Lemma fresh_survives (k : nat) (p : Particle) :
  (k < 33)%nat -> life p = 1%float -> between 0.01 (decay p) 0.03 ->
  fst (update (updates k p)) = true.
Proof.
  intros Hk Hl Hd. rewrite update_alive.
  change (snd (update (updates k p))) with (updates (S k) p).
  destruct (updates_life_between (S k) p ltac:(lia) Hl Hd) as [Hlo _].
  destruct (life_floor_positive (S k) ltac:(lia)) as [_ Hpos].
  exact (ltb_leb_trans _ _ _ Hpos Hlo).
Qed.

Lemma survivors_app (ps qs : list Particle) :
  survivors (ps ++ qs) = survivors ps ++ survivors qs.
Proof. unfold survivors. rewrite List.filter_app, map_app. reflexivity. Qed.

Lemma survivors_all (k : nat) (batch : list Particle) :
  Forall (fun p => fst (update (updates k p)) = true) batch ->
  survivors (map (updates k) batch) = map (updates (S k)) batch.
Proof.
  unfold survivors. induction 1 as [|p ps Hp _ IH]; [reflexivity|].
  cbn [map List.filter]. rewrite Hp. cbn [map]. f_equal. exact IH.
Qed.

Lemma frame_running (s : state) :
  running s -> particles (frame s) = survivors (particles s).
Proof.
  intros (id & _ & Hf & _). unfold frame. rewrite Hf.
  rewrite animate_particles. reflexivity.
Qed.

Lemma frames_keep_batch (k : nat) (s : state) (old batch : list Particle) :
  (k <= 33)%nat -> running s -> batch <> [] ->
  particles s = old ++ batch ->
  Forall (fun p => life p = 1%float /\ between 0.01 (decay p) 0.03) batch ->
  running (Nat.iter k frame s) /\
  exists old', particles (Nat.iter k frame s) = old' ++ map (updates k) batch.
Proof.
  intros Hk Hrun Hne Hp Hall. induction k as [|k IH].
  - change (Nat.iter 0 frame s) with s. split; [exact Hrun|]. exists old.
    rewrite Hp. f_equal. symmetry. apply map_id.
  - destruct (IH ltac:(lia)) as (Hr & old' & Hq).
    change (Nat.iter (S k) frame s) with (frame (Nat.iter k frame s)).
    assert (Hparts : particles (frame (Nat.iter k frame s))
                     = survivors old' ++ map (updates (S k)) batch).
    { rewrite (frame_running _ Hr), Hq, survivors_app. f_equal.
      apply survivors_all. eapply Forall_impl; [exact Hall|].
      intros p [Hl Hd]. apply fresh_survives; [lia | exact Hl | exact Hd]. }
    split; [|exists (survivors old'); exact Hparts].
    destruct (frame_idle_or_running _ (or_intror Hr)) as [(_ & _ & Hnil) | H];
      [|exact H].
    exfalso. rewrite Hparts in Hnil. apply app_eq_nil in Hnil.
    destruct Hnil as [_ Hnil]. destruct batch; [congruence | discriminate].
Qed.

(** ** The constructor, the canvas and the first 33 frames *)

(** X12: whatever [Math.random] returns within the unit interval, a new
    particle starts at the given point with life 1; each velocity component
    lies in [-5, 5), the radius in [1, 4), the decay rate in [0.01, 0.03];
    the colour is one of the twelve palette colours, never [undefined]; and
    exactly five random numbers are consumed. *)
Theorem new_particle_ranges (random : nat -> float) (x0 y0 : float) (s : state) :
  unit_interval random ->
  let p := fst (new_Particle random x0 y0 s) in
  x p = x0 /\ y p = y0 /\ life p = 1%float /\
  (-5 <=? vx p)%float = true /\ (vx p <? 5)%float = true /\
  (-5 <=? vy p)%float = true /\ (vy p <? 5)%float = true /\
  (1 <=? size p)%float = true /\ (size p <? 4)%float = true /\
  (0.01 <=? decay p)%float = true /\ (decay p <=? 0.03)%float = true /\
  (exists c, color p = Some c /\ In c config.colors) /\
  randomCalls (snd (new_Particle random x0 y0 s)) = (5 + randomCalls s)%nat.
Proof.
  intros Hr p.
  assert (Hb : built_at random x0 y0 p) by (exists s; reflexivity).
  destruct (built_in_range random x0 y0 p Hr Hb)
    as (Hx & Hy & Hl & (V0 & V1 & S0 & S1 & [D0 D1] & Hc) & W0 & W1).
  destruct (new_Particle_fresh random x0 y0 s) as [_ Hs].
  rewrite Hs. cbn [randomCalls]. tauto.
Qed.

Lemma new_particle_ranges_witness :
  unit_interval half /\
  let p := fst (new_Particle half 120 80 initial) in
  x p = 120%float /\ y p = 80%float /\ life p = 1%float /\
  (-5 <=? vx p)%float = true /\ (vx p <? 5)%float = true /\
  (-5 <=? vy p)%float = true /\ (vy p <? 5)%float = true /\
  (1 <=? size p)%float = true /\ (size p <? 4)%float = true /\
  (0.01 <=? decay p)%float = true /\ (decay p <=? 0.03)%float = true /\
  (exists c, color p = Some c /\ In c config.colors) /\
  randomCalls (snd (new_Particle half 120 80 initial)) = (5 + randomCalls initial)%nat.
Proof.
  assert (Hr : unit_interval half) by (intros n; split; reflexivity).
  split; [exact Hr|].
  apply (new_particle_ranges half 120 80 initial Hr).
Defined.

(** X13: whatever spawn requests and frames have happened, every circle on
    the canvas was painted with an opacity that is positive and at most 1,
    a radius in [1, 4) and a fill colour of the palette; and every particle
    of the active set still has the horizontal velocity, radius, decay rate
    and colour ranges of a new particle. *)
Theorem painted_circles_are_visible (random : nat -> float) (acts : list action) :
  unit_interval random ->
  let s := run random acts initial in
  Forall visible (surface s) /\ Forall in_range (particles s).
Proof.
  intros Hr s.
  destruct (run_in_range random acts Hr initial
              ltac:(constructor) ltac:(constructor) ltac:(constructor)
              ltac:(constructor)) as (_ & Hg & Hsf & Hsg).
  fold s in Hg, Hsf, Hsg. split; [|exact Hg].
  rewrite List.Forall_forall in *. intros p Hp.
  destruct (Hsf p Hp) as (L0 & L1 & _).
  destruct (Hsg p Hp) as (_ & _ & S0 & S1 & _ & Hc).
  unfold visible. tauto.
Qed.

Lemma painted_circles_are_visible_witness :
  let acts := [Spawn 100 100 (Some (TargetElement paragraph)); Frame; Frame] in
  unit_interval half /\
  let s := run half acts initial in
  length (surface s) = 30%nat /\
  Forall visible (surface s) /\ Forall in_range (particles s).
Proof.
  cbn zeta.
  assert (Hr : unit_interval half) by (intros n; split; reflexivity).
  split; [exact Hr|]. split; [vm_compute; reflexivity|].
  apply (painted_circles_are_visible half
           [Spawn 100 100 (Some (TargetElement paragraph)); Frame; Frame] Hr).
Defined.

(** X14: the thirty particles of an accepted spawn request outlive the next
    33 frames, whatever was drawn at random and whatever happened before:
    each of their first 33 updates returns [true], and after [k <= 33]
    frames without a further spawn they are all still in the active set,
    in their order behind the older particles, each updated [k] times. *)
Theorem batch_outlives_33_frames (random : nat -> float) (acts : list action)
    (x0 y0 : float) (target : option EventTarget) (k : nat) :
  unit_interval random -> shouldCreateParticles target = true -> (k <= 33)%nat ->
  let s := run random acts initial in
  let s0 := handleParticleCreation random x0 y0 target s in
  exists old batch,
    particles s0 = particles s ++ batch /\ length batch = 30%nat /\
    Forall (fun p => forall j, (j < 33)%nat -> fst (update (updates j p)) = true) batch /\
    particles (Nat.iter k frame s0) = old ++ map (updates k) batch.
Proof.
  intros Hr Hok Hk s s0.
  destruct (spawn_built random x0 y0 target s) as (batch & Hp & Hb & Hlen).
  fold s0 in Hp. specialize (Hlen Hok).
  assert (Hfresh : Forall (fun p => life p = 1%float /\ between 0.01 (decay p) 0.03)
                          batch).
  { eapply Forall_impl; [exact Hb|]. intros p Hbp.
    destruct (built_in_range random x0 y0 p Hr Hbp)
      as (_ & _ & Hl & (_ & _ & _ & _ & Hd & _) & _). auto. }
  assert (Hne : batch <> []) by (destruct batch; [discriminate Hlen | discriminate]).
  assert (Hrun : running s0).
  { pose proof (run_idle_or_running random acts initial (or_introl initial_idle)) as Hl.
    destruct (spawn_idle_or_running random x0 y0 target _ Hl) as [(_ & _ & Hnil) | H];
      [|exact H].
    exfalso. fold s s0 in Hnil. rewrite Hp in Hnil. apply app_eq_nil in Hnil.
    destruct Hnil as [_ Hnil]. contradiction. }
  destruct (frames_keep_batch k s0 (particles s) batch Hk Hrun Hne Hp Hfresh)
    as (_ & old & Hq).
  exists old, batch. split; [exact Hp|]. split; [exact Hlen|]. split; [|exact Hq].
  eapply Forall_impl; [exact Hfresh|]. intros p [Hl Hd] j Hj.
  apply fresh_survives; assumption.
Qed.

Lemma batch_outlives_33_frames_witness :
  let acts := [Spawn 100 100 (Some (TargetElement paragraph)); Frame] in
  unit_interval half /\
  shouldCreateParticles (Some (TargetElement paragraph)) = true /\ (33 <= 33)%nat /\
  let s := run half acts initial in
  let s0 := handleParticleCreation half 10 20 (Some (TargetElement paragraph)) s in
  length (particles (Nat.iter 33 frame s0)) = 60%nat /\
  exists old batch,
    particles s0 = particles s ++ batch /\ length batch = 30%nat /\
    Forall (fun p => forall j, (j < 33)%nat -> fst (update (updates j p)) = true) batch /\
    particles (Nat.iter 33 frame s0) = old ++ map (updates 33) batch.
Proof.
  cbn zeta.
  assert (Hr : unit_interval half) by (intros n; split; reflexivity).
  split; [exact Hr|]. split; [reflexivity|]. split; [lia|].
  split; [vm_compute; reflexivity|].
  apply (batch_outlives_33_frames half
           [Spawn 100 100 (Some (TargetElement paragraph)); Frame]
           10 20 (Some (TargetElement paragraph)) 33 Hr eq_refl (le_n 33)).
Defined.

(** ** The touch listener *)

(** X15: the touch listener serves a burst of [touchstart] events with the
    first touch point of its first event.  When the listener is idle and the
    events after [e1] all come within 100 ms of it, then either nothing has
    been spawned yet, the timer holding [e1] being the only one pending, or
    the 100 ms have passed and the handler has run once, for [e1]: a batch
    is requested at the first entry of [e1.touches] with the target of
    [e1], further fingers are ignored, and nothing at all is spawned when
    [e1] carries no touch, whatever the later events of the burst were. *)
Theorem touch_burst_spawns_at_first_touch (random : nat -> float)
    (w0 w1 : wrapper TouchEvent state) (e1 : TouchEvent)
    (rest : list (event TouchEvent)) :
  owns_timers w0 -> timeout w0 = None ->
  dispatched_before (now w0 + 100) (now w0) rest ->
  touch_steps random w0 (Dispatch e1 :: rest) = Some w1 ->
  (inner w1 = inner w0 /\
   exists id, timers w1 = {[ id := (now w0 + 100, e1) ]} /\ timeout w1 = Some id) \/
  (now w0 + 100 <= now w1 /\ timers w1 = empty /\
   inner w1 = match touches e1 with
              | touch :: _ =>
                  handleParticleCreation random (touchX touch) (touchY touch)
                                         (touchTarget e1) (inner w0)
              | [] => inner w0
              end).
Proof.
  intros Ho Hidle Hbefore Hs.
  pose proof (throttle_steps_inv (onTouchStart random) (fun _ s => s)
                config.throttleDelay (fun _ _ => eq_refl) w0
                (e1 :: dispatched rest) (Dispatch e1 :: rest) w0 w1
                (throttle_inv_start _ _ w0 _ Ho)) as Hinv.
  destruct Hinv as (_ & _ & old & fresh & Hcalls & Hin & _).
  - cbn. split; [unfold config.throttleDelay; lia | exact Hbefore].
  - cbn. apply incl_refl.
  - exact Hs.
  - destruct (throttle_first_served (onTouchStart random) (fun _ s => s)
                config.throttleDelay w0 w1 e1 rest Ho Hidle Hbefore Hs)
      as [(Hc & id & Ht & Hto) | (Hc & Ht & _ & Hnow)].
    + left. rewrite Hc in Hcalls.
      rewrite <- (app_nil_r (calls w0)) in Hcalls at 1.
      apply app_inv_head in Hcalls. rewrite <- Hcalls in Hin.
      split; [exact Hin|]. exists id. auto.
    + right. rewrite Hc in Hcalls. apply app_inv_head in Hcalls.
      rewrite <- Hcalls in Hin.
      split; [exact Hnow|]. split; [exact Ht|]. exact Hin.
Qed.

Lemma touch_burst_spawns_at_first_touch_witness :
  let w0 : wrapper TouchEvent state := mkWrapper None empty 1%positive 0 [] initial in
  let e1 := mkTouchEvent [mkTouch 100 100; mkTouch 300 40]
                         (Some (TargetElement paragraph)) in
  let e2 := mkTouchEvent [mkTouch 20 30] (Some (TargetElement paragraph)) in
  let rest := [Elapse 10; Dispatch e2; Elapse 95; Timer 1%positive] in
  owns_timers w0 /\ timeout w0 = None /\
  dispatched_before (now w0 + 100) (now w0) rest /\
  match touch_steps half w0 (Dispatch e1 :: rest) with
  | Some w1 =>
      length (particles (inner w1)) = 30%nat /\
      ((inner w1 = inner w0 /\
        exists id, timers w1 = {[ id := (now w0 + 100, e1) ]} /\ timeout w1 = Some id) \/
       (now w0 + 100 <= now w1 /\ timers w1 = empty /\
        inner w1 = match touches e1 with
                   | touch :: _ =>
                       handleParticleCreation half (touchX touch) (touchY touch)
                                              (touchTarget e1) (inner w0)
                   | [] => inner w0
                   end))
  | None => False
  end.
Proof.
  cbn zeta.
  assert (Ho : owns_timers (mkWrapper (Args:=TouchEvent) None empty 1%positive 0 [] initial)).
  { intros id [v Hv]. cbn in Hv. rewrite lookup_empty in Hv. discriminate. }
  split; [exact Ho|]. split; [reflexivity|]. split; [cbn; lia|].
  destruct (touch_steps half _ _) as [w1|] eqn:Hs.
  - split; [vm_compute in Hs; injection Hs as <-; vm_compute; reflexivity|].
    apply (touch_burst_spawns_at_first_touch half
             (mkWrapper None empty 1%positive 0 [] initial) w1
             (mkTouchEvent [mkTouch 100 100; mkTouch 300 40]
                           (Some (TargetElement paragraph)))
             [Elapse 10;
              Dispatch (mkTouchEvent [mkTouch 20 30] (Some (TargetElement paragraph)));
              Elapse 95; Timer 1%positive]
             Ho eq_refl); [cbn; lia | exact Hs].
  - vm_compute in Hs. discriminate.
Defined.

(** ** The canvas follows the window *)

Lemma resize_step_sync (w w' : wrapper ResizeEvent viewport) (ev : event ResizeEvent) :
  owns_timers w /\ (timers w = empty -> in_sync (inner w)) ->
  step window_resized (debounced resizeDelay)
       (debounce_callback (fun _ : ResizeEvent => resizeCanvas)) w ev = Some w' ->
  owns_timers w' /\ (timers w' = empty -> in_sync (inner w')).
Proof.
  intros [Ho Hsync] Hs.
  split; [exact (debounce_step_owns _ _ _ w w' ev Ho Hs)|].
  destruct ev as [a | id | dt]; cbn [step] in Hs.
  - injection Hs as <-. unfold debounced, clearTimeout. cbn [timeout].
    destruct (timeout w); cbn; intros E; exfalso; revert E; apply insert_non_empty.
  - destruct (timers w !! id) as [[due a]|]; [|discriminate].
    destruct (due <=? now w); [|discriminate]. injection Hs as <-.
    intros _. split; reflexivity.
  - destruct (0 <=? dt); [|discriminate]. injection Hs as <-. exact Hsync.
Qed.

(** X16: from the moment the script has run, the canvas has the dimensions
    of the window whenever no resize timer is pending, whatever resize
    events were dispatched and whenever the timers ran; and when a timer is
    pending, running it leaves no timer behind and gives the canvas the
    dimensions the window has at that moment. *)
Theorem canvas_in_sync_when_settled (v : viewport) (tr : list (event ResizeEvent))
    (w1 : wrapper ResizeEvent viewport) :
  resize_steps (resize_loaded v) tr = Some w1 ->
  (timers w1 = empty -> in_sync (inner w1)) /\
  (forall id w2, resize_steps w1 [Timer id] = Some w2 ->
                 timers w2 = empty /\ in_sync (inner w2)).
Proof.
  intros Hs.
  assert (H0 : owns_timers (resize_loaded v) /\
               (timers (resize_loaded v) = empty -> in_sync (inner (resize_loaded v)))).
  { split; [apply owns_empty; reflexivity | intros _; split; reflexivity]. }
  destruct (steps_invariant window_resized (debounced resizeDelay)
              (debounce_callback (fun _ : ResizeEvent => resizeCanvas)) _
              resize_step_sync tr _ w1 H0 Hs) as [Ho Hsync].
  split; [exact Hsync|].
  intros id w2 H2. unfold resize_steps, debounce_steps in H2. cbn [steps step] in H2.
  destruct (timers w1 !! id) as [[due a]|] eqn:Hid; [|discriminate].
  destruct (due <=? now w1); [|discriminate]. injection H2 as <-.
  cbn. split; [apply (owns_timers_unique w1 id _ Ho Hid) | split; reflexivity].
Qed.

Lemma canvas_in_sync_when_settled_witness :
  let v := mkViewport 800 600 300 150 in
  let tr := [Dispatch (mkResizeEvent 1024 768); Elapse 100;
             Dispatch (mkResizeEvent 1280 720); Elapse 250; Timer 2%positive;
             Elapse 5; Dispatch (mkResizeEvent 640 480)] in
  match resize_steps (resize_loaded v) tr with
  | Some w1 =>
      canvasWidth (inner w1) = 1280 /\ innerWidth (inner w1) = 640 /\
      (timers w1 = empty -> in_sync (inner w1)) /\
      (forall id w2, resize_steps w1 [Timer id] = Some w2 ->
                     timers w2 = empty /\ in_sync (inner w2))
  | None => False
  end.
Proof.
  cbn zeta.
  destruct (resize_steps (resize_loaded _) _) as [w1|] eqn:Hs.
  - split; [vm_compute in Hs; injection Hs as <-; reflexivity|].
    split; [vm_compute in Hs; injection Hs as <-; reflexivity|].
    apply (canvas_in_sync_when_settled (mkViewport 800 600 300 150) _ w1 Hs).
  - vm_compute in Hs. discriminate.
Defined.
